(** * A second-chance (clock) cache: shallow embedding of [cache.go]

    The Go package keeps a fixed table of items, a map from keys to table
    positions, and one bit per position packed in 64-bit words.  A set bit
    marks a position whose item may be ejected.  This file embeds the
    methods of [Cache] as functions on an explicit state and proves
    properties of them.

    Conventions of the embedding:
    - [uint64] values are integers in [0, 2^64); the operations that can
      leave that range ([^], [<<]) reduce modulo [2^64];
    - [int] values are integers; the only [int] computation that can
      overflow is the rounding in [Init], which wraps explicitly; every
      other [int] is a position in a slice and is bounds checked there;
    - a slice is a list; reading or writing outside it is a run-time
      panic, the outcome [Panic];
    - [make] panics on a negative length and on a length above what the
      allocator gives; the limits are parameters of the embedding (class
      [Allocator]), fixed for the example caches;
    - the map [idx] is a [gmap]; the zero value of the map (a cache that was
      never initialised) is the empty map: every method reaches a slice
      access that panics before it would write to such a map;
    - the methods run under the cache lock: the embedding gives their
      sequential behaviour, and atomic [Load], [Store], [And] and [Or] are
      plain reads and writes of a word. *)

From stdpp Require Import gmap list fin_maps.

Local Open Scope Z_scope.

(** ** Outcomes of a call *)

(** A call returns, panics, or (for the embedding of a loop) exhausts the
    number of iterations it was given. *)
Inductive result (A : Type) : Type :=
  | Ok (a : A)
  | Panic
  | OutOfFuel.
Arguments Ok {A} a.
Arguments Panic {A}.
Arguments OutOfFuel {A}.

#[global] Instance result_ret : MRet result := @Ok.
#[global] Instance result_bind : MBind result := λ A B f r,
  match r with
  | Ok a => f a
  | Panic => Panic
  | OutOfFuel => OutOfFuel
  end.

(** ** Machine integers *)

Module U64.
Definition modulus : Z := 2 ^ 64.
(** [^uint64(0)] *)
Definition ones : Z := modulus - 1.
Definition wrap (x : Z) : Z := x mod modulus.
(** [^x] *)
Definition not (x : Z) : Z := wrap (Z.lnot x).
(** [x << s]; a count of 64 or more gives 0 *)
Definition shl (x s : Z) : Z := wrap (Z.shiftl x s).

Fixpoint tz_from (n : nat) (x i : Z) : Z :=
  match n with
  | O => i
  | S n' => if Z.testbit x i then i else tz_from n' x (i + 1)
  end.
(** [bits.TrailingZeros64]: the number of trailing zero bits, 64 for 0 *)
Definition TrailingZeros64 (x : Z) : Z := tz_from 64 x 0.

Definition in_range (x : Z) : Prop := 0 ≤ x < modulus.
End U64.

Module Int.
(** The two's complement value of a 64-bit [int]. *)
Definition wrap (x : Z) : Z := (x + 2 ^ 63) mod 2 ^ 64 - 2 ^ 63.
Definition max : Z := 2 ^ 63 - 1.
End Int.

(** ** Slices *)

(** [s[i]] as a read *)
Definition index {A} (s : list A) (i : Z) : result A :=
  if decide (0 ≤ i) then
    match s !! Z.to_nat i with
    | Some x => Ok x
    | None => Panic
    end
  else Panic.

(** [s[i] = x], after the bounds check of [index] *)
Definition store {A} (s : list A) (i : Z) (x : A) : list A :=
  <[Z.to_nat i := x]> s.

(** [make([]T, n)]: [n] zero values.  A negative length panics, and so
    does a length above [limit], the largest length that the allocator
    gives a slice of this element type (makeslice: len out of range). *)
Definition make {A} (limit : Z) (zero : A) (n : Z) : result (list A) :=
  if decide (n < 0) then Panic
  else if decide (limit < n) then Panic
  else Ok (replicate (Z.to_nat n) zero).

(** The zero value that Go gives every type. *)
Class ZeroValue (A : Type) : Type := zero_value : A.
Global Hint Mode ZeroValue ! : typeclass_instances.
#[global] Instance Z_zero_value : ZeroValue Z := 0.

(** The limits of the allocator for a cache with keys of type [K] and
    values of type [V]: the largest length of a slice of items and of a
    slice of 64-bit words that [make] returns; above them it panics.  The
    run-time system admits at most the largest size of an allocation
    divided by the size of an element, and a machine may give less, so
    the limits are parameters: they depend on the platform and on the key
    and value types. *)
Class Allocator (K V : Type) : Type := {
  max_items : Z;
  max_words : Z
}.
Global Hint Mode Allocator ! ! : typeclass_instances.

(** The platform of the example caches: 64 bits, every allocation of up
    to [2^48] bytes served, items of 24 bytes ([int] key, [int] value,
    mask) and words of 8 bytes. *)
#[global] Instance Z_allocator : Allocator Z Z := {|
  max_items := 2 ^ 48 `div` 24;
  max_words := 2 ^ 45
|}.

Section cache.
Context `{Countable K} `{ZeroValue K} `{ZeroValue V} {alloc : Allocator K V}.

(** ** State *)

Record item : Type := Item {
  key : K;     (* item key *)
  value : V;   (* item value *)
  bit : Z      (* bit mask *)
}.

Record Cache : Type := MkCache {
  idx : gmap K Z;       (* index of keys to items *)
  items : list item;    (* table of cached items *)
  bits : list Z;        (* bit map of ejectable items or free slots *)
  handIdx : Z;          (* hand index in bits *)
  handMask : Z;         (* hand mask of bits to examine *)
  len : Z               (* number of used slots *)
}.

(** [item[K, V]{}] *)
Definition zero_item : item := Item zero_value zero_value 0.

(** The zero value of [Cache], what [new(Cache[K, V])] points to. *)
Definition zero_cache : Cache := MkCache ∅ [] [] 0 0 0.

(** ** Methods *)

Definition Init (c : Cache) (size : Z) : result Cache :=
  let size := Z.land (Int.wrap (size + 63)) (Z.lnot 63) in
  its ← make (max_items (K := K) (V := V)) zero_item size;
  bs ← make (max_words (K := K) (V := V)) 0 (size ÷ 64);
  _ ← index bs 0;
  Ok (MkCache ∅ its (store bs 0 U64.ones) 0 U64.ones (len c)).

Definition New (size : Z) : result Cache := Init zero_cache size.

Definition Reset (c : Cache) : result Cache :=
  Ok (MkCache ∅ ((λ _, zero_item) <$> items c) (bits c) 0 U64.ones 0).

Definition Cap (c : Cache) : Z := Z.of_nat (length (items c)).

Definition Len (c : Cache) : Z := len c.

Definition Get (c : Cache) (k : K) : result (Cache * (V * bool)) :=
  match idx c !! k with
  | Some i =>
      it ← index (items c) i;
      w ← index (bits c) (i ÷ 64);
      Ok (MkCache (idx c) (items c) (store (bits c) (i ÷ 64) (Z.land w (bit it)))
            (handIdx c) (handMask c) (len c),
          (value it, true))
  | None => Ok (c, (zero_value, false))
  end.

Definition Has (c : Cache) (k : K) : result (Cache * bool) :=
  match idx c !! k with
  | Some _ => Ok (c, true)
  | None => Ok (c, false)
  end.

(** [if c.handIdx++; c.handIdx == len(c.bits) { c.handIdx = 0 }] *)
Definition advance (bs : list Z) (h : Z) : Z :=
  if decide (h + 1 = Z.of_nat (length bs)) then 0 else h + 1.

(** The inner [for] of [Add]: every zero word met is stored all ones and
    the hand moves on; the loop leaves at the first word that is not zero.
    [fuel] bounds the number of times the body runs. *)
Fixpoint sweep_loop (fuel : nat) (bs : list Z) (h : Z) : result (list Z * Z * Z) :=
  mbits ← index bs h;
  if decide (mbits = 0) then
    match fuel with
    | O => OutOfFuel
    | S fuel' => sweep_loop fuel' (store bs h U64.ones) (advance bs h)
    end
  else Ok (bs, h, mbits).

(** The search of [Add] for the element to eject, from the load of the
    hand's word to the end of the [if mbits == 0] block.  It returns the
    bit map, the hand index and mask, and [mbits]. *)
Definition sweep (fuel : nat) (c : Cache) : result (list Z * Z * Z * Z) :=
  w ← index (bits c) (handIdx c);
  let mbits := Z.land w (handMask c) in
  if decide (mbits = 0) then
    let bs := store (bits c) (handIdx c) (Z.lor w (handMask c)) in
    '(bs', h', mbits') ← sweep_loop fuel bs (advance bs (handIdx c));
    Ok (bs', h', U64.ones, mbits')
  else Ok (bits c, handIdx c, handMask c, mbits).

(** The end of [Add]: the hand mask keeps the bits above bit [b]; when
    none is left the mask is all ones again and the hand moves on.  The
    result is the mask and the hand index. *)
Definition hand_after (bs : list Z) (h b : Z) : Z * Z :=
  let mask := U64.shl U64.ones (b + 1) in
  if decide (mask = 0) then (U64.ones, advance bs h) else (mask, h).

(** The part of [Add] that runs when the key is new and the cache is full. *)
Definition eject (fuel : nat) (c : Cache) (k : K) (v : V)
  : result (Cache * (V * bool)) :=
  '(bs, h, _, mbits) ← sweep fuel c;
  let b := U64.TrailingZeros64 mbits in
  let i := Z.lor (h * 64) b in
  old ← index (items c) i;
  let m := <[k := i]> (delete (key old) (idx c)) in
  let its := store (items c) i (Item k v (bit old)) in
  w ← index bs h;
  let bs := store bs h (Z.land w (bit old)) in
  let '(mask, h) := hand_after bs h b in
  Ok (MkCache m its bs h mask (len c), (value old, true)).

Definition Add_fuel (fuel : nat) (c : Cache) (k : K) (v : V)
  : result (Cache * (V * bool)) :=
  match idx c !! k with
  | Some i =>
      (* key already in cache: override value *)
      it ← index (items c) i;
      let its := store (items c) i (Item (key it) v (bit it)) in
      w ← index (bits c) (i ÷ 64);
      Ok (MkCache (idx c) its (store (bits c) (i ÷ 64) (Z.land w (bit it)))
            (handIdx c) (handMask c) (len c),
          (value it, true))
  | None =>
      if decide (len c < Z.of_nat (length (items c))) then
        (* cache not yet full: append item leaving hand unmodified *)
        _ ← index (items c) (len c);
        let b := U64.not (U64.shl 1 (Z.rem (len c) 64)) in
        let its := store (items c) (len c) (Item k v b) in
        w ← index (bits c) (len c ÷ 64);
        Ok (MkCache (<[k := len c]> (idx c)) its
              (store (bits c) (len c ÷ 64) (Z.land w b))
              (handIdx c) (handMask c) (len c + 1),
            (zero_value, false))
      else eject fuel c k v
  end.

(** [Add], with as many iterations of the inner loop allowed as the bit
    map has words: each iteration turns a zero word into a word that is not
    zero, so the loop never needs more. *)
Definition Add (c : Cache) (k : K) (v : V) : result (Cache * (V * bool)) :=
  Add_fuel (length (bits c)) c k v.

Definition Delete (c : Cache) (k : K) : result (Cache * (V * bool)) :=
  match idx c !! k with
  | Some i =>
      it ← index (items c) i;
      let m := delete k (idx c) in
      let n := len c - 1 in
      '(m, its, bs) ←
        (if decide (n ≠ i) then
           (* replace deleted item with last item *)
           last ← index (items c) n;
           let m := <[key last := i]> m in
           let its := store (items c) i (Item (key last) (value last) (bit it)) in
           let its := store its n zero_item in
           tail ← index its n;
           w ← index (bits c) (n ÷ 64);
           cur ← index its i;
           wi ← index (bits c) (i ÷ 64);
           if decide (Z.land w (U64.not (bit tail)) = 0) then
             Ok (m, its, store (bits c) (i ÷ 64) (Z.land wi (bit cur)))
           else
             Ok (m, its, store (bits c) (i ÷ 64) (Z.lor wi (U64.not (bit cur))))
         else Ok (m, items c, bits c));
      (* avoid memory leak *)
      _ ← index its n;
      Ok (MkCache m (store its n zero_item) bs (handIdx c) (handMask c) n,
          (value it, true))
  | None => Ok (c, (zero_value, false))
  end.

(** [Items]: the pairs handed to [yield] when the consumer never stops
    the iteration, in the order of the map's traversal. *)
Definition Items (c : Cache) : result (Cache * list (K * V)) :=
  ps ← mapM (M := result) (λ '(k, i), it ← index (items c) i; Ok (k, value it))
            (map_to_list (idx c));
  Ok (c, ps).

(** ** Calls of the public methods *)

Inductive call : Type :=
  | CallInit (size : Z)
  | CallReset
  | CallGet (k : K)
  | CallHas (k : K)
  | CallAdd (k : K) (v : V)
  | CallDelete (k : K)
  | CallItems.

(** The cache after a call, whatever the call returned. *)
Definition run (c : Cache) (op : call) : result Cache :=
  match op with
  | CallInit size => Init c size
  | CallReset => Reset c
  | CallGet k => '(c, _) ← Get c k; Ok c
  | CallHas k => '(c, _) ← Has c k; Ok c
  | CallAdd k v => '(c, _) ← Add c k v; Ok c
  | CallDelete k => '(c, _) ← Delete c k; Ok c
  | CallItems => '(c, _) ← Items c; Ok c
  end.

(** ** Helpers of the tests ([cache_test.go]) *)

(** A shift by a negative count panics. *)
Definition shift_count (s : Z) : result Z :=
  if decide (s < 0) then Panic else Ok s.

(** [ejectable] returns true if the item [i] is ejectable. *)
Definition ejectable (c : Cache) (i : Z) : result bool :=
  s ← shift_count (Z.rem i 64);
  let b := U64.shl 1 s in
  w ← index (bits c) (i ÷ 64);
  Ok (bool_decide (Z.land w b = b)).

(** [setEjectable] sets the ejectable bit of item [i] to [v]. *)
Definition setEjectable (c : Cache) (i : Z) (v : bool) : result Cache :=
  w ← index (bits c) (i ÷ 64);
  s ← shift_count (Z.rem i 64);
  let w :=
    if v then Z.lor w (U64.shl 1 s) else Z.land w (U64.not (U64.shl 1 s)) in
  Ok (MkCache (idx c) (items c) (store (bits c) (i ÷ 64) w)
        (handIdx c) (handMask c) (len c)).

(** ** Invariants *)

(** [^(uint64(1) << (i % 64))], the mask kept in the item at position [i] *)
Definition slot_mask (i : Z) : Z := U64.not (U64.shl 1 (Z.rem i 64)).

(** The hand mask is all ones shifted left by less than 64. *)
Definition mask_shape (m : Z) : Prop :=
  m ≠ 0 ∧ U64.shl U64.ones (U64.TrailingZeros64 m) = m.

(** The used position [i] holds an item that the index sends back to [i]
    and whose mask is the one of [i]. *)
Definition slot_ok (c : Cache) (i : Z) : Prop :=
  match items c !! Z.to_nat i with
  | Some it => idx c !! key it = Some i ∧ bit it = slot_mask i
  | None => False
  end.

(** The invariant as the specification words it: the index has [len]
    entries, each entry [(k, i)] names a position below [len] whose item
    has key [k], and [len] is between 0 and the capacity. *)
Definition structural_invariant (c : Cache) : Prop :=
  Z.of_nat (size (idx c)) = len c ∧
  map_Forall (λ k i, 0 ≤ i < len c ∧ key <$> items c !! Z.to_nat i = Some k)
             (idx c) ∧
  0 ≤ len c ≤ Cap c.

(** A well-formed cache: the structural invariant, with what the methods
    need of the bit map, the hand and the item masks (the method [check]
    of the tests looks at the same fields). *)
Definition wf (c : Cache) : Prop :=
  structural_invariant c ∧
  Forall (slot_ok c) (seqZ 0 (len c)) ∧
  Forall U64.in_range (bits c) ∧
  Z.of_nat (length (items c)) = 64 * Z.of_nat (length (bits c)) ∧
  0 ≤ handIdx c < Z.of_nat (length (bits c)) ∧
  mask_shape (handMask c).

#[global] Instance in_range_dec x : Decision (U64.in_range x).
Proof. unfold U64.in_range. apply _. Defined.

#[global] Instance slot_ok_dec c i : Decision (slot_ok c i).
Proof. unfold slot_ok. destruct (items c !! Z.to_nat i); apply _. Defined.

#[global] Instance structural_invariant_dec c :
  Decision (structural_invariant c).
Proof. unfold structural_invariant. apply _. Defined.

#[global] Instance wf_dec c : Decision (wf c).
Proof. unfold wf, mask_shape. apply _. Defined.

Definition full (c : Cache) : Prop := len c = Cap c.

(** ** The victim of the clock sweep, in the words of the specification *)

(** The position of the lowest set bit of a word. *)
Definition lowest_set_bit (x : Z) : option Z :=
  snd <$> list_find (λ i, Z.testbit x i = true) (seqZ 0 64).

(** The words in the order of the sweep, each with the mask it is read
    under: the hand's word under the hand mask, then the following words
    in ascending order, wrapping around, under a full mask. *)
Definition sweep_order (c : Cache) : list (Z * Z) :=
  let n := Z.of_nat (length (bits c)) in
  (handIdx c, handMask c) ::
  ((λ t, ((handIdx c + t) `mod` n, U64.ones)) <$> seqZ 1 (n - 1)).

Definition masked_word (c : Cache) (jm : Z * Z) : Z :=
  from_option (λ w, Z.land w jm.2) 0 (bits c !! Z.to_nat jm.1).

(** The first word of the sweep whose masked value is not zero decides:
    the victim is [wordIndex * 64 + bitPosition] for the lowest set bit of
    that masked value. *)
Definition clock_victim (c : Cache) : option Z :=
  '(_, jm) ← list_find (λ jm, masked_word c jm ≠ 0) (sweep_order c);
  b ← lowest_set_bit (masked_word c jm);
  Some (jm.1 * 64 + b).

(** [Add(k, v)] ejects the item at position [i]: it returns the value of
    that item with [true], the new pair is at position [i] afterwards, and
    the key of the ejected item is no longer in the cache. *)
Definition Add_ejects (c : Cache) (k : K) (v : V) (i : Z) : Prop :=
  ∃ old c',
    items c !! Z.to_nat i = Some old ∧
    Add c k v = Ok (c', (value old, true)) ∧
    idx c' !! k = Some i ∧
    items c' !! Z.to_nat i = Some (Item k v (bit old)) ∧
    Has c' (key old) = Ok (c', false) ∧
    len c' = len c.

(** ** The whole sweep, as the specification gives it and as amended *)

(** Steps 1 to 3 of the clock sweep in the words of the specification:
    read the word under the hand and mask it; a result that is not zero
    decides; on zero, set the whole word to all ones, take a full mask,
    advance to the next word, wrapping to 0 at the end, and repeat.
    [fuel] bounds the number of words read.  The result is the index of
    the word that decides and its masked value. *)
Fixpoint spec_sweep (fuel : nat) (bs : list Z) (j m : Z) : option (Z * Z) :=
  match fuel with
  | O => None
  | S fuel' =>
      w ← bs !! Z.to_nat j;
      if decide (Z.land w m = 0) then
        spec_sweep fuel' (<[Z.to_nat j := U64.ones]> bs)
          (if decide (j + 1 = Z.of_nat (length bs)) then 0 else j + 1)
          U64.ones
      else Some (j, Z.land w m)
  end.

(** The victim that the sweep of the specification names: the lowest set
    bit of the masked value that decides.  The sweep reads the hand's
    word, the other words, and the hand's word once more. *)
Definition spec_victim (c : Cache) : option Z :=
  '(j, x) ← spec_sweep (S (length (bits c))) (bits c) (handIdx c) (handMask c);
  b ← lowest_set_bit x;
  Some (j * 64 + b).

(** The victim, amended: the one of [clock_victim] when a word of the bit
    map has a masked value that is not zero.  When none has, the sweep is
    back on the hand's word after a whole turn; the word then holds its
    bits or-ed with the hand mask, and its lowest set bit is the victim. *)
Definition turn_victim (c : Cache) : option Z :=
  match clock_victim c with
  | Some i => Some i
  | None =>
      w ← bits c !! Z.to_nat (handIdx c);
      b ← lowest_set_bit (Z.lor w (handMask c));
      Some (handIdx c * 64 + b)
  end.

End cache.

(** ** More of the package: sequences of calls, and the test's [check] *)

Section cache_calls.
Context `{Countable K} `{ZeroValue K} `{ZeroValue V} {alloc : Allocator K V}.
Local Abbreviation cacheT := (Cache (K := K) (V := V)).
Local Abbreviation callT := (call (K := K) (V := V)).

(** What a method returns, without the cache. *)
Definition answer {A : Type} (r : result (cacheT * A)) : result A :=
  '(_, a) ← r; Ok a.

(** The calls of [ops] one after the other. *)
Definition runs (c : cacheT) (ops : list callT) : result cacheT :=
  foldl (λ r op, c ← r; run c op) (Ok c) ops.

Definition is_Init (op : callT) : Prop :=
  match op with
  | CallInit _ => True
  | _ => False
  end.

(** The value that the table holds for a key: the item at the position
    that the index gives. *)
Definition stored (c : cacheT) (k : K) : option V :=
  i ← idx c !! k; it ← items c !! Z.to_nat i; Some (value it).

(** The first loop of [check], over the pairs of the index: the position is
    below [len] and the item there has the key.  The position is then
    inside the table, [len] being at most the capacity by an earlier
    test. *)
Definition check_entry (c : cacheT) (kv : K * Z) : bool :=
  bool_decide (0 ≤ kv.2 < len c) &&
  match items c !! Z.to_nat kv.2 with
  | Some it => bool_decide (key it = kv.1)
  | None => false
  end.

(** The second loop of [check], over the positions below [len]: the key
    of the item is in the index, at this position, and the mask of the item
    is the one of the position. *)
Definition check_slot (c : cacheT) (i : Z) : bool :=
  match items c !! Z.to_nat i with
  | Some p =>
      match idx c !! key p with
      | Some v =>
          bool_decide (v = i) &&
          bool_decide (bit p = U64.not (U64.shl 1 (Z.rem i 64)))
      | None => false
      end
  | None => false
  end.

(** [check] of the tests; [true] stands for the [nil] error.  The tests
    that compare the length of a slice with its capacity always pass here:
    a slice is a list of its length. *)
Definition check (c : cacheT) : bool :=
  bool_decide (len c = Z.of_nat (size (idx c))) &&
  bool_decide (0 ≤ len c ≤ Cap c) &&
  bool_decide (0 ≤ handIdx c ≤ Z.of_nat (length (bits c))) &&
  bool_decide
    (U64.shl U64.ones (U64.TrailingZeros64 (handMask c)) = handMask c) &&
  forallb (check_entry c) (map_to_list (idx c)) &&
  forallb (check_slot c) (seqZ 0 (len c)).

(** The position under the hand: the lowest bit of the hand mask, in the
    hand's word. *)
Definition hand_position (c : cacheT) : Z :=
  handIdx c * 64 + U64.TrailingZeros64 (handMask c).

(** The ejectable positions are the [l] positions from the hand on, around
    the table. *)
Definition ejectable_from_hand (c : cacheT) (l : Z) : Prop :=
  Forall (λ j, ejectable c j =
               Ok (bool_decide ((j - hand_position c) `mod` Cap c < l)))
         (seqZ 0 (Cap c)).

(** [Add] of each pair of [kvs], in order. *)
Definition add_calls (kvs : list (K * V)) : list callT :=
  (λ kv, CallAdd kv.1 kv.2) <$> kvs.
End cache_calls.

#[global] Instance result_eq_dec `{EqDecision A} : EqDecision (result A).
Proof. solve_decision. Defined.

#[global] Instance ejectable_from_hand_dec `{Countable K} `{ZeroValue K}
  `{ZeroValue V} (c : Cache (K := K) (V := V)) l :
  Decision (ejectable_from_hand c l).
Proof. unfold ejectable_from_hand. apply _. Defined.


(** ** Caches of the examples, with keys and values of type [int] *)

Module Examples.
Definition cache : Type := Cache (K := Z) (V := Z).

(** The cache that a sequence of calls returns. *)
Definition the (r : result cache) : cache :=
  match r with
  | Ok c => c
  | _ => zero_cache
  end.

(** [Add(k, k + 100)] for every [k] of [ks], in order *)
Definition adds (r : result cache) (ks : list Z) : result cache :=
  foldl (λ r k, c ← r; '(c, _) ← Add c k (k + 100); Ok c) r ks.

(** [Get(k)] for every [k] of [ks], in order *)
Definition gets (r : result cache) (ks : list Z) : result cache :=
  foldl (λ r k, c ← r; '(c, _) ← Get c k; Ok c) r ks.

(** [New(64)] then [Add(1, 101)], [Add(2, 102)], [Add(3, 103)] *)
Definition three : result cache := adds (New 64) [1; 2; 3].

(** [New(64)] then [Add(1, 101)] *)
Definition one : result cache := adds (New 64) [1].

(** [New(64)] filled with the keys 0 to 63 *)
Definition filled : result cache := adds (New 64) (seqZ 0 64).

(** The filled cache after [setEjectable(5, true)]: position 5 is the only
    ejectable one. *)
Definition filled_5 : result cache := c ← filled; setEjectable c 5 true.

(** The filled cache after [Add(64, 164)], which ejects position 0 and
    leaves the hand on bit 1, and a [Get] of every other key. *)
Definition swept_once : result cache :=
  gets (adds filled [64]) (seqZ 1 63).
(** [Delete(k)] *)
Definition del (r : result cache) (k : Z) : result cache :=
  c ← r; '(c, _) ← Delete c k; Ok c.

(** The filled cache after [Reset]. *)
Definition filled_reset : result cache := c ← filled; Reset c.

(** What [Add(101, 201)] returns at the end of this sequence of calls on an
    empty cache of capacity 64: [Add] of the keys 1 and 2, [Delete(1)],
    [Add] of the keys 3 to 65 (the cache is full again), [Add(100, 200)],
    [Get(3)]. *)
Definition probe (r : result cache) : result (Z * bool) :=
  c ← gets (adds (adds (del (adds r [1; 2]) 1) (seqZ 3 63)) [100]) [3];
  '(_, out) ← Add c 101 201;
  Ok out.
End Examples.

(** ** More example caches *)

Module MoreExamples.
Import Examples.

(** [New(128)] with the keys 0 to 9 *)
Definition ten : result cache := adds (New 128) (seqZ 0 10).

(** [New(128)] filled with the keys 0 to 127: no item is ejectable. *)
Definition filled_128 : result cache := adds (New 128) (seqZ 0 128).


(** The filled cache of 128 with the hand on bit 3 of word 1. *)
Definition filled_128_hand : result cache :=
  c ← filled_128;
  Ok (MkCache (idx c) (items c) (bits c) 1 (U64.shl U64.ones 3) (len c)).
End MoreExamples.

(** * Facts *)

(** ** Facts on 64-bit words *)

Module U64Facts.
Import U64.

Lemma ones_eq : ones = Z.ones 64.
Proof. reflexivity. Qed.

Lemma in_range_bits x :
  in_range x ↔ 0 ≤ x ∧ ∀ l, 64 ≤ l → Z.testbit x l = false.
Proof.
  unfold in_range, modulus. split.
  - intros Hx. split; [lia|].
    by apply (Z.bounded_iff_bits_nonneg' 64 x); [lia|lia|].
  - intros [Hx Hb]. by apply (Z.bounded_iff_bits_nonneg' 64 x); [lia|..].
Qed.

Lemma wrap_in_range x : in_range (wrap x).
Proof. unfold in_range, wrap, modulus. apply Z.mod_pos_bound. lia. Qed.

Lemma wrap_small x : in_range x → wrap x = x.
Proof. unfold in_range, wrap. intros. by apply Z.mod_small. Qed.

Lemma testbit_wrap x i : Z.testbit (wrap x) i = (i <? 64) && Z.testbit x i.
Proof. unfold wrap, modulus. by apply Z.testbit_mod_pow2. Qed.

Lemma testbit_high x i : in_range x → 64 ≤ i → Z.testbit x i = false.
Proof. intros Hx%in_range_bits ?. by apply Hx. Qed.

Lemma testbit_ones i : 0 ≤ i → Z.testbit ones i = (i <? 64).
Proof. intros. rewrite ones_eq. by apply Z.testbit_ones_nonneg. Qed.

Lemma testbit_not x i :
  0 ≤ i → Z.testbit (not x) i = (i <? 64) && negb (Z.testbit x i).
Proof. intros. unfold not. by rewrite testbit_wrap, Z.lnot_spec. Qed.

Lemma testbit_shl x s i :
  0 ≤ i → Z.testbit (shl x s) i = (i <? 64) && Z.testbit x (i - s).
Proof. intros. unfold shl. by rewrite testbit_wrap, Z.shiftl_spec. Qed.

Lemma ones_in_range : in_range ones.
Proof. unfold in_range, ones, modulus. lia. Qed.

Lemma not_in_range x : in_range (not x).
Proof. apply wrap_in_range. Qed.

Lemma shl_in_range x s : in_range (shl x s).
Proof. apply wrap_in_range. Qed.

Lemma land_in_range a b : in_range a → in_range (Z.land a b).
Proof.
  intros Ha. apply in_range_bits. split.
  - apply Z.land_nonneg. left. apply Ha.
  - intros l Hl. by rewrite Z.land_spec, (testbit_high a l).
Qed.

Lemma lor_in_range a b : in_range a → in_range b → in_range (Z.lor a b).
Proof.
  intros Ha Hb. apply in_range_bits. split.
  - apply Z.lor_nonneg. split; [apply Ha|apply Hb].
  - intros l Hl. by rewrite Z.lor_spec, (testbit_high a l), (testbit_high b l).
Qed.

(** The bit mask of a position: all ones but bit [s]. *)
Lemma testbit_not_shl_1 s i :
  0 ≤ s → 0 ≤ i →
  Z.testbit (not (shl 1 s)) i = (i <? 64) && negb (i =? s).
Proof.
  intros Hs Hi. rewrite testbit_not, testbit_shl by done.
  change 1 with (2 ^ 0). rewrite Z.pow2_bits_eqb by lia.
  replace (0 =? i - s) with (i =? s)
    by (destruct (Z.eqb_spec 0 (i - s)), (Z.eqb_spec i s); (done || lia)).
  by destruct (i <? 64).
Qed.

Lemma shl_1_pow2 s : 0 ≤ s < 64 → shl 1 s = 2 ^ s.
Proof.
  intros Hs. unfold shl, wrap, modulus. rewrite Z.shiftl_1_l.
  apply Z.mod_small. split; [lia|]. apply Z.pow_lt_mono_r; lia.
Qed.

Lemma land_clear_bit w s :
  0 ≤ s < 64 → Z.land (Z.land w (not (shl 1 s))) (shl 1 s) = 0.
Proof.
  intros Hs. apply Z.bits_inj'. intros j Hj.
  rewrite !Z.land_spec, testbit_not_shl_1, Z.bits_0 by lia.
  rewrite shl_1_pow2, Z.pow2_bits_eqb by lia.
  destruct (Z.eqb_spec j s) as [->|Hne].
  - by rewrite andb_false_r, andb_false_r.
  - destruct (Z.eqb_spec s j); [lia|]. by rewrite andb_false_r.
Qed.

Lemma lor_ones w : in_range w → Z.lor w ones = ones.
Proof.
  intros Hw. apply Z.bits_inj'. intros j Hj.
  rewrite Z.lor_spec, testbit_ones by done.
  destruct (Z.ltb_spec j 64); [by rewrite orb_true_r|].
  by rewrite (testbit_high w j).
Qed.

Lemma land_ones w : in_range w → Z.land w ones = w.
Proof.
  intros Hw. rewrite ones_eq, Z.land_ones by lia. by apply Z.mod_small.
Qed.

Lemma not_not x : in_range x → not (not x) = x.
Proof.
  intros Hx. apply Z.bits_inj'. intros j Hj.
  rewrite !testbit_not by done.
  destruct (Z.ltb_spec j 64); simpl.
  - by rewrite negb_involutive.
  - by rewrite (testbit_high x j).
Qed.

Lemma land_lor_same w b : Z.land (Z.lor w b) b = b.
Proof.
  apply Z.bits_inj'. intros j Hj. rewrite Z.land_spec, Z.lor_spec.
  by destruct (Z.testbit w j), (Z.testbit b j).
Qed.

Lemma shl_1_ne_0 s : 0 ≤ s < 64 → shl 1 s ≠ 0.
Proof. intros Hs. rewrite shl_1_pow2 by done. lia. Qed.

(** [TrailingZeros64] finds the lowest set bit. *)
Lemma tz_from_spec n x i :
  let r := tz_from n x i in
  (r = i + Z.of_nat n ∧ ∀ j, i ≤ j < r → Z.testbit x j = false) ∨
  (i ≤ r < i + Z.of_nat n ∧ Z.testbit x r = true ∧
   ∀ j, i ≤ j < r → Z.testbit x j = false).
Proof.
  revert i. induction n as [|n IH]; intros i; simpl.
  - left. split; [lia|]. intros; lia.
  - destruct (Z.testbit x i) eqn:Hb.
    + right. split; [lia|]. split; [done|]. intros; lia.
    + destruct (IH (i + 1)) as [[Hr Hz]|(Hr & Ht & Hz)].
      * left. split; [lia|]. intros j Hj.
        destruct (decide (j = i)) as [->|]; [done|]. apply Hz. lia.
      * right. split; [lia|]. split; [done|]. intros j Hj.
        destruct (decide (j = i)) as [->|]; [done|]. apply Hz. lia.
Qed.

Lemma TrailingZeros64_spec x :
  in_range x → x ≠ 0 →
  0 ≤ TrailingZeros64 x < 64 ∧
  Z.testbit x (TrailingZeros64 x) = true ∧
  ∀ j, 0 ≤ j < TrailingZeros64 x → Z.testbit x j = false.
Proof.
  intros Hx Hne. unfold TrailingZeros64.
  destruct (tz_from_spec 64 x 0) as [[Hr Hz]|(Hr & Ht & Hz)].
  - exfalso. apply Hne, Z.bits_inj_0. intros j.
    destruct (Z.lt_ge_cases j 0); [by apply Z.testbit_neg_r|].
    destruct (Z.lt_ge_cases j 64); [apply Hz; lia|by apply testbit_high].
  - split; [lia|done].
Qed.

Lemma TrailingZeros64_unique x b :
  in_range x → Z.testbit x b = true →
  (∀ j, 0 ≤ j < b → Z.testbit x j = false) →
  TrailingZeros64 x = b.
Proof.
  intros Hx Hb Hlow.
  assert (x ≠ 0) as Hne by (intros ->; by rewrite Z.bits_0 in Hb).
  destruct (TrailingZeros64_spec x Hx Hne) as (Hr & Ht & Hz).
  assert (0 ≤ b).
  { destruct (Z.lt_ge_cases b 0); [|done].
    by rewrite Z.testbit_neg_r in Hb. }
  destruct (Z.lt_trichotomy (TrailingZeros64 x) b) as [Hlt|[Heq|Hgt]].
  - rewrite Hlow in Ht by lia. done.
  - done.
  - rewrite Hz in Hb by lia. done.
Qed.

(** [h*64 | b] is [h*64 + b] for a bit position [b]. *)
Lemma lor_word_bit h b : 0 ≤ h → 0 ≤ b < 64 → Z.lor (h * 64) b = h * 64 + b.
Proof.
  intros Hh Hb.
  assert (Z.land (h * 64) b = 0) as Hdisj.
  { apply Z.bits_inj'. intros i Hi. rewrite Z.land_spec, Z.bits_0.
    destruct (Z.lt_ge_cases i 6).
    - change 64 with (2 ^ 6). by rewrite Z.mul_pow2_bits_low.
    - rewrite (Z.bits_above_log2 b i), andb_false_r; [done|lia|].
      destruct (decide (b = 0)) as [->|]; [simpl; lia|].
      apply Z.log2_lt_pow2; [lia|].
      apply Z.lt_le_trans with (2 ^ 6); [lia|]. apply Z.pow_le_mono_r; lia. }
  by rewrite <-Z.lxor_lor, <-Z.add_nocarry_lxor.
Qed.
(** A word whose only set bit is bit 5, under a mask *)
Lemma tz_land_bit_5 m :
  Z.land (2 ^ 5) m ≠ 0 → TrailingZeros64 (Z.land (2 ^ 5) m) = 5.
Proof.
  intros Hne.
  assert (∀ j, 0 ≤ j →
            Z.testbit (Z.land (2 ^ 5) m) j = (5 =? j) && Z.testbit m j) as Hbits.
  { intros j Hj. by rewrite Z.land_spec, Z.pow2_bits_eqb by lia. }
  apply TrailingZeros64_unique.
  - apply land_in_range. unfold in_range, modulus. lia.
  - rewrite Hbits by lia. destruct (Z.testbit m 5) eqn:Hm; [done|].
    exfalso. apply Hne, Z.bits_inj'. intros j Hj.
    rewrite Hbits, Z.bits_0 by done.
    destruct (Z.eqb_spec 5 j) as [<-|]; [by rewrite Hm|done].
  - intros j Hj. rewrite Hbits by lia.
    destruct (Z.eqb_spec 5 j); [lia|done].
Qed.

Lemma tz_shl_ones s : 0 ≤ s < 64 → TrailingZeros64 (shl ones s) = s.
Proof.
  intros Hs. apply TrailingZeros64_unique.
  - apply shl_in_range.
  - rewrite testbit_shl, Z.sub_diag, testbit_ones by lia.
    apply andb_true_intro. split; apply Z.ltb_lt; lia.
  - intros j Hj. rewrite testbit_shl by lia.
    rewrite (Z.testbit_neg_r ones (j - s)) by lia. apply andb_false_r.
Qed.

Lemma shl_ones_ne_0 s : 0 ≤ s < 64 → shl ones s ≠ 0.
Proof.
  intros Hs Hz.
  assert (Z.testbit (shl ones s) s = true) as Hb.
  { rewrite testbit_shl, Z.sub_diag, testbit_ones by lia.
    apply andb_true_intro. split; apply Z.ltb_lt; lia. }
  by rewrite Hz, Z.bits_0 in Hb.
Qed.

(** and or-ed with a hand mask that does not cover bit 5 *)
Lemma tz_lor_bit_5 s :
  0 ≤ s < 64 → Z.land (2 ^ 5) (shl ones s) = 0 →
  TrailingZeros64 (Z.lor (2 ^ 5) (shl ones s)) = 5.
Proof.
  intros Hs Hz.
  assert (5 < s) as Hlt.
  { destruct (Z.lt_ge_cases 5 s) as [|Hle]; [done|]. exfalso.
    assert (Z.testbit (Z.land (2 ^ 5) (shl ones s)) 5 = true) as Hb.
    { rewrite Z.land_spec, Z.pow2_bits_eqb, testbit_shl, testbit_ones by lia.
      simpl. apply Z.ltb_lt. lia. }
    by rewrite Hz, Z.bits_0 in Hb. }
  apply TrailingZeros64_unique.
  - apply lor_in_range; [|apply shl_in_range]. unfold in_range, modulus. lia.
  - by rewrite Z.lor_spec, Z.pow2_bits_eqb by lia.
  - intros j Hj.
    rewrite Z.lor_spec, Z.pow2_bits_eqb, testbit_shl by lia.
    rewrite (Z.testbit_neg_r ones (j - s)) by lia.
    destruct (Z.eqb_spec 5 j); [lia|]. by rewrite andb_false_r.
Qed.
End U64Facts.


(** ** Facts on slices *)

Section slices.
Context {A : Type}.
Implicit Types (s : list A) (i j : Z) (x : A).

Lemma make_cases limit x n :
  make limit x n =
    if decide (0 ≤ n ≤ limit) then Ok (replicate (Z.to_nat n) x) else Panic.
Proof. unfold make. repeat case_decide; (done || lia). Qed.

Lemma index_Ok s i x : index s i = Ok x ↔ 0 ≤ i ∧ s !! Z.to_nat i = Some x.
Proof.
  unfold index. destruct (decide (0 ≤ i)) as [Hi|Hi].
  - destruct (s !! Z.to_nat i) as [y|]; split.
    + by intros [= ->].
    + by intros [_ [= ->]].
    + done.
    + by intros [_ ?].
  - split; [done|]. intros [? _]. lia.
Qed.

Lemma index_lookup s i x : 0 ≤ i → s !! Z.to_nat i = Some x → index s i = Ok x.
Proof. intros. by apply index_Ok. Qed.

Lemma index_in_range s i :
  0 ≤ i < Z.of_nat (length s) → ∃ x, s !! Z.to_nat i = Some x ∧ index s i = Ok x.
Proof.
  intros Hi. destruct (lookup_lt_is_Some_2 s (Z.to_nat i)) as [x Hx]; [lia|].
  exists x. split; [done|]. apply index_lookup; [lia|done].
Qed.

Lemma index_out_of_range s i : ¬ 0 ≤ i < Z.of_nat (length s) → index s i = Panic.
Proof.
  intros Hi. unfold index. destruct (decide (0 ≤ i)); [|done].
  rewrite lookup_ge_None_2; [done|lia].
Qed.

Lemma length_store s i x : length (store s i x) = length s.
Proof. apply length_insert. Qed.

Lemma lookup_store_eq s i x :
  0 ≤ i < Z.of_nat (length s) → store s i x !! Z.to_nat i = Some x.
Proof. intros. apply list_lookup_insert_eq. lia. Qed.

Lemma lookup_store_ne s i j x :
  0 ≤ i → 0 ≤ j → i ≠ j → store s i x !! Z.to_nat j = s !! Z.to_nat j.
Proof. intros. apply list_lookup_insert_ne. lia. Qed.

Lemma lookup_in_range s i x :
  0 ≤ i → s !! Z.to_nat i = Some x → 0 ≤ i < Z.of_nat (length s).
Proof. intros Hi Hx%lookup_lt_Some. lia. Qed.
End slices.

(** ** Walking around the bit map *)

Section ring.
Variable n : Z.

Lemma ring_add p d :
  0 ≤ p < n → 0 ≤ d ≤ n →
  (p + d) `mod` n = if decide (p + d < n) then p + d else p + d - n.
Proof.
  intros Hp Hd. case_decide.
  - apply Z.mod_small. lia.
  - transitivity ((p + d - n) `mod` n); [|apply Z.mod_small; lia].
    rewrite <-(Z.mod_add (p + d - n) 1 n) by lia. f_equal. lia.
Qed.

Lemma ring_0 p : 0 ≤ p < n → (p + 0) `mod` n = p.
Proof. intros. rewrite ring_add by lia. case_decide; lia. Qed.

Lemma ring_bound p d : 0 ≤ p < n → 0 ≤ (p + d) `mod` n < n.
Proof. intros. apply Z.mod_pos_bound. lia. Qed.

Lemma ring_ne p d : 0 ≤ p < n → 0 < d < n → (p + d) `mod` n ≠ p.
Proof. intros. rewrite ring_add by lia. case_decide; lia. Qed.

Lemma ring_full p : 0 ≤ p < n → (p + n) `mod` n = p.
Proof. intros. rewrite ring_add by lia. case_decide; lia. Qed.

Lemma ring_succ p d : 0 ≤ p < n → ((p + 1) `mod` n + d) `mod` n = (p + (d + 1)) `mod` n.
Proof.
  intros. rewrite Z.add_mod_idemp_l by lia. f_equal. lia.
Qed.

End ring.

(** ** The inner loop of the sweep *)

Section sweep_loop.
Implicit Types (bs : list Z) (p h : Z) (fuel : nat).

Lemma sweep_loop_unfold fuel bs h :
  sweep_loop fuel bs h =
    (mbits ← index bs h;
     if decide (mbits = 0) then
       match fuel with
       | O => OutOfFuel
       | S fuel' => sweep_loop fuel' (store bs h U64.ones) (advance bs h)
       end
     else Ok (bs, h, mbits)).
Proof. by destruct fuel. Qed.

Lemma advance_ring bs p :
  0 ≤ p < Z.of_nat (length bs) →
  advance bs p = (p + 1) `mod` Z.of_nat (length bs).
Proof.
  intros Hp. unfold advance. rewrite ring_add by lia.
  repeat case_decide; lia.
Qed.

(** More fuel does not change a result. *)
Lemma sweep_loop_mono fuel fuel' bs h r :
  (fuel ≤ fuel')%nat →
  sweep_loop fuel bs h = Ok r → sweep_loop fuel' bs h = Ok r.
Proof.
  revert fuel' bs h. induction fuel as [|fuel IH]; intros fuel' bs h Hle;
    rewrite (sweep_loop_unfold _ bs h), (sweep_loop_unfold fuel' bs h);
    destruct (index bs h) as [w| |]; simpl; try done;
    destruct (decide (w = 0)); try done.
  destruct fuel' as [|fuel']; [lia|]. apply IH. lia.
Qed.

(** If a word that is not zero lies [d] steps ahead, with [d] less than
    the number of words, the loop stops after [t ≤ d] steps at the first
    such word; it has stored all ones in the [t] words it went over, which
    were zero, and nothing else. *)
Lemma sweep_loop_reaches (d : nat) fuel bs p w :
  let n := Z.of_nat (length bs) in
  0 ≤ p < n → Z.of_nat d < n → (d ≤ fuel)%nat →
  bs !! Z.to_nat ((p + Z.of_nat d) `mod` n) = Some w → w ≠ 0 →
  ∃ (t : nat) bs' w',
    (t ≤ d)%nat ∧
    sweep_loop fuel bs p = Ok (bs', (p + Z.of_nat t) `mod` n, w') ∧
    w' ≠ 0 ∧
    bs !! Z.to_nat ((p + Z.of_nat t) `mod` n) = Some w' ∧
    bs' !! Z.to_nat ((p + Z.of_nat t) `mod` n) = Some w' ∧
    length bs' = length bs ∧
    (∀ s, 0 ≤ s < Z.of_nat t →
       bs !! Z.to_nat ((p + s) `mod` n) = Some 0 ∧
       bs' !! Z.to_nat ((p + s) `mod` n) = Some U64.ones) ∧
    (∀ j, 0 ≤ j → (∀ s, 0 ≤ s < Z.of_nat t → j ≠ (p + s) `mod` n) →
       bs' !! Z.to_nat j = bs !! Z.to_nat j).
Proof.
  intros n. subst n. revert fuel bs p.
  induction d as [|d IH]; intros fuel bs p Hp Hd Hfuel Hw Hne;
    set (n := Z.of_nat (length bs)) in *;
    rewrite sweep_loop_unfold.
  - rewrite ring_0 in Hw by done.
    rewrite (index_lookup _ _ _ (proj1 Hp) Hw). simpl.
    rewrite decide_False by done.
    exists 0%nat, bs, w. rewrite ring_0 by done.
    repeat split; try done; intros; lia.
  - destruct (index_in_range bs p Hp) as (wp & Hwp & ->). simpl.
    destruct (decide (wp = 0)) as [->|Hwp0].
    + destruct fuel as [|fuel]; [lia|].
      assert (0 ≤ (p + 1) `mod` n < n) as Hp' by by apply ring_bound.
      assert (∀ s, 0 ≤ s < n - 1 → (p + (s + 1)) `mod` n ≠ p) as Hnp.
      { intros s Hs. apply ring_ne; lia. }
      rewrite advance_ring by done. fold n.
      specialize (IH fuel (store bs p U64.ones) ((p + 1) `mod` n)).
      rewrite length_store in IH. fold n in IH.
      destruct IH
        as (t & bs' & w' & Ht & Hrun & Hw' & Hat & Hat' & Hlen & Hz & Ho);
        try done; try lia.
      { rewrite ring_succ by done.
        rewrite lookup_store_ne; [|lia|apply ring_bound; lia|].
        - by replace (Z.of_nat d + 1) with (Z.of_nat (S d)) by lia.
        - intros Heq. apply (Hnp (Z.of_nat d)); [lia|done]. }
      rewrite ring_succ in Hrun, Hat, Hat' by done.
      replace (Z.of_nat t + 1) with (Z.of_nat (S t)) in Hrun, Hat, Hat' by lia.
      assert (bs' !! Z.to_nat p = Some U64.ones) as Hbp.
      { rewrite Ho; [by apply lookup_store_eq|lia|].
        intros s Hs. rewrite ring_succ by done.
        intros Heq. apply (Hnp s); [lia|done]. }
      exists (S t), bs', w'. split; [lia|]. split; [done|]. split; [done|].
      split.
      { rewrite lookup_store_ne in Hat; [done|lia|apply ring_bound; lia|].
        intros Heq. replace (Z.of_nat (S t)) with (Z.of_nat t + 1) in Heq by lia.
        apply (Hnp (Z.of_nat t)); [lia|done]. }
      split; [done|]. split; [done|]. split.
      * intros s Hs. destruct (decide (s = 0)) as [->|Hs0].
        { rewrite ring_0 by done. done. }
        destruct (Hz (s - 1)) as [Hz1 Hz2]; [lia|].
        rewrite ring_succ in Hz1, Hz2 by done.
        replace (s - 1 + 1) with s in Hz1, Hz2 by lia.
        split; [|done].
        rewrite lookup_store_ne in Hz1; [done|lia|apply ring_bound; lia|].
        intros Heq. apply (Hnp (s - 1)); [lia|].
        by replace (s - 1 + 1) with s by lia.
      * intros j Hj Hvis.
        assert (j ≠ p) as Hjp.
        { intros ->. apply (Hvis 0); [lia|]. by rewrite ring_0. }
        rewrite Ho; [apply lookup_store_ne; lia|done|].
        intros s Hs. rewrite ring_succ by done. apply Hvis. lia.
    + exists 0%nat, bs, wp. rewrite ring_0 by done.
      repeat split; try done; try lia; intros; lia.
Qed.
End sweep_loop.

(** ** Division of a position into word and bit *)

(** [x & ^63] rounds down to a multiple of 64. *)
Lemma land_lnot_63 x : Z.land x (Z.lnot 63) = 64 * (x `div` 64).
Proof.
  rewrite <-Z.ldiff_land. change 63 with (Z.ones 6).
  rewrite Z.ldiff_ones_r, Z.shiftr_div_pow2, Z.shiftl_mul_pow2 by lia.
  change (2 ^ 6) with 64. lia.
Qed.

Lemma quot64 i : 0 ≤ i → i ÷ 64 = i `div` 64.
Proof. intros. by apply Z.quot_div_nonneg. Qed.

Lemma rem64 i : 0 ≤ i → Z.rem i 64 = i `mod` 64.
Proof. intros. by apply Z.rem_mod_nonneg. Qed.

Lemma word_of_slot i n : 0 ≤ i < 64 * n → 0 ≤ i ÷ 64 < n.
Proof.
  intros Hi. rewrite quot64 by lia. split.
  - apply Z.div_pos; lia.
  - apply Z.div_lt_upper_bound; lia.
Qed.

Lemma bit_of_slot i : 0 ≤ i → 0 ≤ Z.rem i 64 < 64.
Proof. intros. rewrite rem64 by done. apply Z.mod_pos_bound. lia. Qed.

(** ** Well-formed caches *)

Section wf_facts.
Context `{Countable K} `{ZeroValue K} `{ZeroValue V} {alloc : Allocator K V}.
Implicit Types (c : Cache (K := K) (V := V)) (k : K) (v : V) (i j : Z).

Lemma wf_structural c : wf c → structural_invariant c.
Proof. by intros [? _]. Qed.

Lemma wf_len c : wf c → 0 ≤ len c ≤ Cap c.
Proof. by intros [(_ & _ & ?) _]. Qed.

Lemma wf_size c : wf c → Z.of_nat (size (idx c)) = len c.
Proof. by intros [(? & _ & _) _]. Qed.

Lemma wf_cap c : wf c → Cap c = 64 * Z.of_nat (length (bits c)).
Proof. by intros (_ & _ & _ & ? & _). Qed.

Lemma wf_hand c : wf c → 0 ≤ handIdx c < Z.of_nat (length (bits c)).
Proof. by intros (_ & _ & _ & _ & ? & _). Qed.

Lemma wf_slot c i :
  wf c → 0 ≤ i < len c →
  ∃ it, items c !! Z.to_nat i = Some it ∧ idx c !! key it = Some i ∧
        bit it = slot_mask i.
Proof.
  intros (_ & Hslots & _) Hi.
  rewrite Forall_seqZ in Hslots. specialize (Hslots i). unfold slot_ok in Hslots.
  destruct (items c !! Z.to_nat i) as [it|]; [|destruct Hslots; lia].
  exists it. split; [done|]. apply Hslots. lia.
Qed.

Lemma wf_idx c k i :
  wf c → idx c !! k = Some i →
  0 ≤ i < len c ∧
  ∃ it, items c !! Z.to_nat i = Some it ∧ key it = k ∧ bit it = slot_mask i.
Proof.
  intros Hwf Hk. pose proof Hwf as [(_ & Hidx & _) _].
  destruct (Hidx k i Hk) as [Hi Hkey]. split; [done|].
  destruct (wf_slot c i Hwf Hi) as (it & Hit & _ & Hbit).
  exists it. rewrite Hit in Hkey. simpl in Hkey. by injection Hkey.
Qed.

Lemma wf_word c (j : nat) w : wf c → bits c !! j = Some w → U64.in_range w.
Proof.
  intros (_ & _ & Hwords & _) Hw. by eapply Forall_lookup_1 in Hwords.
Qed.

Lemma wf_mask c :
  wf c →
  handMask c ≠ 0 ∧ U64.in_range (handMask c) ∧
  ∃ s, 0 ≤ s < 64 ∧ handMask c = U64.shl U64.ones s.
Proof.
  intros (_ & _ & _ & _ & _ & Hne & Hshape).
  assert (U64.in_range (handMask c)) as Hr.
  { rewrite <-Hshape. apply U64Facts.shl_in_range. }
  split; [done|]. split; [done|].
  exists (U64.TrailingZeros64 (handMask c)). split; [|done].
  by apply U64Facts.TrailingZeros64_spec.
Qed.

(** The word of a position of the table exists. *)
Lemma wf_word_of_slot c i :
  wf c → 0 ≤ i < Cap c →
  ∃ w, bits c !! Z.to_nat (i ÷ 64) = Some w ∧ index (bits c) (i ÷ 64) = Ok w ∧
       U64.in_range w.
Proof.
  intros Hwf Hi. rewrite (wf_cap c Hwf) in Hi.
  destruct (index_in_range (bits c) (i ÷ 64)) as (w & Hw & Hiw).
  { by apply word_of_slot. }
  exists w. split; [done|]. split; [done|]. by eapply wf_word.
Qed.

Lemma wf_item c i :
  wf c → 0 ≤ i < Cap c →
  ∃ it, items c !! Z.to_nat i = Some it ∧ index (items c) i = Ok it.
Proof. intros _ Hi. by apply index_in_range. Qed.
End wf_facts.

(** ** The sweep *)

Section sweep_facts.
Context `{Countable K} `{ZeroValue K} `{ZeroValue V} {alloc : Allocator K V}.
Implicit Types (c : Cache (K := K) (V := V)) (k : K) (v : V) (i j : Z).

Lemma sweep_loop_in_range fuel bs p bs' h w :
  sweep_loop fuel bs p = Ok (bs', h, w) →
  Forall U64.in_range bs → Forall U64.in_range bs'.
Proof.
  revert bs p. induction fuel as [|fuel IH]; intros bs p;
    rewrite sweep_loop_unfold;
    destruct (index bs p) as [wp| |]; simpl; try done;
    destruct (decide (wp = 0)); try done; try by intros [= <- _ _].
  intros Hrun Hbs. apply (IH _ _ Hrun).
  apply Forall_insert; [done|]. apply U64Facts.ones_in_range.
Qed.

Lemma sweep_mono fuel fuel' c r :
  (fuel ≤ fuel')%nat → sweep fuel c = Ok r → sweep fuel' c = Ok r.
Proof.
  intros Hle. unfold sweep.
  destruct (index (bits c) (handIdx c)) as [w| |]; simpl; try done.
  destruct (decide (Z.land w (handMask c) = 0)); [|done].
  destruct (sweep_loop fuel _ _) as [[[bs h] mb]| |] eqn:Hrun; simpl; try done.
  by rewrite (sweep_loop_mono _ _ _ _ _ Hle Hrun).
Qed.

(** What the sweep does on a well-formed cache.  When the hand's word has
    a set bit under the hand mask nothing is written.  Otherwise the
    hand's word is or-ed with the hand mask, the hand goes [t] words ahead
    to the first word that is not zero, the words in between were zero and
    are all ones afterwards, and no other word changes.  After a whole turn
    ([t] is the number of words) the hand is back on its word. *)
Lemma sweep_spec c fuel w :
  let n := Z.of_nat (length (bits c)) in
  let h := handIdx c in
  wf c → (length (bits c) - 1 ≤ fuel)%nat →
  bits c !! Z.to_nat h = Some w →
  if decide (Z.land w (handMask c) = 0) then
    ∃ (t : nat) bs' w',
      1 ≤ Z.of_nat t ≤ n ∧
      sweep fuel c = Ok (bs', (h + Z.of_nat t) `mod` n, U64.ones, w') ∧
      w' ≠ 0 ∧ U64.in_range w' ∧
      length bs' = length (bits c) ∧
      Forall U64.in_range bs' ∧
      bs' !! Z.to_nat h = Some (Z.lor w (handMask c)) ∧
      bs' !! Z.to_nat ((h + Z.of_nat t) `mod` n) = Some w' ∧
      (Z.of_nat t < n →
         bits c !! Z.to_nat ((h + Z.of_nat t) `mod` n) = Some w') ∧
      (∀ s, 1 ≤ s < Z.of_nat t →
         bits c !! Z.to_nat ((h + s) `mod` n) = Some 0 ∧
         bs' !! Z.to_nat ((h + s) `mod` n) = Some U64.ones) ∧
      (∀ j, 0 ≤ j → j ≠ h →
         (∀ s, 1 ≤ s < Z.of_nat t → j ≠ (h + s) `mod` n) →
         bs' !! Z.to_nat j = bits c !! Z.to_nat j)
  else sweep fuel c = Ok (bits c, h, handMask c, Z.land w (handMask c)).
Proof.
  intros n h Hwf Hfuel Hw.
  pose proof (wf_hand c Hwf) as Hh. fold n h in Hh.
  destruct (wf_mask c Hwf) as (Hm0 & Hmr & _).
  pose proof (wf_word c _ w Hwf Hw) as Hwr.
  unfold sweep. fold h. rewrite (index_lookup _ _ _ (proj1 Hh) Hw). simpl.
  destruct (decide (Z.land w (handMask c) = 0)) as [Hz|Hnz]; [|done].
  set (bs0 := store (bits c) h (Z.lor w (handMask c))).
  assert (Z.of_nat (length bs0) = n) as Hlen0 by (unfold bs0; by rewrite length_store).
  assert (Z.lor w (handMask c) ≠ 0) as Hlor.
  { intros [_ ?]%Z.lor_eq_0_iff. done. }
  assert (bs0 !! Z.to_nat h = Some (Z.lor w (handMask c))) as Hbs0h.
  { by apply lookup_store_eq. }
  assert (Forall U64.in_range bs0) as Hbs0r.
  { apply Forall_insert; [apply Hwf|]. by apply U64Facts.lor_in_range. }
  destruct (sweep_loop_reaches (length (bits c) - 1) fuel bs0
              ((h + 1) `mod` n) (Z.lor w (handMask c)))
    as (t & bs' & w' & Ht & Hrun & Hw' & Hat & Hat' & Hlen & Hzs & Ho);
    rewrite ?Hlen0; try done.
  { by apply ring_bound. }
  { lia. }
  { rewrite ring_succ by done.
    replace (Z.of_nat (length (bits c) - 1) + 1) with n by lia.
    by rewrite ring_full. }
  rewrite Hlen0 in *. rewrite ring_succ in Hrun, Hat, Hat' by done.
  rewrite advance_ring by lia. rewrite Hlen0, Hrun. simpl.
  replace (Z.of_nat t + 1) with (Z.of_nat (S t)) in * by lia.
  assert (∀ s, 1 ≤ s < n → (h + s) `mod` n ≠ h) as Hnh.
  { intros s Hs. apply ring_ne; lia. }
  exists (S t), bs', w'. split; [lia|]. split; [done|]. split; [done|].
  split; [by eapply Forall_lookup_1 in Hbs0r|].
  split; [unfold bs0 in Hlen; by rewrite length_store in Hlen|].
  split; [by eapply sweep_loop_in_range|].
  split.
  { rewrite Ho; [done|lia|]. intros s Hs. rewrite ring_succ by done.
    intros Heq. apply (Hnh (s + 1)); [lia|done]. }
  split; [done|]. split.
  { intros Hlt. unfold bs0 in Hat.
    rewrite lookup_store_ne in Hat; [done|lia|apply ring_bound; lia|].
    intros Heq. apply (Hnh (Z.of_nat (S t))); [lia|done]. }
  split.
  - intros s Hs. destruct (Hzs (s - 1)) as [Hz1 Hz2]; [lia|].
    rewrite ring_succ in Hz1, Hz2 by done.
    replace (s - 1 + 1) with s in Hz1, Hz2 by lia. split; [|done].
    unfold bs0 in Hz1.
    rewrite lookup_store_ne in Hz1; [done|lia|apply ring_bound; lia|].
    intros Heq. apply (Hnh s); [lia|done].
  - intros j Hj Hjh Hvis. rewrite Ho; [|done|].
    + unfold bs0. apply lookup_store_ne; lia.
    + intros s Hs. rewrite ring_succ by done. apply Hvis. lia.
Qed.

(** The sweep of a well-formed cache ends, whatever the bit map holds,
    on a word with a set bit. *)
Lemma sweep_ok c fuel :
  wf c → (length (bits c) - 1 ≤ fuel)%nat →
  ∃ bs h m mb wh,
    sweep fuel c = Ok (bs, h, m, mb) ∧
    0 ≤ h < Z.of_nat (length (bits c)) ∧
    length bs = length (bits c) ∧ Forall U64.in_range bs ∧
    bs !! Z.to_nat h = Some wh ∧
    mb ≠ 0 ∧ U64.in_range mb.
Proof.
  intros Hwf Hfuel. pose proof (wf_hand c Hwf) as Hh.
  destruct (index_in_range (bits c) (handIdx c) Hh) as (w & Hw & _).
  pose proof (sweep_spec c fuel w Hwf Hfuel Hw) as Hspec. simpl in Hspec.
  destruct (decide (Z.land w (handMask c) = 0)) as [Hz|Hnz].
  - destruct Hspec as (t & bs' & w' & Ht & Hrun & Hw' & Hr & Hlen & Hbr & _ & Hat & _).
    exists bs', ((handIdx c + Z.of_nat t) `mod` Z.of_nat (length (bits c))),
      U64.ones, w', w'.
    split; [done|]. split; [by apply ring_bound|]. done.
  - exists (bits c), (handIdx c), (handMask c), (Z.land w (handMask c)), w.
    split; [done|]. split; [done|]. split; [done|]. split; [apply Hwf|].
    split; [done|]. split; [done|].
    apply U64Facts.land_in_range. by eapply wf_word.
Qed.
End sweep_facts.

(** ** Ejecting an item *)

Section eject_facts.
Context `{Countable K} `{ZeroValue K} `{ZeroValue V} {alloc : Allocator K V}.
Implicit Types (c : Cache (K := K) (V := V)) (k : K) (v : V) (i j : Z).

Lemma eject_mono fuel fuel' c k v r :
  (fuel ≤ fuel')%nat → eject fuel c k v = Ok r → eject fuel' c k v = Ok r.
Proof.
  intros Hle. unfold eject.
  destruct (sweep fuel c) as [[[[bs h] m] mb]| |] eqn:Hs; simpl; try done.
  by rewrite (sweep_mono _ _ _ _ Hle Hs).
Qed.

Lemma Add_fuel_mono fuel fuel' c k v r :
  (fuel ≤ fuel')%nat → Add_fuel fuel c k v = Ok r → Add_fuel fuel' c k v = Ok r.
Proof.
  intros Hle. unfold Add_fuel. destruct (idx c !! k); [done|].
  case_decide; [done|]. by apply eject_mono.
Qed.

(** On a full well-formed cache the ejection returns: it replaces the item
    at [h * 64 + b], for the word [h] and the words [bs] the sweep ended
    with and the lowest set bit [b] of [mbits]. *)
Lemma eject_spec c fuel k v bs h m mb wh :
  wf c → full c →
  sweep fuel c = Ok (bs, h, m, mb) →
  0 ≤ h < Z.of_nat (length (bits c)) →
  bs !! Z.to_nat h = Some wh →
  mb ≠ 0 → U64.in_range mb →
  let b := U64.TrailingZeros64 mb in
  let i := h * 64 + b in
  0 ≤ b < 64 ∧ 0 ≤ i < Cap c ∧
  ∃ old,
    items c !! Z.to_nat i = Some old ∧
    idx c !! key old = Some i ∧ bit old = slot_mask i ∧
    eject fuel c k v =
      Ok (MkCache (<[k := i]> (delete (key old) (idx c)))
            (store (items c) i (Item k v (bit old)))
            (store bs h (Z.land wh (bit old)))
            (hand_after (store bs h (Z.land wh (bit old))) h b).2
            (hand_after (store bs h (Z.land wh (bit old))) h b).1
            (len c),
          (value old, true)).
Proof.
  intros Hwf Hfull Hsweep Hh Hwh Hmb Hmbr b i.
  destruct (U64Facts.TrailingZeros64_spec mb Hmbr Hmb) as (Hb & _). fold b in Hb.
  assert (0 ≤ i < Cap c) as Hi.
  { rewrite (wf_cap c Hwf). unfold i. lia. }
  split; [done|]. split; [done|].
  destruct (wf_slot c i Hwf) as (old & Hold & Hkey & Hbit).
  { rewrite Hfull. done. }
  exists old. split; [done|]. split; [done|]. split; [done|].
  unfold eject. rewrite Hsweep. simpl. fold b.
  rewrite U64Facts.lor_word_bit by lia. fold i.
  rewrite (index_lookup _ _ _ (proj1 Hi) Hold). simpl.
  rewrite (index_lookup _ _ _ (proj1 Hh) Hwh). simpl.
  by destruct (hand_after _ h b).
Qed.

(** [Add] of a new key to a full well-formed cache. *)
Lemma Add_fuel_full c fuel k v :
  wf c → full c → idx c !! k = None →
  Add_fuel fuel c k v = eject fuel c k v.
Proof.
  intros Hwf Hfull Hk. unfold Add_fuel. rewrite Hk.
  rewrite decide_False; [done|]. unfold full, Cap in Hfull. lia.
Qed.
End eject_facts.

(** ** The three paths of [Add], and [Get] *)

Section add_facts.
Context `{Countable K} `{ZeroValue K} `{ZeroValue V} {alloc : Allocator K V}.
Implicit Types (c : Cache (K := K) (V := V)) (k : K) (v : V) (i j : Z).

(** A cleared bit reads as not ejectable. *)
Lemma ejectable_cleared c i w :
  0 ≤ i → bits c !! Z.to_nat (i ÷ 64) = Some (Z.land w (slot_mask i)) →
  ejectable c i = Ok false.
Proof.
  intros Hi Hw. pose proof (bit_of_slot i Hi) as Hs.
  unfold ejectable, shift_count. rewrite decide_False by lia. simpl.
  rewrite (index_lookup _ _ _ (proj1 (word_of_slot i (i + 1) ltac:(lia))) Hw).
  simpl. f_equal. apply bool_decide_eq_false. unfold slot_mask.
  rewrite U64Facts.land_clear_bit by done.
  intros Heq. by apply (U64Facts.shl_1_ne_0 (Z.rem i 64)).
Qed.

(** A set bit reads as ejectable. *)
Lemma ejectable_set c i w :
  0 ≤ i →
  bits c !! Z.to_nat (i ÷ 64) = Some (Z.lor w (U64.not (slot_mask i))) →
  ejectable c i = Ok true.
Proof.
  intros Hi Hw. pose proof (bit_of_slot i Hi) as Hs.
  unfold ejectable, shift_count. rewrite decide_False by lia. simpl.
  rewrite (index_lookup _ _ _ (proj1 (word_of_slot i (i + 1) ltac:(lia))) Hw).
  simpl. f_equal. apply bool_decide_eq_true. unfold slot_mask.
  rewrite U64Facts.not_not by apply U64Facts.shl_in_range.
  apply U64Facts.land_lor_same.
Qed.

Lemma Add_fuel_present c fuel k v i :
  wf c → idx c !! k = Some i →
  ∃ it w,
    0 ≤ i < len c ∧
    items c !! Z.to_nat i = Some it ∧ key it = k ∧ bit it = slot_mask i ∧
    bits c !! Z.to_nat (i ÷ 64) = Some w ∧ U64.in_range w ∧
    Add_fuel fuel c k v =
      Ok (MkCache (idx c) (store (items c) i (Item k v (slot_mask i)))
            (store (bits c) (i ÷ 64) (Z.land w (slot_mask i)))
            (handIdx c) (handMask c) (len c),
          (value it, true)).
Proof.
  intros Hwf Hk. destruct (wf_idx c k i Hwf Hk) as (Hi & it & Hit & Hkey & Hbit).
  pose proof (wf_len c Hwf) as Hlen.
  destruct (wf_word_of_slot c i Hwf) as (w & Hw & Hiw & Hwr); [lia|].
  exists it, w. repeat (split; [done|]).
  unfold Add_fuel. rewrite Hk.
  rewrite (index_lookup _ _ _ (proj1 Hi) Hit). simpl.
  rewrite Hiw. simpl. by rewrite Hkey, Hbit.
Qed.

Lemma Add_fuel_append c fuel k v :
  wf c → idx c !! k = None → len c < Cap c →
  ∃ w,
    bits c !! Z.to_nat (len c ÷ 64) = Some w ∧ U64.in_range w ∧
    Add_fuel fuel c k v =
      Ok (MkCache (<[k := len c]> (idx c))
            (store (items c) (len c) (Item k v (slot_mask (len c))))
            (store (bits c) (len c ÷ 64) (Z.land w (slot_mask (len c))))
            (handIdx c) (handMask c) (len c + 1),
          (zero_value, false)).
Proof.
  intros Hwf Hk Hlt. pose proof (wf_len c Hwf) as Hlen.
  destruct (wf_word_of_slot c (len c) Hwf) as (w & Hw & Hiw & Hwr); [lia|].
  destruct (wf_item c (len c) Hwf) as (it & _ & Hit); [lia|].
  exists w. split; [done|]. split; [done|].
  unfold Add_fuel. rewrite Hk. rewrite decide_True by done.
  rewrite Hit. simpl. by rewrite Hiw.
Qed.

Lemma Add_fuel_eject c fuel k v :
  wf c → idx c !! k = None → full c → (length (bits c) - 1 ≤ fuel)%nat →
  ∃ bs h m mb wh old,
    let b := U64.TrailingZeros64 mb in
    let i := h * 64 + b in
    sweep fuel c = Ok (bs, h, m, mb) ∧
    0 ≤ h < Z.of_nat (length (bits c)) ∧
    length bs = length (bits c) ∧ Forall U64.in_range bs ∧
    bs !! Z.to_nat h = Some wh ∧
    0 ≤ b < 64 ∧ 0 ≤ i < Cap c ∧
    items c !! Z.to_nat i = Some old ∧
    idx c !! key old = Some i ∧ bit old = slot_mask i ∧
    Add_fuel fuel c k v =
      Ok (MkCache (<[k := i]> (delete (key old) (idx c)))
            (store (items c) i (Item k v (slot_mask i)))
            (store bs h (Z.land wh (slot_mask i)))
            (hand_after (store bs h (Z.land wh (slot_mask i))) h b).2
            (hand_after (store bs h (Z.land wh (slot_mask i))) h b).1
            (len c),
          (value old, true)).
Proof.
  intros Hwf Hk Hfull Hfuel.
  destruct (sweep_ok c fuel Hwf Hfuel)
    as (bs & h & m & mb & wh & Hsweep & Hh & Hlen & Hbr & Hwh & Hmb & Hmbr).
  destruct (eject_spec c fuel k v bs h m mb wh Hwf Hfull Hsweep Hh Hwh Hmb Hmbr)
    as (Hb & Hi & old & Hold & Hkey & Hbit & Hej).
  exists bs, h, m, mb, wh, old. simpl.
  repeat (split; [done|]).
  rewrite Add_fuel_full by done. by rewrite Hej, Hbit.
Qed.

Lemma Get_present c k i :
  wf c → idx c !! k = Some i →
  ∃ it w,
    items c !! Z.to_nat i = Some it ∧
    bits c !! Z.to_nat (i ÷ 64) = Some w ∧
    Get c k =
      Ok (MkCache (idx c) (items c)
            (store (bits c) (i ÷ 64) (Z.land w (slot_mask i)))
            (handIdx c) (handMask c) (len c),
          (value it, true)).
Proof.
  intros Hwf Hk. destruct (wf_idx c k i Hwf Hk) as (Hi & it & Hit & Hkey & Hbit).
  pose proof (wf_len c Hwf) as Hlen.
  destruct (wf_word_of_slot c i Hwf) as (w & Hw & Hiw & Hwr); [lia|].
  exists it, w. split; [done|]. split; [done|].
  unfold Get. rewrite Hk.
  rewrite (index_lookup _ _ _ (proj1 Hi) Hit). simpl.
  rewrite Hiw. simpl. by rewrite Hbit.
Qed.
End add_facts.

(** ** [Delete] *)

Section delete_facts.
Context `{Countable K} `{ZeroValue K} `{ZeroValue V} {alloc : Allocator K V}.
Implicit Types (c : Cache (K := K) (V := V)) (k : K) (v : V) (i j : Z).

Lemma not_0 : U64.not 0 = U64.ones.
Proof. reflexivity. Qed.

(** What [Delete] of a present key returns on a well-formed cache.  When
    the key is not at the last used position [n], the last item moves to
    the key's position [i], and the bit of [i] is cleared if the whole word
    of position [n] is zero and set otherwise: the mask of the last item is
    read after that item was cleared. *)
Lemma Delete_spec c k i :
  wf c → idx c !! k = Some i →
  let n := len c - 1 in
  ∃ it,
    0 ≤ i ≤ n ∧ items c !! Z.to_nat i = Some it ∧ key it = k ∧
    if decide (n ≠ i) then
      ∃ last w wi,
        items c !! Z.to_nat n = Some last ∧ idx c !! key last = Some n ∧
        bits c !! Z.to_nat (n ÷ 64) = Some w ∧
        bits c !! Z.to_nat (i ÷ 64) = Some wi ∧ U64.in_range wi ∧
        Delete c k =
          Ok (MkCache (<[key last := i]> (delete k (idx c)))
                (store (store (items c) i
                          (Item (key last) (value last) (slot_mask i)))
                   n zero_item)
                (store (bits c) (i ÷ 64)
                   (if decide (w = 0) then Z.land wi (slot_mask i)
                    else Z.lor wi (U64.not (slot_mask i))))
                (handIdx c) (handMask c) n,
              (value it, true))
    else
      Delete c k =
        Ok (MkCache (delete k (idx c)) (store (items c) n zero_item) (bits c)
              (handIdx c) (handMask c) n,
            (value it, true)).
Proof.
  intros Hwf Hk n. destruct (wf_idx c k i Hwf Hk) as (Hi & it & Hit & Hkey & Hbit).
  pose proof (wf_len c Hwf) as Hlen. unfold Cap in Hlen.
  assert (n = len c - 1) as Hn by done. clearbody n.
  exists it. split; [lia|]. split; [done|]. split; [done|].
  unfold Delete. rewrite Hk. rewrite (index_lookup _ _ _ (proj1 Hi) Hit). simpl.
  rewrite <-Hn. destruct (decide (n ≠ i)) as [Hne|Heq].
  - destruct (wf_slot c n Hwf) as (last & Hlast & Hklast & _); [lia|].
    destruct (wf_word_of_slot c n Hwf) as (w & Hw & Hiw & Hwr);
      [unfold Cap; lia|].
    destruct (wf_word_of_slot c i Hwf) as (wi & Hwi & Hiwi & Hwir);
      [unfold Cap; lia|].
    exists last, w, wi. repeat (split; [done|]).
    rewrite (index_lookup _ n _ ltac:(lia) Hlast). simpl.
    rewrite (index_lookup _ n zero_item); [|lia|];
      [|apply lookup_store_eq; rewrite length_store; lia].
    simpl. rewrite Hiw. simpl.
    rewrite (index_lookup _ i (Item (key last) (value last) (bit it)));
      [|lia|]; [|rewrite lookup_store_ne by lia; apply lookup_store_eq; lia].
    simpl. rewrite Hiwi. simpl. rewrite not_0, U64Facts.land_ones by done.
    rewrite Hbit.
    destruct (decide (w = 0)); simpl;
      (rewrite (index_lookup _ n zero_item); [|lia|];
         [|apply lookup_store_eq; rewrite length_store; lia]); simpl;
      unfold store; by rewrite list_insert_insert_eq.
  - assert (n = i) as Hni by lia. simpl.
    destruct (index_in_range (items c) n) as (x & _ & ->); [lia|]. done.
Qed.
(** The bit that [Delete] leaves at the position of the deleted key, when
    the last item moves there: it is set exactly when the word of the last
    used position is not zero, whatever the bit of the moved item was. *)
Lemma Delete_bit_follows_word c k i w :
  wf c → idx c !! k = Some i → len c - 1 ≠ i →
  bits c !! Z.to_nat ((len c - 1) ÷ 64) = Some w →
  ∃ c' r, Delete c k = Ok (c', r) ∧
          ejectable c' i = Ok (bool_decide (w ≠ 0)).
Proof.
  intros Hwf Hk Hne Hw.
  destruct (Delete_spec c k i Hwf Hk) as (it & Hi & _ & _ & Hdel).
  simpl in Hdel. rewrite decide_True in Hdel by done.
  destruct Hdel as (last & w' & wi & _ & _ & Hw' & Hwi & _ & ->).
  assert (w' = w) as -> by congruence.
  pose proof (wf_len c Hwf) as Hlen. pose proof (wf_cap c Hwf) as Hcap.
  assert (0 ≤ i ÷ 64 < Z.of_nat (length (bits c))) as Hword.
  { apply word_of_slot. unfold Cap in *. lia. }
  eexists _, _. split; [done|].
  destruct (decide (w = 0)) as [->|Hnz].
  - rewrite bool_decide_eq_false_2 by (intros ?; done).
    apply (ejectable_cleared _ i wi); [lia|]. simpl.
    by apply lookup_store_eq.
  - rewrite bool_decide_eq_true_2 by done.
    apply (ejectable_set _ i wi); [lia|]. simpl.
    by apply lookup_store_eq.
Qed.
End delete_facts.

(** ** The methods keep a cache well formed *)

Section preservation.
Context `{Countable K} `{ZeroValue K} `{ZeroValue V} {alloc : Allocator K V}.
Implicit Types (c : Cache (K := K) (V := V)) (k : K) (v : V) (i j : Z).

Lemma wf_intro c :
  Z.of_nat (size (idx c)) = len c →
  0 ≤ len c ≤ Cap c →
  (∀ k i, idx c !! k = Some i →
     0 ≤ i < len c ∧ ∃ it, items c !! Z.to_nat i = Some it ∧ key it = k) →
  (∀ i, 0 ≤ i < len c →
     ∃ it, items c !! Z.to_nat i = Some it ∧ idx c !! key it = Some i ∧
           bit it = slot_mask i) →
  Forall U64.in_range (bits c) →
  Z.of_nat (length (items c)) = 64 * Z.of_nat (length (bits c)) →
  0 ≤ handIdx c < Z.of_nat (length (bits c)) →
  mask_shape (handMask c) →
  wf c.
Proof.
  intros Hsize Hlen Hidx Hslot Hbits Hcap Hhand Hmask.
  unfold wf, structural_invariant.
  split; [split; [done|split; [|done]]|split; [|done]].
  - intros k i Hk. destruct (Hidx k i Hk) as (Hi & it & -> & <-). done.
  - apply Forall_seqZ. intros i Hi. unfold slot_ok.
    destruct (Hslot i) as (it & -> & ?); [lia|done].
Qed.

Lemma mask_shape_ones : mask_shape U64.ones.
Proof. split; [done|]. vm_compute. reflexivity. Qed.

Lemma mask_shape_shl s : 0 ≤ s < 64 → mask_shape (U64.shl U64.ones s).
Proof.
  intros Hs. split; [by apply U64Facts.shl_ones_ne_0|].
  by rewrite U64Facts.tz_shl_ones.
Qed.

Lemma advance_in_range bs h :
  0 ≤ h < Z.of_nat (length bs) → 0 ≤ advance bs h < Z.of_nat (length bs).
Proof. intros Hh. unfold advance. case_decide; lia. Qed.

Lemma hand_after_ok bs h b :
  0 ≤ h < Z.of_nat (length bs) → 0 ≤ b < 64 →
  0 ≤ (hand_after bs h b).2 < Z.of_nat (length bs) ∧
  mask_shape (hand_after bs h b).1.
Proof.
  intros Hh Hb. unfold hand_after.
  destruct (decide (U64.shl U64.ones (b + 1) = 0)) as [Hz|Hnz]; simpl.
  - split; [by apply advance_in_range|apply mask_shape_ones].
  - split; [done|]. apply mask_shape_shl. split; [lia|].
    destruct (decide (b + 1 = 64)) as [Heq|]; [|lia].
    rewrite Heq in Hnz. done.
Qed.

(** Only the bit map changes. *)
Lemma wf_set_bits c bs :
  wf c → length bs = length (bits c) → Forall U64.in_range bs →
  wf (MkCache (idx c) (items c) bs (handIdx c) (handMask c) (len c)).
Proof.
  intros (Hinv & Hslots & _ & Hcap & Hhand & Hmask) Hlen Hbs.
  unfold wf. simpl. rewrite Hlen. done.
Qed.

Lemma wf_store_word c j w :
  wf c → U64.in_range w →
  wf (MkCache (idx c) (items c) (store (bits c) j w)
        (handIdx c) (handMask c) (len c)).
Proof.
  intros Hwf Hw. apply wf_set_bits; [done|apply length_store|].
  apply Forall_insert; [apply Hwf|done].
Qed.
Lemma Get_wf c k c' r : wf c → Get c k = Ok (c', r) → wf c'.
Proof.
  intros Hwf. destruct (idx c !! k) as [i|] eqn:Hk.
  - destruct (Get_present c k i Hwf Hk) as (it & w & _ & Hw & ->).
    intros [= <- _]. apply wf_store_word; [done|].
    apply U64Facts.land_in_range. by eapply wf_word.
  - unfold Get. rewrite Hk. by intros [= <- _].
Qed.

Lemma Has_wf c k c' r : wf c → Has c k = Ok (c', r) → wf c'.
Proof. intros Hwf. unfold Has. by destruct (idx c !! k); intros [= <- _]. Qed.

Lemma Reset_wf c c' : wf c → Reset c = Ok c' → wf c'.
Proof.
  intros Hwf [= <-]. pose proof (wf_hand c Hwf). apply wf_intro; simpl.
  - done.
  - unfold Cap. simpl. lia.
  - intros k i Hk. by rewrite lookup_empty in Hk.
  - intros i Hi. lia.
  - apply Hwf.
  - rewrite length_fmap. apply Hwf.
  - lia.
  - apply mask_shape_ones.
Qed.

Lemma Add_present_wf c k v i bs :
  wf c → idx c !! k = Some i →
  length bs = length (bits c) → Forall U64.in_range bs →
  wf (MkCache (idx c) (store (items c) i (Item k v (slot_mask i))) bs
        (handIdx c) (handMask c) (len c)).
Proof.
  intros Hwf Hk Hlbs Hbs.
  destruct (wf_idx c k i Hwf Hk) as (Hi & it & Hit & Hkey & Hbit).
  pose proof (wf_len c Hwf) as Hlen. unfold Cap in Hlen.
  apply wf_intro; simpl; rewrite ?length_store, ?Hlbs.
  - by apply wf_size.
  - unfold Cap. simpl. by rewrite length_store.
  - intros k' i' Hk'.
    destruct (wf_idx c k' i' Hwf Hk') as (Hi' & it' & Hit' & Hkey' & _).
    split; [done|]. destruct (decide (i' = i)) as [->|Hne].
    + rewrite lookup_store_eq by lia. eexists. split; [done|]. simpl.
      congruence.
    + rewrite lookup_store_ne by lia. by exists it'.
  - intros i' Hi'. destruct (decide (i' = i)) as [->|Hne].
    + rewrite lookup_store_eq by lia. by eexists.
    + rewrite lookup_store_ne by lia. by apply wf_slot.
  - done.
  - apply Hwf.
  - apply Hwf.
  - apply Hwf.
Qed.

Lemma Add_append_wf c k v bs :
  wf c → idx c !! k = None → len c < Cap c →
  length bs = length (bits c) → Forall U64.in_range bs →
  wf (MkCache (<[k := len c]> (idx c))
        (store (items c) (len c) (Item k v (slot_mask (len c)))) bs
        (handIdx c) (handMask c) (len c + 1)).
Proof.
  intros Hwf Hk Hlt Hlbs Hbs.
  pose proof (wf_len c Hwf) as Hlen. unfold Cap in Hlen, Hlt.
  apply wf_intro; simpl; rewrite ?length_store, ?Hlbs;
    [| | | |done|apply Hwf..].
  - rewrite map_size_insert_None by done. rewrite <-(wf_size c Hwf). lia.
  - unfold Cap. simpl. rewrite length_store. lia.
  - intros k' i' Hk'. destruct (decide (k' = k)) as [->|Hne].
    + rewrite lookup_insert_eq in Hk'. injection Hk' as <-. split; [lia|].
      rewrite lookup_store_eq by lia. by eexists.
    + rewrite lookup_insert_ne in Hk' by done.
      destruct (wf_idx c k' i' Hwf Hk') as (Hi' & it' & Hit' & Hkey' & _).
      split; [lia|]. rewrite lookup_store_ne by lia. by exists it'.
  - intros i' Hi'. destruct (decide (i' = len c)) as [->|Hne].
    + rewrite lookup_store_eq by lia. eexists. split; [done|]. simpl.
      by rewrite lookup_insert_eq.
    + rewrite lookup_store_ne by lia.
      destruct (wf_slot c i' Hwf) as (it' & Hit' & Hkey' & Hbit'); [lia|].
      exists it'. split; [done|]. split; [|done].
      rewrite lookup_insert_ne; [done|]. intros Heq. rewrite Heq in Hk.
      congruence.
Qed.

Lemma Add_eject_wf c k v i old bs h m :
  wf c → idx c !! k = None → full c →
  0 ≤ i < Cap c → items c !! Z.to_nat i = Some old →
  idx c !! key old = Some i →
  length bs = length (bits c) → Forall U64.in_range bs →
  0 ≤ h < Z.of_nat (length (bits c)) → mask_shape m →
  wf (MkCache (<[k := i]> (delete (key old) (idx c)))
        (store (items c) i (Item k v (slot_mask i))) bs h m (len c)).
Proof.
  intros Hwf Hk Hfull Hi Hold Hkold Hlbs Hbs Hh Hm.
  pose proof (wf_len c Hwf) as Hlen. unfold full in Hfull. unfold Cap in *.
  apply wf_intro; simpl; rewrite ?length_store, ?Hlbs;
    [| | | |done|apply Hwf|done|done].
  - rewrite map_size_insert_None by by rewrite lookup_delete_ne by congruence.
    rewrite map_size_delete_Some by by eexists.
    pose proof (wf_size c Hwf). lia.
  - unfold Cap. simpl. by rewrite length_store.
  - intros k' i' Hk'. destruct (decide (k' = k)) as [->|Hne].
    + rewrite lookup_insert_eq in Hk'. injection Hk' as <-. split; [lia|].
      rewrite lookup_store_eq by lia. by eexists.
    + rewrite lookup_insert_ne in Hk' by done.
      apply lookup_delete_Some in Hk' as [Hko Hk'].
      destruct (wf_idx c k' i' Hwf Hk') as (Hi' & it' & Hit' & Hkey' & _).
      split; [done|].
      assert (i' ≠ i) by (intros ->; congruence).
      rewrite lookup_store_ne by lia. by exists it'.
  - intros i' Hi'. destruct (decide (i' = i)) as [->|Hne].
    + rewrite lookup_store_eq by lia. eexists. split; [done|]. simpl.
      by rewrite lookup_insert_eq.
    + rewrite lookup_store_ne by lia.
      destruct (wf_slot c i' Hwf) as (it' & Hit' & Hkey' & Hbit'); [lia|].
      exists it'. split; [done|]. split; [|done].
      rewrite lookup_insert_ne by (intros Heq; rewrite Heq in Hk; congruence).
      rewrite lookup_delete_ne; [done|]. intros Heq. rewrite Heq in Hkold.
      congruence.
Qed.

Lemma Add_wf c k v c' r : wf c → Add c k v = Ok (c', r) → wf c'.
Proof.
  intros Hwf. pose proof (wf_len c Hwf) as Hlen. unfold Add.
  destruct (idx c !! k) as [i|] eqn:Hk.
  - destruct (Add_fuel_present c (length (bits c)) k v i Hwf Hk)
      as (it & w & _ & _ & _ & _ & Hw & Hwr & ->).
    intros [= <- _]. apply Add_present_wf; [done|done|apply length_store|].
    apply Forall_insert; [apply Hwf|by apply U64Facts.land_in_range].
  - destruct (decide (len c < Cap c)) as [Hlt|Hge].
    + destruct (Add_fuel_append c (length (bits c)) k v Hwf Hk Hlt)
        as (w & Hw & Hwr & ->).
      intros [= <- _]. apply Add_append_wf; [done|done|done|apply length_store|].
      apply Forall_insert; [apply Hwf|by apply U64Facts.land_in_range].
    + assert (full c) as Hfull by (unfold full; lia).
      destruct (Add_fuel_eject c (length (bits c)) k v Hwf Hk Hfull)
        as (bs & h & m & mb & wh & old & Hej); [lia|]. simpl in Hej.
      destruct Hej
        as (_ & Hh & Hlbs & Hbs & Hwh & Hb & Hi & Hold & Hkold & _ & ->).
      intros [= <- _].
      set (bs2 := store bs h _).
      assert (length bs2 = length (bits c)) as Hl2
        by (unfold bs2; by rewrite length_store).
      destruct (hand_after_ok bs2 h (U64.TrailingZeros64 mb)) as [Hh2 Hm2];
        [lia|done|]. rewrite Hl2 in Hh2.
      apply Add_eject_wf; try done.
      apply Forall_insert; [done|]. apply U64Facts.land_in_range.
      by eapply Forall_lookup_1 in Hbs.
Qed.
Lemma Delete_wf c k c' r : wf c → Delete c k = Ok (c', r) → wf c'.
Proof.
  intros Hwf. destruct (idx c !! k) as [i|] eqn:Hk;
    [|unfold Delete; rewrite Hk; by intros [= <- _]].
  destruct (Delete_spec c k i Hwf Hk) as (it & Hi & Hit & Hkey & Hdel).
  pose proof (wf_len c Hwf) as Hlen. pose proof (wf_size c Hwf) as Hsize.
  unfold Cap in Hlen.
  destruct (wf_idx c k i Hwf Hk) as (Hi' & _).
  remember (len c - 1) as n eqn:Hn. simpl in Hdel.
  destruct (decide (n ≠ i)) as [Hne|Heq].
  - destruct Hdel as (last & w & wi & Hlast & Hklast & Hw & Hwi & Hwir & ->).
    intros [= <- _].
    assert (key last ≠ k) as Hkne.
    { intros Heq. rewrite Heq in Hklast. congruence. }
    apply wf_intro; simpl; rewrite ?length_store;
      [| | | | |apply Hwf..].
    + rewrite map_size_insert_Some
        by (rewrite lookup_delete_ne by done; by eexists).
      rewrite map_size_delete_Some by by eexists. lia.
    + unfold Cap. simpl. rewrite !length_store. lia.
    + intros k' i' Hk'. destruct (decide (k' = key last)) as [->|Hkl].
      * rewrite lookup_insert_eq in Hk'. injection Hk' as <-. split; [lia|].
        rewrite lookup_store_ne, lookup_store_eq by lia. by eexists.
      * rewrite lookup_insert_ne in Hk' by done.
        apply lookup_delete_Some in Hk' as [Hkk Hk'].
        destruct (wf_idx c k' i' Hwf Hk') as (Hr & it' & Hit' & Hkey' & _).
        assert (i' ≠ n) by (intros ->; congruence).
        assert (i' ≠ i) by (intros ->; congruence).
        split; [lia|]. rewrite !lookup_store_ne by lia. by exists it'.
    + intros i' Hr. destruct (decide (i' = i)) as [->|Hii].
      * rewrite lookup_store_ne, lookup_store_eq by lia.
        eexists. split; [done|]. simpl. by rewrite lookup_insert_eq.
      * rewrite !lookup_store_ne by lia.
        destruct (wf_slot c i' Hwf) as (it' & Hit' & Hkey' & Hbit'); [lia|].
        exists it'. split; [done|]. split; [|done].
        rewrite lookup_insert_ne
          by (intros Heq; rewrite Heq in Hklast; assert (n = i') by congruence; lia).
        rewrite lookup_delete_ne; [done|].
        intros Heq. rewrite Heq in Hk. congruence.
    + apply Forall_insert; [apply Hwf|]. case_decide.
      * by apply U64Facts.land_in_range.
      * apply U64Facts.lor_in_range; [done|apply U64Facts.not_in_range].
  - rewrite Hdel. intros [= <- _].
    assert (n = i) as Hni by lia.
    apply wf_intro; simpl; rewrite ?length_store;
      [| | | |apply Hwf..].
    + rewrite map_size_delete_Some by by eexists. lia.
    + unfold Cap. simpl. rewrite length_store. lia.
    + intros k' i' Hk'. apply lookup_delete_Some in Hk' as [Hkk Hk'].
      destruct (wf_idx c k' i' Hwf Hk') as (Hr & it' & Hit' & Hkey' & _).
      assert (i' ≠ i) by (intros ->; congruence).
      split; [lia|]. rewrite lookup_store_ne by lia. by exists it'.
    + intros i' Hr. rewrite lookup_store_ne by lia.
      destruct (wf_slot c i' Hwf) as (it' & Hit' & Hkey' & Hbit'); [lia|].
      exists it'. split; [done|]. split; [|done].
      rewrite lookup_delete_ne; [done|].
      intros Hkk. rewrite <-Hkk in Hkey'. assert (i = i') by congruence. lia.
Qed.

(** [Init] empties the index and keeps [len]; [Reset] keeps the bit map. *)
Lemma Init_len c n c' : Init c n = Ok c' → idx c' = ∅ ∧ len c' = len c.
Proof.
  unfold Init.
  destruct (make _ zero_item _) as [its| |]; simpl; try done.
  destruct (make _ 0 _) as [bs| |]; simpl; try done.
  destruct (index bs 0) as [w| |]; simpl; try done.
  by intros [= <-].
Qed.

Lemma Reset_bits c c' :
  Reset c = Ok c' →
  bits c' = bits c ∧ idx c' = ∅ ∧ len c' = 0 ∧ handIdx c' = 0 ∧
  handMask c' = U64.ones ∧
  Forall (λ it, it = zero_item) (items c') ∧
  length (items c') = length (items c).
Proof.
  intros [= <-]. simpl. repeat split.
  - apply Forall_fmap, Forall_true. done.
  - apply length_fmap.
Qed.

(** [Init] gives a well-formed cache when [len] is 0, as it is in the zero
    value of [Cache]. *)
Lemma Init_wf c n c' : len c = 0 → Init c n = Ok c' → wf c'.
Proof.
  intros Hlen0. unfold Init. rewrite land_lnot_63.
  generalize (Int.wrap (n + 63) `div` 64). intros q. unfold make.
  destruct (decide (64 * q < 0)) as [|Hq]; [done|].
  destruct (decide (max_items < 64 * q)); [done|]. simpl.
  assert (64 * q ÷ 64 = q) as ->.
  { rewrite quot64 by lia. rewrite Z.mul_comm, Z.div_mul; lia. }
  destruct (decide (q < 0)); [done|].
  destruct (decide (max_words < q)); [done|]. simpl.
  destruct (decide (q = 0)) as [->|Hq0]; [done|].
  destruct (index_in_range (replicate (Z.to_nat q) 0) 0) as (w & _ & ->);
    [rewrite length_replicate; lia|]. simpl.
  intros [= <-].
  apply wf_intro; simpl; rewrite ?length_store, ?length_replicate.
  - by rewrite Hlen0.
  - unfold Cap. simpl. rewrite length_replicate. lia.
  - intros k i Hk. by rewrite lookup_empty in Hk.
  - intros i Hi. lia.
  - apply Forall_insert; [|apply U64Facts.ones_in_range].
    apply Forall_replicate. unfold U64.in_range, U64.modulus. lia.
  - lia.
  - lia.
  - apply mask_shape_ones.
Qed.

Lemma New_wf n c : New n = Ok c → wf c.
Proof. by apply Init_wf. Qed.

Lemma mapM_result_ok {A B} (f : A → result B) (l : list A) :
  (∀ x, x ∈ l → ∃ y, f x = Ok y) → ∃ ys, mapM f l = Ok ys.
Proof.
  induction l as [|x l IH]; intros Hf; simpl; [by eexists|].
  destruct (Hf x) as [y ->]; [by left|]. simpl.
  destruct IH as [ys ->]; [|by eexists].
  intros x' Hx'. apply Hf. by right.
Qed.

Lemma Items_ok c : wf c → ∃ ps, Items c = Ok (c, ps).
Proof.
  intros Hwf. unfold Items.
  edestruct (mapM_result_ok
               (λ '(k, i), it ← index (items c) i; Ok (k, value it))
               (map_to_list (idx c))) as [ps ->]; [|by eexists].
  intros [k i] Hki%elem_of_map_to_list.
  destruct (wf_idx c k i Hwf Hki) as (Hi & it & Hit & _).
  rewrite (index_lookup _ _ _ (proj1 Hi) Hit). by eexists.
Qed.

Lemma Add_ok c k v : wf c → ∃ c' r, Add c k v = Ok (c', r).
Proof.
  intros Hwf. pose proof (wf_len c Hwf) as Hlen. unfold Add.
  destruct (idx c !! k) as [i|] eqn:Hk.
  - destruct (Add_fuel_present c (length (bits c)) k v i Hwf Hk)
      as (it & w & _ & _ & _ & _ & _ & _ & ->). by eexists _, _.
  - destruct (decide (len c < Cap c)) as [Hlt|Hge].
    + destruct (Add_fuel_append c (length (bits c)) k v Hwf Hk Hlt)
        as (w & _ & _ & ->). by eexists _, _.
    + assert (full c) as Hfull by (unfold full; lia).
      destruct (Add_fuel_eject c (length (bits c)) k v Hwf Hk Hfull)
        as (bs & h & m & mb & wh & old & Hej); [lia|]. simpl in Hej.
      destruct Hej as (_ & _ & _ & _ & _ & _ & _ & _ & _ & _ & ->).
      by eexists _, _.
Qed.

(** Every call but [Init] takes a well-formed cache to a well-formed cache,
    and [Init] does when [len] is 0. *)
Lemma run_wf c op c' :
  wf c → (∀ n, op = CallInit n → len c = 0) → run c op = Ok c' → wf c'.
Proof.
  intros Hwf Hinit. destruct op as [n| |k|k|k v|k|]; simpl.
  - apply Init_wf. by eapply Hinit.
  - by apply Reset_wf.
  - destruct (Get c k) as [[c1 r]| |] eqn:Hrun; simpl; try done.
    intros [= <-]. by eapply Get_wf.
  - destruct (Has c k) as [[c1 r]| |] eqn:Hrun; simpl; try done.
    intros [= <-]. by eapply Has_wf.
  - destruct (Add c k v) as [[c1 r]| |] eqn:Hrun; simpl; try done.
    intros [= <-]. by eapply Add_wf.
  - destruct (Delete c k) as [[c1 r]| |] eqn:Hrun; simpl; try done.
    intros [= <-]. by eapply Delete_wf.
  - destruct (Items_ok c Hwf) as [ps ->]. simpl. by intros [= <-].
Qed.

(** On a well-formed cache every call but [Init] returns. *)
Lemma run_ok c op :
  wf c → (∀ n, op ≠ CallInit n) → ∃ c', run c op = Ok c'.
Proof.
  intros Hwf Hinit. destruct op as [n| |k|k|k v|k|]; simpl.
  - by destruct (Hinit n).
  - by eexists.
  - destruct (idx c !! k) as [i|] eqn:Hk.
    + destruct (Get_present c k i Hwf Hk) as (it & w & _ & _ & ->). by eexists.
    + unfold Get. rewrite Hk. by eexists.
  - unfold Has. destruct (idx c !! k); by eexists.
  - destruct (Add_ok c k v Hwf) as (c' & r & ->). by eexists.
  - destruct (idx c !! k) as [i|] eqn:Hk.
    + destruct (Delete_spec c k i Hwf Hk) as (it & _ & _ & _ & Hdel).
      simpl in Hdel. destruct (decide (len c - 1 ≠ i)).
      * destruct Hdel as (last & w & wi & _ & _ & _ & _ & _ & ->). by eexists.
      * rewrite Hdel. by eexists.
    + unfold Delete. rewrite Hk. by eexists.
  - destruct (Items_ok c Hwf) as [ps ->]. by eexists.
Qed.
End preservation.

(** * Properties of the methods *)

Section properties.
Context `{Countable K} `{ZeroValue K} `{ZeroValue V} {alloc : Allocator K V}.
Implicit Types (c : Cache (K := K) (V := V)) (k : K) (v : V) (i j : Z).

(** C10: on a full well-formed cache (the hand mask is then all ones
    shifted left, and not zero) [Add] returns: the sweep ends within one
    turn of the bit map.  The inner loop runs at most once per word but
    the hand's, so any bound from the number of words minus one on gives
    the same result; [Add] is run with the number of words. *)
Theorem Add_total_on_full c k v :
  wf c → full c →
  ∃ r, Add c k v = Ok r ∧
       ∀ fuel, (length (bits c) - 1 ≤ fuel)%nat → Add_fuel fuel c k v = Ok r.
Proof.
  intros Hwf Hfull.
  assert (∃ r, Add_fuel (length (bits c) - 1) c k v = Ok r) as [r Hr].
  { destruct (idx c !! k) as [i|] eqn:Hk.
    - destruct (Add_fuel_present c (length (bits c) - 1) k v i Hwf Hk)
        as (it & w & _ & _ & _ & _ & _ & _ & ->). by eexists.
    - destruct (Add_fuel_eject c (length (bits c) - 1) k v Hwf Hk Hfull)
        as (bs & h & m & mb & wh & old & Hej); [lia|]. simpl in Hej.
      destruct Hej as (_ & _ & _ & _ & _ & _ & _ & _ & _ & _ & ->).
      by eexists. }
  exists r. split.
  - unfold Add. eapply Add_fuel_mono; [|done]. lia.
  - intros fuel Hfuel. by eapply Add_fuel_mono.
Qed.

Lemma Get_at c k i it :
  idx c !! k = Some i → 0 ≤ i → items c !! Z.to_nat i = Some it →
  0 ≤ i ÷ 64 < Z.of_nat (length (bits c)) →
  ∃ c', Get c k = Ok (c', (value it, true)).
Proof.
  intros Hk Hi Hit Hw. unfold Get. rewrite Hk.
  rewrite (index_lookup _ _ _ Hi Hit). simpl.
  destruct (index_in_range (bits c) (i ÷ 64) Hw) as (w & _ & ->). simpl.
  by eexists.
Qed.

(** C8: on a well-formed cache [Add(k, v)] returns, and a [Get(k)] right
    after it returns [(v, true)]. *)
Theorem Add_then_Get c k v :
  wf c →
  ∃ c' r c'', Add c k v = Ok (c', r) ∧ Get c' k = Ok (c'', (v, true)).
Proof.
  intros Hwf. pose proof (wf_len c Hwf) as Hlen.
  pose proof (wf_cap c Hwf) as Hcap. unfold Add.
  destruct (idx c !! k) as [i|] eqn:Hk.
  - destruct (Add_fuel_present c (length (bits c)) k v i Hwf Hk)
      as (it & w & Hi & Hit & _ & _ & Hw & _ & ->).
    edestruct (Get_at (MkCache (idx c)
                 (store (items c) i (Item k v (slot_mask i)))
                 (store (bits c) (i ÷ 64) (Z.land w (slot_mask i)))
                 (handIdx c) (handMask c) (len c)) k i) as [c'' Hget];
      simpl; rewrite ?length_store; try done; try lia.
    { apply lookup_store_eq. unfold Cap in Hlen. lia. }
    { apply word_of_slot. unfold Cap in *. lia. }
    by eexists _, _, _.
  - destruct (decide (len c < Cap c)) as [Hlt|Hge].
    + destruct (Add_fuel_append c (length (bits c)) k v Hwf Hk Hlt)
        as (w & Hw & _ & ->).
      edestruct (Get_at (MkCache (<[k := len c]> (idx c))
                   (store (items c) (len c) (Item k v (slot_mask (len c))))
                   (store (bits c) (len c ÷ 64) (Z.land w (slot_mask (len c))))
                   (handIdx c) (handMask c) (len c + 1)) k (len c))
        as [c'' Hget];
        simpl; rewrite ?length_store; try done; try lia.
      { apply lookup_insert_eq. }
      { apply lookup_store_eq. unfold Cap in Hlt. lia. }
      { apply word_of_slot. unfold Cap in *. lia. }
      by eexists _, _, _.
    + assert (full c) as Hfull by (unfold full; lia).
      destruct (Add_fuel_eject c (length (bits c)) k v Hwf Hk Hfull)
        as (bs & h & m & mb & wh & old & Hej); [lia|]. simpl in Hej.
      destruct Hej as (_ & Hh & Hlbs & _ & _ & Hb & Hi & _ & _ & _ & ->).
      set (i := h * 64 + U64.TrailingZeros64 mb) in *.
      edestruct (Get_at (MkCache (<[k := i]> (delete (key old) (idx c)))
                   (store (items c) i (Item k v (slot_mask i)))
                   (store bs h (Z.land wh (slot_mask i)))
                   (hand_after (store bs h (Z.land wh (slot_mask i))) h
                      (U64.TrailingZeros64 mb)).2
                   (hand_after (store bs h (Z.land wh (slot_mask i))) h
                      (U64.TrailingZeros64 mb)).1
                   (len c)) k i) as [c'' Hget];
        simpl; rewrite ?length_store; try done; try lia.
      { apply lookup_insert_eq. }
      { by apply lookup_store_eq. }
      { rewrite Hlbs. apply word_of_slot. unfold Cap in *. lia. }
      by eexists _, _, _.
Qed.
(** C6: the three cases of [Add] on a well-formed cache.  A key that is
    present keeps its position: the old value comes back with [true], the
    new value is in place and the bit of the position is cleared.  A new
    key, while the cache is not full, goes to position [len] and [len]
    grows by one: the zero value comes back with [false].  A new key on a
    full cache takes the position of an item that was present: the value
    of that item comes back with [true]. *)
Theorem Add_cases c k v :
  wf c →
  match idx c !! k with
  | Some i =>
      ∃ it c',
        items c !! Z.to_nat i = Some it ∧
        Add c k v = Ok (c', (value it, true)) ∧
        idx c' = idx c ∧
        items c' = store (items c) i (Item k v (bit it)) ∧
        len c' = len c ∧
        ejectable c' i = Ok false
  | None =>
      if decide (len c < Cap c) then
        ∃ c',
          Add c k v = Ok (c', (zero_value, false)) ∧
          idx c' = <[k := len c]> (idx c) ∧
          items c' = store (items c) (len c) (Item k v (slot_mask (len c))) ∧
          len c' = len c + 1
      else
        ∃ i old c',
          len c = Cap c ∧ 0 ≤ i < Cap c ∧
          items c !! Z.to_nat i = Some old ∧ idx c !! key old = Some i ∧
          Add c k v = Ok (c', (value old, true)) ∧
          idx c' = <[k := i]> (delete (key old) (idx c)) ∧
          items c' = store (items c) i (Item k v (bit old)) ∧
          len c' = len c
  end.
Proof.
  intros Hwf. pose proof (wf_len c Hwf) as Hlen.
  pose proof (wf_cap c Hwf) as Hcap. unfold Add.
  destruct (idx c !! k) as [i|] eqn:Hk.
  - destruct (Add_fuel_present c (length (bits c)) k v i Hwf Hk)
      as (it & w & Hi & Hit & _ & Hbit & Hw & _ & ->).
    eexists it, _. split; [done|]. split; [done|]. simpl.
    rewrite Hbit. repeat (split; [done|]).
    apply (ejectable_cleared _ i w); [lia|]. simpl.
    apply lookup_store_eq, word_of_slot. unfold Cap in *. lia.
  - destruct (decide (len c < Cap c)) as [Hlt|Hge].
    + destruct (Add_fuel_append c (length (bits c)) k v Hwf Hk Hlt)
        as (w & Hw & _ & ->).
      by eexists.
    + assert (full c) as Hfull by (unfold full; lia).
      destruct (Add_fuel_eject c (length (bits c)) k v Hwf Hk Hfull)
        as (bs & h & m & mb & wh & old & Hej); [lia|]. simpl in Hej.
      destruct Hej as (_ & _ & _ & _ & _ & _ & Hi & Hold & Hkey & Hbit & ->).
      eexists _, old, _. rewrite Hbit. by repeat (split; [done|]).
Qed.

(** [Init] with an argument from 1 up to the largest [int] minus 63: the
    size is the argument rounded up to a multiple of 64, and the two
    slices are made when the allocator gives these lengths. *)
Lemma Init_rounds c n :
  1 ≤ n ≤ Int.max - 63 →
  let q := (n + 63) `div` 64 in
  Init c n =
    if decide (64 * q ≤ max_items (K := K) (V := V) ∧
               q ≤ max_words (K := K) (V := V))
    then Ok (MkCache ∅ (replicate (Z.to_nat (64 * q)) zero_item)
               (store (replicate (Z.to_nat q) 0) 0 U64.ones)
               0 U64.ones (len c))
    else Panic.
Proof.
  intros Hn q. unfold Init, Int.max in *.
  assert (Int.wrap (n + 63) = n + 63) as ->.
  { unfold Int.wrap. rewrite Z.mod_small; lia. }
  rewrite land_lnot_63. fold q.
  assert (1 ≤ q) as Hq.
  { apply Z.div_le_lower_bound; lia. }
  assert (64 * q ÷ 64 = q) as ->.
  { rewrite quot64 by lia. rewrite Z.mul_comm, Z.div_mul; lia. }
  clearbody q. rewrite !make_cases.
  destruct (decide (0 ≤ 64 * q ≤ max_items)) as [Hi|Hi]; simpl.
  - destruct (decide (0 ≤ q ≤ max_words)) as [Hw|Hw]; simpl.
    + rewrite decide_True by lia.
      destruct (index_in_range (replicate (Z.to_nat q) 0) 0)
        as (w & _ & ->); [rewrite length_replicate; lia|]. done.
    + rewrite decide_False by lia. done.
  - rewrite decide_False by lia. done.
Qed.

Lemma Init_panics c n :
  - 2 ^ 63 ≤ n ≤ Int.max → ¬ 1 ≤ n ≤ Int.max - 63 → Init c n = Panic.
Proof.
  intros Hn Hout. unfold Init, Int.max in *.
  rewrite land_lnot_63.
  assert (Int.wrap (n + 63) `div` 64 ≤ 0) as Hq.
  { assert (Int.wrap (n + 63) < 64) as Hlt.
    { unfold Int.wrap. destruct (decide (n ≤ 0)).
      - rewrite Z.mod_small; lia.
      - replace (n + 63 + 2 ^ 63) with (n + 63 - 2 ^ 63 + 1 * 2 ^ 64) by lia.
        rewrite Z.mod_add by lia. rewrite Z.mod_small; lia. }
    assert (Int.wrap (n + 63) `div` 64 < 1); [|lia].
    apply Z.div_lt_upper_bound; lia. }
  rewrite !make_cases.
  destruct (decide (0 ≤ 64 * (Int.wrap (n + 63) `div` 64) ≤ max_items));
    [|done]. simpl.
  assert (Int.wrap (n + 63) `div` 64 = 0) as -> by lia.
  by case_decide.
Qed.

(** C4, amended: for a capacity from 1 up to the largest [int] minus 63
    whose rounded size the allocator gives (a slice of that many items
    and a slice of one word for every 64 of them), [Init] and [New] return
    a cache whose capacity is the argument rounded up to the next multiple
    of 64, so at least 64.  For every other argument they panic: zero and
    the negative ones among them, since nothing raises the capacity to a
    minimum, and the ones whose size [make] does not allocate. *)
Theorem Init_capacity c n :
  - 2 ^ 63 ≤ n ≤ Int.max →
  let size := 64 * ((n + 63) `div` 64) in
  if decide (1 ≤ n ≤ Int.max - 63 ∧
             size ≤ max_items (K := K) (V := V) ∧
             size `div` 64 ≤ max_words (K := K) (V := V))
  then
    ∃ c' c0,
      Init c n = Ok c' ∧ New n = Ok c0 ∧
      Cap c' = size ∧ Cap c0 = Cap c' ∧
      n ≤ Cap c' < n + 64 ∧ 64 ≤ Cap c'
  else Init c n = Panic ∧ New (K := K) (V := V) n = Panic.
Proof.
  intros Hn size.
  assert (size `div` 64 = (n + 63) `div` 64) as ->.
  { unfold size. rewrite Z.mul_comm, Z.div_mul; lia. }
  destruct (decide (1 ≤ n ≤ Int.max - 63)) as [Hin|Hout].
  - pose proof (Init_rounds c n Hin) as Hc.
    pose proof (Init_rounds zero_cache n Hin) as H0c.
    simpl in Hc, H0c. fold size in Hc, H0c. unfold New.
    destruct (decide (size ≤ max_items ∧ (n + 63) `div` 64 ≤ max_words))
      as [Hroom|Hroom].
    + rewrite decide_True by done. rewrite Hc, H0c. eexists _, _.
      split; [done|]. split; [done|]. unfold Cap. simpl.
      rewrite length_replicate.
      assert (1 ≤ (n + 63) `div` 64) by (apply Z.div_le_lower_bound; lia).
      split; [lia|]. split; [done|].
      pose proof (Z.div_mod (n + 63) 64 ltac:(lia)).
      pose proof (Z.mod_pos_bound (n + 63) 64 ltac:(lia)). unfold size. lia.
    + rewrite decide_False by (intros (_ & ? & ?); by apply Hroom).
      by rewrite Hc, H0c.
  - rewrite decide_False by (by intros [? _]).
    unfold New. by rewrite !Init_panics.
Qed.
(** C3, amended: when the hand's word has no set bit under the hand mask,
    the sweep or-s the hand mask into that word before the hand moves on:
    the bits under the mask are set and the bits outside the mask stay as
    they were, so the word is all ones only if the bits below the mask
    were set already, as when the mask is all ones.  Every word that the
    hand then finds zero gets all its 64 bits set before the hand moves
    past it. *)
Theorem sweep_refreshes_words c w :
  let n := Z.of_nat (length (bits c)) in
  let h := handIdx c in
  wf c →
  bits c !! Z.to_nat h = Some w → Z.land w (handMask c) = 0 →
  ∃ (t : nat) bs' mb,
    1 ≤ Z.of_nat t ≤ n ∧
    sweep (length (bits c)) c =
      Ok (bs', (h + Z.of_nat t) `mod` n, U64.ones, mb) ∧
    bs' !! Z.to_nat h = Some (Z.lor w (handMask c)) ∧
    (∀ b, 0 ≤ b →
       Z.testbit (Z.lor w (handMask c)) b =
         if Z.testbit (handMask c) b then true else Z.testbit w b) ∧
    (handMask c = U64.ones → bs' !! Z.to_nat h = Some U64.ones) ∧
    (∀ s, 1 ≤ s < Z.of_nat t →
       bits c !! Z.to_nat ((h + s) `mod` n) = Some 0 ∧
       bs' !! Z.to_nat ((h + s) `mod` n) = Some U64.ones).
Proof.
  intros n h. subst n h. intros Hwf Hw Hz.
  pose proof (sweep_spec c (length (bits c)) w Hwf ltac:(lia) Hw) as Hspec.
  simpl in Hspec. rewrite decide_True in Hspec by done.
  destruct Hspec
    as (t & bs' & w' & Ht & Hrun & _ & _ & _ & _ & Hh & _ & _ & Hs & _).
  exists t, bs', w'. repeat (split; [done|]). split; [|split; [|done]].
  - intros b Hb. rewrite Z.lor_spec.
    by destruct (Z.testbit (handMask c) b), (Z.testbit w b).
  - intros Hm. rewrite Hh, Hm. f_equal.
    apply U64Facts.lor_ones. by eapply wf_word.
Qed.
(** The lowest set bit, as the specification has it, is what
    [TrailingZeros64] computes. *)
Lemma lowest_set_bit_tz x b :
  U64.in_range x → lowest_set_bit x = Some b → U64.TrailingZeros64 x = b.
Proof.
  intros Hx Hb. unfold lowest_set_bit in Hb.
  apply fmap_Some in Hb as ([ix y] & Hfind & ->). simpl.
  apply list_find_Some in Hfind as (Hix & Hset & Hlow).
  apply lookup_seqZ in Hix as [-> Hix].
  apply U64Facts.TrailingZeros64_unique; [done|done|].
  intros j Hj. apply not_true_is_false.
  apply (Hlow (Z.to_nat j) j); [|lia]. apply lookup_seqZ. lia.
Qed.

Lemma sweep_order_0 c : sweep_order c !! 0%nat = Some (handIdx c, handMask c).
Proof. done. Qed.

Lemma sweep_order_S c (ix : nat) jm :
  sweep_order c !! S ix = Some jm ↔
  jm = ((handIdx c + (1 + Z.of_nat ix)) `mod` Z.of_nat (length (bits c)), U64.ones)
  ∧ Z.of_nat ix < Z.of_nat (length (bits c)) - 1.
Proof.
  unfold sweep_order. simpl. rewrite list_lookup_fmap. split.
  - intros (t & Ht & ->)%fmap_Some. by apply lookup_seqZ in Ht as [-> ?].
  - intros [-> Hix]. apply fmap_Some. eexists. split; [|done].
    by apply lookup_seqZ.
Qed.

(** When the specification names a victim, the sweep ends on its word and
    the lowest set bit of [mbits] is its bit. *)
Lemma sweep_clock_victim c fuel i :
  wf c → (length (bits c) - 1 ≤ fuel)%nat →
  clock_victim c = Some i →
  ∃ bs h m mb,
    sweep fuel c = Ok (bs, h, m, mb) ∧ i = h * 64 + U64.TrailingZeros64 mb.
Proof.
  intros Hwf Hfuel Hv. unfold clock_victim in Hv.
  apply bind_Some in Hv as ([ix jm] & Hfind & Hv).
  apply bind_Some in Hv as (b & Hb & [= <-]).
  apply list_find_Some in Hfind as (Hix & Hnz & Hbefore).
  pose proof (wf_hand c Hwf) as Hh.
  destruct (index_in_range (bits c) (handIdx c) Hh) as (w & Hw & _).
  pose proof (wf_word c _ w Hwf Hw) as Hwr.
  pose proof (sweep_spec c fuel w Hwf Hfuel Hw) as Hspec. simpl in Hspec.
  set (n := Z.of_nat (length (bits c))) in *.
  destruct ix as [|ix].
  - rewrite sweep_order_0 in Hix. injection Hix as <-.
    unfold masked_word in Hnz, Hb. simpl in Hnz, Hb. rewrite Hw in Hnz, Hb.
    simpl in Hnz, Hb. rewrite decide_False in Hspec by done.
    eexists _, _, _, _. split; [done|]. simpl. f_equal.
    symmetry. apply lowest_set_bit_tz; [|done].
    by apply U64Facts.land_in_range.
  - apply sweep_order_S in Hix as [-> Hix]. fold n in Hix.
    assert (Z.land w (handMask c) = 0) as Hz.
    { destruct (decide (Z.land w (handMask c) = 0)) as [|Hne]; [done|].
      exfalso. apply (Hbefore 0%nat _ (sweep_order_0 c)); [lia|].
      unfold masked_word. simpl. by rewrite Hw. }
    rewrite decide_True in Hspec by done.
    destruct Hspec
      as (t & bs' & w' & Ht & Hrun & Hw' & _ & _ & _ & _ & _ & Hlt & Hs & _).
    set (t0 := 1 + Z.of_nat ix) in *.
    destruct (index_in_range (bits c) ((handIdx c + t0) `mod` n))
      as (wj & Hwj & _); [apply ring_bound; lia|].
    pose proof (wf_word c _ wj Hwf Hwj) as Hwjr.
    unfold masked_word in Hnz, Hb. simpl in Hnz, Hb. fold n in Hnz, Hb.
    rewrite Hwj in Hnz, Hb. simpl in Hnz, Hb.
    rewrite U64Facts.land_ones in Hnz, Hb by done.
    assert (Z.of_nat t = t0) as Heq.
    { destruct (Z.lt_trichotomy (Z.of_nat t) t0) as [Hlt'|[?|Hgt]]; [|done|].
      - exfalso. specialize (Hlt ltac:(lia)).
        apply (Hbefore (S (Z.to_nat (Z.of_nat t - 1)))
                 ((handIdx c + Z.of_nat t) `mod` n, U64.ones)); [|lia|].
        + apply sweep_order_S. fold n. split; [|lia]. do 2 f_equal. lia.
        + unfold masked_word. simpl. rewrite Hlt. simpl.
          rewrite U64Facts.land_ones; [done|]. by eapply wf_word.
      - exfalso. destruct (Hs t0) as [Hzero _]; [lia|]. congruence. }
    rewrite Heq in Hrun, Hlt. specialize (Hlt ltac:(lia)).
    assert (w' = wj) as -> by congruence.
    eexists _, _, _, _. split; [done|]. simpl. f_equal.
    symmetry. by apply lowest_set_bit_tz.
Qed.
(** With bit 5 the only set bit of a bit map of one word, the sweep ends
    on bit 5 wherever the hand is. *)
Lemma sweep_only_bit_5 c fuel :
  wf c → bits c = [2 ^ 5] → (length (bits c) - 1 ≤ fuel)%nat →
  ∃ bs m mb, sweep fuel c = Ok (bs, 0, m, mb) ∧ U64.TrailingZeros64 mb = 5.
Proof.
  intros Hwf Hbits Hfuel.
  pose proof (wf_hand c Hwf) as Hh. rewrite Hbits in Hh. simpl in Hh.
  assert (handIdx c = 0) as Hh0 by lia.
  destruct (wf_mask c Hwf) as (_ & _ & s & Hs & Hmask).
  assert (bits c !! Z.to_nat (handIdx c) = Some (2 ^ 5)) as Hw.
  { by rewrite Hbits, Hh0. }
  pose proof (sweep_spec c fuel (2 ^ 5) Hwf Hfuel Hw) as Hspec.
  simpl in Hspec. rewrite Hh0 in Hspec.
  destruct (decide (Z.land (2 ^ 5) (handMask c) = 0)) as [Hz|Hnz].
  - destruct Hspec
      as (t & bs' & w' & Ht & Hrun & _ & _ & _ & _ & Hat0 & Hat & _).
    rewrite Hbits in Ht, Hrun, Hat. simpl in Ht, Hrun, Hat.
    rewrite Z.mod_1_r in Hrun, Hat.
    rewrite Hat0 in Hat. injection Hat as <-.
    eexists _, _, _. split; [done|].
    rewrite Hmask in Hz |- *. by apply U64Facts.tz_lor_bit_5.
  - eexists _, _, _. split; [done|]. by apply U64Facts.tz_land_bit_5.
Qed.

Lemma Add_ejects_at c k v bs h m mb :
  wf c → full c → idx c !! k = None →
  sweep (length (bits c)) c = Ok (bs, h, m, mb) →
  Add_ejects c k v (h * 64 + U64.TrailingZeros64 mb).
Proof.
  intros Hwf Hfull Hk Hsweep.
  destruct (Add_fuel_eject c (length (bits c)) k v Hwf Hk Hfull)
    as (bs' & h' & m' & mb' & wh & old & Hej); [lia|]. simpl in Hej.
  destruct Hej as (Hsweep' & _ & _ & _ & _ & _ & Hi & Hold & Hkey & Hbit & Hadd).
  rewrite Hsweep in Hsweep'. injection Hsweep' as <- <- <- <-.
  set (i := h * 64 + U64.TrailingZeros64 mb) in *.
  assert (key old ≠ k) as Hne by (intros Heq; rewrite Heq in Hkey; congruence).
  eexists old, _. split; [done|]. split; [exact Hadd|]. simpl.
  split; [apply lookup_insert_eq|].
  split; [rewrite Hbit; by apply lookup_store_eq|]. split; [|done].
  unfold Has. simpl.
  by rewrite lookup_insert_ne, lookup_delete_eq by done.
Qed.

(** C9: [Has] returns whether the key is in the index and returns the
    cache as it was: the index, the items, the bit map, the hand and [len]
    are those before the call.  So [Has] does not protect an item: when the
    key is the one that the clock sweep of a full cache designates, it
    still is after [Has], and the [Add] of a new key ejects it. *)
Theorem Has_frame c k :
  (∃ b, Has c k = Ok (c, b) ∧ (b = true ↔ is_Some (idx c !! k))) ∧
  ∀ i k' v',
    wf c → full c → idx c !! k = Some i → clock_victim c = Some i →
    idx c !! k' = None →
    ∃ c' c'' r,
      Has c k = Ok (c', true) ∧ Add c' k' v' = Ok (c'', r) ∧
      Has c'' k = Ok (c'', false).
Proof.
  split.
  - unfold Has. destruct (idx c !! k) as [i|].
    + exists true. split; [done|]. split; [by eexists|done].
    + exists false. split; [done|]. split; [done|]. by intros [? ?].
  - intros i k' v' Hwf Hfull Hk Hv Hk'.
    destruct (sweep_clock_victim c (length (bits c)) i Hwf ltac:(lia) Hv)
      as (bs & h & m & mb & Hsweep & ->).
    destruct (Add_ejects_at c k' v' bs h m mb Hwf Hfull Hk' Hsweep)
      as (old & c'' & Hold & Hadd & _ & _ & Hhas & _).
    destruct (wf_idx c k _ Hwf Hk) as (_ & it & Hit & Hkey & _).
    assert (old = it) as -> by congruence. rewrite Hkey in Hhas.
    exists c, c'', (value it, true). split; [|done].
    unfold Has. by rewrite Hk.
Qed.

(** The lowest set bit of a word that is not zero. *)
Lemma lowest_set_bit_Some x :
  U64.in_range x → x ≠ 0 → lowest_set_bit x = Some (U64.TrailingZeros64 x).
Proof.
  intros Hx Hne.
  destruct (U64Facts.TrailingZeros64_spec x Hx Hne) as (Hb & Hset & Hlow).
  unfold lowest_set_bit.
  assert (list_find (λ i, Z.testbit x i = true) (seqZ 0 64) =
            Some (Z.to_nat (U64.TrailingZeros64 x), U64.TrailingZeros64 x))
    as ->; [|done].
  apply list_find_Some. split; [apply lookup_seqZ; lia|]. split; [done|].
  intros j y Hj Hlt. apply lookup_seqZ in Hj as [-> Hj].
  rewrite Hlow by lia. done.
Qed.

Lemma spec_sweep_unfold fuel bs j m :
  spec_sweep (S fuel) bs j m =
    (w ← bs !! Z.to_nat j;
     if decide (Z.land w m = 0) then
       spec_sweep fuel (store bs j U64.ones) (advance bs j) U64.ones
     else Some (j, Z.land w m)).
Proof. done. Qed.

(** Under a full mask the sweep of the specification is the inner loop of
    [Add]. *)
Lemma spec_sweep_loop fuel bs p bs' h' w' :
  Forall U64.in_range bs →
  sweep_loop fuel bs p = Ok (bs', h', w') →
  spec_sweep (S fuel) bs p U64.ones = Some (h', w').
Proof.
  revert bs p. induction fuel as [|fuel IH]; intros bs p Hbs;
    rewrite sweep_loop_unfold, spec_sweep_unfold;
    destruct (index bs p) as [wp| |] eqn:Hwp; simpl; try done;
    apply index_Ok in Hwp as [Hp Hwp]; rewrite Hwp; simpl;
    rewrite (U64Facts.land_ones wp) by (by eapply Forall_lookup_1 in Hbs);
    destruct (decide (wp = 0)) as [->|Hne]; try done;
    try (by intros [= <- <- <-]).
  intros Hrun. apply IH; [|done].
  apply Forall_insert; [done|apply U64Facts.ones_in_range].
Qed.

(** The inner loop after a word [x] that is not zero was stored under the
    hand: it stops [t] words ahead, at the first word that is not zero, or
    back on the hand's word after a whole turn. *)
Lemma sweep_loop_turn bs h x fuel :
  let n := Z.of_nat (length bs) in
  0 ≤ h < n → x ≠ 0 → (length bs - 1 ≤ fuel)%nat →
  ∃ (t : nat) bs' w',
    1 ≤ Z.of_nat t ≤ n ∧
    sweep_loop fuel (store bs h x) (advance (store bs h x) h) =
      Ok (bs', (h + Z.of_nat t) `mod` n, w') ∧
    w' ≠ 0 ∧
    (Z.of_nat t < n → bs !! Z.to_nat ((h + Z.of_nat t) `mod` n) = Some w') ∧
    (Z.of_nat t = n → w' = x) ∧
    (∀ s, 1 ≤ s < Z.of_nat t → bs !! Z.to_nat ((h + s) `mod` n) = Some 0).
Proof.
  intros n Hh Hx Hfuel.
  set (bs0 := store bs h x).
  assert (Z.of_nat (length bs0) = n) as Hlen0
    by (unfold bs0; by rewrite length_store).
  assert (bs0 !! Z.to_nat h = Some x) as Hbs0h by (by apply lookup_store_eq).
  assert (∀ s, 1 ≤ s < n → (h + s) `mod` n ≠ h) as Hnh.
  { intros s Hs. apply ring_ne; lia. }
  destruct (sweep_loop_reaches (length bs - 1) fuel bs0 ((h + 1) `mod` n) x)
    as (t & bs' & w' & Ht & Hrun & Hw' & Hat & _ & _ & Hzs & _);
    rewrite ?Hlen0; try done.
  { by apply ring_bound. }
  { lia. }
  { rewrite ring_succ by done.
    replace (Z.of_nat (length bs - 1) + 1) with n by lia.
    by rewrite ring_full. }
  rewrite Hlen0 in *. rewrite ring_succ in Hrun, Hat by done.
  rewrite advance_ring by lia. rewrite Hlen0, Hrun.
  replace (Z.of_nat t + 1) with (Z.of_nat (S t)) in * by lia.
  exists (S t), bs', w'. split; [lia|]. split; [done|]. split; [done|].
  split; [|split].
  - intros Hlt. unfold bs0 in Hat.
    rewrite lookup_store_ne in Hat; [done|lia|apply ring_bound; lia|].
    intros Heq. apply (Hnh (Z.of_nat (S t))); [lia|done].
  - intros Heq. rewrite Heq, ring_full in Hat by done. congruence.
  - intros s Hs. destruct (Hzs (s - 1)) as [Hz1 _]; [lia|].
    rewrite ring_succ in Hz1 by done.
    replace (s - 1 + 1) with s in Hz1 by lia. unfold bs0 in Hz1.
    rewrite lookup_store_ne in Hz1; [done|lia|apply ring_bound; lia|].
    intros Heq. apply (Hnh s); [lia|done].
Qed.

(** The first word of the sweep order with a masked value that is not
    zero, and the case where there is none. *)
Lemma clock_victim_first c w :
  wf c → bits c !! Z.to_nat (handIdx c) = Some w →
  Z.land w (handMask c) ≠ 0 →
  clock_victim c =
    Some (handIdx c * 64 + U64.TrailingZeros64 (Z.land w (handMask c))).
Proof.
  intros Hwf Hw Hnz. pose proof (wf_word c _ w Hwf Hw) as Hwr.
  unfold clock_victim.
  assert (list_find (λ jm, masked_word c jm ≠ 0) (sweep_order c) =
            Some (0%nat, (handIdx c, handMask c))) as ->.
  { apply list_find_Some. split; [done|]. split; [|intros; lia].
    unfold masked_word. simpl. by rewrite Hw. }
  simpl. unfold masked_word. simpl. rewrite Hw. simpl.
  rewrite lowest_set_bit_Some; [done|by apply U64Facts.land_in_range|done].
Qed.

Lemma clock_victim_later c w (t : nat) w' :
  let n := Z.of_nat (length (bits c)) in
  let h := handIdx c in
  wf c → bits c !! Z.to_nat h = Some w → Z.land w (handMask c) = 0 →
  1 ≤ Z.of_nat t < n →
  bits c !! Z.to_nat ((h + Z.of_nat t) `mod` n) = Some w' → w' ≠ 0 →
  (∀ s, 1 ≤ s < Z.of_nat t → bits c !! Z.to_nat ((h + s) `mod` n) = Some 0) →
  clock_victim c =
    Some ((h + Z.of_nat t) `mod` n * 64 + U64.TrailingZeros64 w').
Proof.
  intros n h Hwf Hw Hz Ht Hw' Hnz Hzero. subst h.
  pose proof (wf_word c _ w' Hwf Hw') as Hwr.
  unfold clock_victim.
  assert (list_find (λ jm, masked_word c jm ≠ 0) (sweep_order c) =
            Some (t, ((handIdx c + Z.of_nat t) `mod` n, U64.ones))) as ->.
  { destruct t as [|t]; [lia|].
    apply list_find_Some. split.
    { apply sweep_order_S. fold n. split; [|lia]. do 2 f_equal. lia. }
    split.
    { unfold masked_word. simpl. rewrite Hw'. simpl.
      by rewrite U64Facts.land_ones. }
    intros [|ix] jm Hjm Hlt.
    - rewrite sweep_order_0 in Hjm. injection Hjm as <-.
      unfold masked_word. simpl. rewrite Hw. simpl. by intros [].
    - apply sweep_order_S in Hjm as [-> Hix]. fold n.
      unfold masked_word. simpl. fold n.
      rewrite (Hzero (1 + Z.of_nat ix)) by lia. simpl. by intros []. }
  simpl. unfold masked_word. simpl. rewrite Hw'. simpl.
  rewrite U64Facts.land_ones by done.
  by rewrite lowest_set_bit_Some.
Qed.

Lemma clock_victim_none c w :
  let n := Z.of_nat (length (bits c)) in
  let h := handIdx c in
  wf c → bits c !! Z.to_nat h = Some w → Z.land w (handMask c) = 0 →
  (∀ s, 1 ≤ s < n → bits c !! Z.to_nat ((h + s) `mod` n) = Some 0) →
  clock_victim c = None.
Proof.
  intros n h Hwf Hw Hz Hzero. subst h. unfold clock_victim.
  assert (list_find (λ jm, masked_word c jm ≠ 0) (sweep_order c) = None)
    as ->; [|done].
  apply list_find_None. apply Forall_lookup. intros [|ix] jm Hjm.
  - rewrite sweep_order_0 in Hjm. injection Hjm as <-.
    unfold masked_word. simpl. rewrite Hw. simpl. by intros [].
  - apply sweep_order_S in Hjm as [-> Hix]. fold n in Hix |- *.
    unfold masked_word. simpl. fold n.
    rewrite (Hzero (1 + Z.of_nat ix)) by lia. simpl. by intros [].
Qed.

(** The sweep of [Add] beside the static victim and the sweep of the
    specification.  Either a word of the bit map has a masked value that is
    not zero, and the three name the lowest set bit of the first such word;
    or none has, and the sweep of [Add] ends on the hand's word with its
    bits or-ed with the hand mask, where the sweep of the specification
    finds all ones. *)
Lemma sweeps_compared c fuel w :
  let n := Z.of_nat (length (bits c)) in
  let h := handIdx c in
  wf c → (length (bits c) - 1 ≤ fuel)%nat →
  bits c !! Z.to_nat h = Some w →
  ∃ bs h' m' mb,
    sweep fuel c = Ok (bs, h', m', mb) ∧ mb ≠ 0 ∧ U64.in_range mb ∧
    ((clock_victim c = Some (h' * 64 + U64.TrailingZeros64 mb) ∧
      spec_sweep (S (length (bits c))) (bits c) h (handMask c) =
        Some (h', mb)) ∨
     (clock_victim c = None ∧ h' = h ∧ mb = Z.lor w (handMask c) ∧
      spec_sweep (S (length (bits c))) (bits c) h (handMask c) =
        Some (h, U64.ones))).
Proof.
  intros n h Hwf Hfuel Hw.
  pose proof (wf_hand c Hwf) as Hh. fold n h in Hh.
  pose proof (wf_word c _ w Hwf Hw) as Hwr.
  destruct (wf_mask c Hwf) as (Hm0 & Hmr & _).
  pose proof (sweep_spec c fuel w Hwf Hfuel Hw) as Hspec. simpl in Hspec.
  fold n h in Hspec.
  destruct (decide (Z.land w (handMask c) = 0)) as [Hz|Hnz].
  - destruct Hspec
      as (t & bs' & w' & Ht & Hrun & Hw' & Hw'r & _ & _ & Hath & Hat & Hlt &
          Hs & _).
    (* the sweep of the specification, from the word after the hand's *)
    assert (U64.ones ≠ 0) as Hones by done.
    destruct (sweep_loop_turn (bits c) h U64.ones (length (bits c) - 1) Hh
                Hones ltac:(lia))
      as (t2 & bs2 & w2 & Ht2 & Hrun2 & Hw2 & Hlt2 & Hfull2 & Hs2).
    fold n in Ht2, Hrun2, Hlt2, Hfull2, Hs2.
    assert (Forall U64.in_range (store (bits c) h U64.ones)) as Hbr.
    { apply Forall_insert; [apply Hwf|apply U64Facts.ones_in_range]. }
    pose proof (spec_sweep_loop _ _ _ _ _ _ Hbr Hrun2) as Hspec2.
    assert (spec_sweep (S (length (bits c))) (bits c) h (handMask c) =
              Some ((h + Z.of_nat t2) `mod` n, w2)) as Hsp.
    { rewrite spec_sweep_unfold, Hw. simpl. rewrite decide_True by done.
      replace (length (bits c)) with (S (length (bits c) - 1)) at 1 by lia.
      unfold advance at 1. unfold advance in Hspec2 at 1.
      rewrite length_store in Hspec2. exact Hspec2. }
    assert (t2 = t) as ->.
    { destruct (Nat.lt_trichotomy t2 t) as [Hlt'|[?|Hgt]]; [|done|]; exfalso.
      - destruct (Hs (Z.of_nat t2)) as [Hzero _]; [lia|].
        rewrite Hlt2 in Hzero by lia. congruence.
      - specialize (Hs2 (Z.of_nat t) ltac:(lia)).
        rewrite Hlt in Hs2 by lia. congruence. }
    exists bs', ((h + Z.of_nat t) `mod` n), U64.ones, w'.
    split; [done|]. split; [done|]. split; [done|].
    destruct (decide (Z.of_nat t < n)) as [Hltn|Hgen].
    + left. assert (w2 = w') as ->.
      { specialize (Hlt Hltn). specialize (Hlt2 Hltn). congruence. }
      split; [|done].
      apply (clock_victim_later c w t w'); try done; try lia.
      by apply Hlt.
    + right. assert (Z.of_nat t = n) as Htn by lia.
      rewrite Htn, ring_full in * by done.
      split; [|split; [done|split; [congruence|]]].
      * apply (clock_victim_none c w); try done.
      * by rewrite Hsp, (Hfull2 eq_refl).
  - exists (bits c), h, (handMask c), (Z.land w (handMask c)).
    split; [done|]. split; [done|].
    split; [by apply U64Facts.land_in_range|]. left.
    split; [by apply clock_victim_first|].
    rewrite spec_sweep_unfold, Hw. simpl. by rewrite decide_False.
Qed.

(** C5, amended: [Add] of a new key to a full well-formed cache ejects the
    item that the clock sweep designates, at position
    [wordIndex * 64 + bitPosition].  When a word of the bit map has a masked
    value that is not zero (the hand's word under the hand mask, then the
    following words, wrapping around, under a full mask), the victim is the
    lowest set bit of the first such word, and the sweep of the
    specification names it too.  When none has, the sweep makes a whole
    turn and comes back to the hand's word, which then holds its bits
    or-ed with the hand mask: the victim is the lowest set bit of that
    value, where the specification, which sets the word to all ones,
    names bit 0 of the hand's word; the two agree when the hand mask is
    full.  In particular, when bit 5 is the only set bit of a one-word bit
    map (a full cache of capacity 64 with only position 5 ejectable), the
    item at position 5 is ejected: its value comes back and [Has] of its
    key is false afterwards. *)
Theorem Add_ejects_clock_victim c k v :
  wf c → full c → idx c !! k = None →
  ∃ i,
    turn_victim c = Some i ∧ Add_ejects c k v i ∧
    (∀ i', clock_victim c = Some i' → i' = i ∧ spec_victim c = Some i) ∧
    (clock_victim c = None →
       spec_victim c = Some (handIdx c * 64) ∧
       (handMask c = U64.ones → i = handIdx c * 64)) ∧
    (bits c = [2 ^ 5] → Cap c = 64 ∧ i = 5).
Proof.
  intros Hwf Hfull Hk. pose proof (wf_hand c Hwf) as Hh.
  destruct (index_in_range (bits c) (handIdx c) Hh) as (w & Hw & _).
  pose proof (wf_word c _ w Hwf Hw) as Hwr.
  destruct (wf_mask c Hwf) as (Hm0 & Hmr & _).
  destruct (sweeps_compared c (length (bits c)) w Hwf ltac:(lia) Hw)
    as (bs & h & m & mb & Hsweep & Hmb & Hmbr & Hcases).
  exists (h * 64 + U64.TrailingZeros64 mb).
  assert (Add_ejects c k v (h * 64 + U64.TrailingZeros64 mb)) as Hej
    by (by eapply Add_ejects_at).
  assert (bits c = [2 ^ 5] →
          Cap c = 64 ∧ h * 64 + U64.TrailingZeros64 mb = 5) as Hfive.
  { intros Hbits. split; [rewrite (wf_cap c Hwf), Hbits; done|].
    destruct (sweep_only_bit_5 c (length (bits c)) Hwf Hbits ltac:(lia))
      as (bs5 & m5 & mb5 & Hsweep5 & Htz).
    rewrite Hsweep in Hsweep5. injection Hsweep5 as -> -> -> ->. lia. }
  destruct Hcases as [[Hcv Hsp]|(Hcv & -> & -> & Hsp)].
  - split; [unfold turn_victim; by rewrite Hcv|]. split; [done|].
    split; [|split; [|done]].
    + intros i' Hi'. rewrite Hcv in Hi'. injection Hi' as <-.
      split; [done|]. unfold spec_victim. rewrite Hsp. simpl.
      by rewrite lowest_set_bit_Some.
    + intros Hnone. congruence.
  - split.
    { unfold turn_victim. rewrite Hcv, Hw. simpl.
      by rewrite lowest_set_bit_Some. }
    split; [done|]. split; [|split; [|done]].
    + intros i' Hi'. congruence.
    + intros _. split.
      * unfold spec_victim. rewrite Hsp.
        assert (lowest_set_bit U64.ones = Some 0) as Hlow
          by (vm_compute; reflexivity).
        simpl. rewrite ?Hlow. simpl. by rewrite Z.add_0_r.
      * intros Hones. rewrite Hones, U64Facts.lor_ones by done.
        assert (U64.TrailingZeros64 U64.ones = 0) as ->
          by (vm_compute; reflexivity).
        by rewrite Z.add_0_r.
Qed.
End properties.

(** * Runs on the example caches *)

Section runs.
Import Examples.

(** A decidable statement about a closed term, by evaluation. *)
Local Ltac by_evaluation :=
  apply (bool_decide_unpack _); vm_compute; exact I.

(** C1 (the code does not do this): after [Add] of the keys 1, 2 and 3
    to a new cache, key 3 is at position 2 and is not ejectable.
    [Delete(1)] moves it to position 0, and there it is ejectable: the
    bit did not travel with the item.  [Delete] clears the last item
    before it reads the mask of that item, so what it tests is whether
    the whole word of the last position is zero. *)
Theorem Delete_moved_bit_lost :
  let c := the three in
  wf c ∧ idx c !! 1 = Some 0 ∧ idx c !! 3 = Some 2 ∧ len c = 3 ∧
  ejectable c 2 = Ok false ∧
  ∃ c', Delete c 1 = Ok (c', (101, true)) ∧
        idx c' !! 3 = Some 0 ∧ len c' = 2 ∧
        ejectable c' 0 = Ok true.
Proof.
  intros c. split; [by_evaluation|].
  do 4 (split; [vm_compute; reflexivity|]).
  eexists. split; [vm_compute; reflexivity|].
  repeat split; vm_compute; reflexivity.
Qed.

(** C2 (the code does not do this): [Reset] after [New(64)] and
    [Add(1, 101)] gives the index, the items, the hand and the length of
    a new cache of that capacity, but not its bit map: the word keeps bit
    0 cleared, where [Init] leaves all ones.  [Reset] never writes to the
    bit map.  Callers can see the difference: the same sequence of calls
    ends with the ejection of another item on a cache that was filled and
    reset than on a new one. *)
Theorem Reset_keeps_bit_map :
  let c := the one in
  wf c ∧
  (∃ c0 c',
     New 64 = Ok c0 ∧ Reset c = Ok c' ∧
     idx c' = idx c0 ∧ items c' = items c0 ∧ len c' = len c0 ∧
     handIdx c' = handIdx c0 ∧ handMask c' = handMask c0 ∧
     bits c0 = [U64.ones] ∧
     bits c' = [U64.ones - 1] ∧ bits c' = bits c) ∧
  probe (New 64) = Ok (103, true) ∧
  probe filled_reset = Ok (104, true).
Proof.
  intros c. split; [by_evaluation|]. split.
  - eexists _, _. split; [vm_compute; reflexivity|].
    split; [vm_compute; reflexivity|].
    repeat split; vm_compute; reflexivity.
  - split; vm_compute; reflexivity.
Qed.

(** C7 (the code does not do this): [Init] on a well-formed cache that
    holds one pair returns a cache whose index is empty and whose [len]
    is still 1, which breaks the structural invariant.  [Init] never
    writes to [len]; [Reset] does. *)
Theorem Init_keeps_len :
  let c := the one in
  wf c ∧ len c = 1 ∧
  ∃ c', Init c 64 = Ok c' ∧
        size (idx c') = 0%nat ∧ len c' = 1 ∧ Len c' = 1 ∧
        ¬ structural_invariant c'.
Proof.
  intros c. split; [by_evaluation|]. split; [vm_compute; reflexivity|].
  eexists. split; [vm_compute; reflexivity|].
  do 3 (split; [vm_compute; reflexivity|]).
  apply (bool_decide_eq_false_1 _). vm_compute. reflexivity.
Qed.

(** C3 as stated fails: in the filled cache, after one ejection and a
    [Get] of every other key, the hand mask is all ones but bit 0 and the
    word is zero; the sweep leaves bit 0 of the word cleared. *)
Lemma sweep_first_word_not_all_ones :
  ¬ ∀ (c : cache) w bs h m mb,
      wf c → full c →
      bits c !! Z.to_nat (handIdx c) = Some w →
      Z.land w (handMask c) = 0 →
      sweep (length (bits c)) c = Ok (bs, h, m, mb) →
      bs !! Z.to_nat (handIdx c) = Some U64.ones.
Proof.
  intros Hclaim.
  specialize (Hclaim (the swept_once) 0 [U64.ones - 1] 0 U64.ones (U64.ones - 1)).
  assert ([U64.ones - 1] !! Z.to_nat (handIdx (the swept_once)) = Some U64.ones)
    as Hbad; [|vm_compute in Hbad; discriminate].
  apply Hclaim; [by_evaluation|vm_compute; reflexivity..].
Qed.

(** C4 as stated fails: [New(0)] does not return a cache of capacity 64,
    it panics on the store to the first word of an empty bit map. *)
Lemma New_zero_panics :
  New (K := Z) (V := Z) 0 = Panic ∧
  ¬ ∃ c : cache, New 0 = Ok c ∧ Cap c = 64.
Proof.
  split; [vm_compute; reflexivity|].
  intros (c & Hnew & _). vm_compute in Hnew. discriminate.
Qed.

(** C5 as stated fails: in the filled cache, after one ejection and a
    [Get] of every other key, the hand mask is all ones but bit 0 and the
    word is zero.  The sweep of the specification sets the word to all
    ones and names position 0, which holds the key added last; [Add]
    leaves bit 0 cleared and ejects position 1. *)
Lemma spec_victim_not_ejected :
  ¬ ∀ (c : cache) k v i,
      wf c → full c → idx c !! k = None →
      spec_victim c = Some i → Add_ejects c k v i.
Proof.
  intros Hclaim.
  destruct (Hclaim (the swept_once) 65 165 0)
    as (old & c' & _ & Hadd & Hidx & _);
    [by_evaluation|vm_compute; reflexivity..|].
  vm_compute in Hadd. injection Hadd as <- _.
  vm_compute in Hidx. discriminate.
Qed.
(** The amended C3 on the cache of the counterexample: the word becomes
    the hand mask, all ones but bit 0. *)
Lemma sweep_refreshes_words_witness :
  let c := the swept_once in
  wf c ∧ bits c !! Z.to_nat (handIdx c) = Some 0 ∧
  Z.land 0 (handMask c) = 0 ∧
  ∃ (t : nat) bs' mb,
    1 ≤ Z.of_nat t ≤ Z.of_nat (length (bits c)) ∧
    sweep (length (bits c)) c =
      Ok (bs', (handIdx c + Z.of_nat t) `mod` Z.of_nat (length (bits c)),
          U64.ones, mb) ∧
    bs' !! Z.to_nat (handIdx c) = Some (Z.lor 0 (handMask c)) ∧
    (∀ b, 0 ≤ b →
       Z.testbit (Z.lor 0 (handMask c)) b =
         if Z.testbit (handMask c) b then true else Z.testbit 0 b) ∧
    (handMask c = U64.ones → bs' !! Z.to_nat (handIdx c) = Some U64.ones) ∧
    (∀ s, 1 ≤ s < Z.of_nat t →
       bits c !! Z.to_nat ((handIdx c + s) `mod` Z.of_nat (length (bits c)))
         = Some 0 ∧
       bs' !! Z.to_nat ((handIdx c + s) `mod` Z.of_nat (length (bits c)))
         = Some U64.ones).
Proof.
  intros c.
  assert (wf c) as Hwf by by_evaluation.
  assert (bits c !! Z.to_nat (handIdx c) = Some 0) as Hw
    by (vm_compute; reflexivity).
  assert (Z.land 0 (handMask c) = 0) as Hz by (vm_compute; reflexivity).
  split; [exact Hwf|]. split; [exact Hw|]. split; [exact Hz|].
  exact (sweep_refreshes_words c 0 Hwf Hw Hz).
Defined.

(** The amended C4 at 100, with the limits of the example platform: the
    allocator gives 128 items and 2 words, and the capacity is 128. *)
Lemma Init_capacity_witness :
  - 2 ^ 63 ≤ 100 ≤ Int.max ∧
  ∃ c' c0 : cache,
    Init zero_cache 100 = Ok c' ∧ New 100 = Ok c0 ∧
    Cap c' = 64 * ((100 + 63) `div` 64) ∧ Cap c0 = Cap c' ∧
    100 ≤ Cap c' < 100 + 64 ∧ 64 ≤ Cap c'.
Proof.
  assert (- 2 ^ 63 ≤ 100 ≤ Int.max) as Hn by (vm_compute; split; discriminate).
  split; [exact Hn|].
  exact (Init_capacity (zero_cache : cache) 100 Hn).
Defined.

(** With these limits [New(1 << 44)] and [New(MaxInt - 63)] panic in
    [make]: the items would take more than [2^48] bytes. *)
Lemma New_above_limit_panics :
  New (K := Z) (V := Z) (2 ^ 44) = Panic ∧
  New (K := Z) (V := Z) (Int.max - 63) = Panic.
Proof. split; vm_compute; reflexivity. Qed.

(** The amended C5 on the filled cache with position 5 alone ejectable:
    [Add(64, 164)] ejects position 5. *)
Lemma Add_ejects_clock_victim_witness :
  let c := the filled_5 in
  wf c ∧ full c ∧ idx c !! 64 = None ∧
  ∃ i,
    turn_victim c = Some i ∧ Add_ejects c 64 164 i ∧
    (∀ i', clock_victim c = Some i' → i' = i ∧ spec_victim c = Some i) ∧
    (clock_victim c = None →
       spec_victim c = Some (handIdx c * 64) ∧
       (handMask c = U64.ones → i = handIdx c * 64)) ∧
    (bits c = [2 ^ 5] → Cap c = 64 ∧ i = 5).
Proof.
  intros c.
  assert (wf c) as Hwf by by_evaluation.
  assert (full c) as Hfull by (vm_compute; reflexivity).
  assert (idx c !! 64 = None) as Hk by (vm_compute; reflexivity).
  split; [exact Hwf|]. split; [exact Hfull|]. split; [exact Hk|].
  exact (Add_ejects_clock_victim c 64 164 Hwf Hfull Hk).
Defined.

(** C6 on the cache with the keys 1, 2 and 3: [Add(2, 7)] overrides. *)
Lemma Add_cases_witness :
  let c := the three in
  wf c ∧
  ∃ it c',
    items c !! Z.to_nat 1 = Some it ∧
    Add c 2 7 = Ok (c', (value it, true)) ∧
    idx c' = idx c ∧
    items c' = store (items c) 1 (Item 2 7 (bit it)) ∧
    len c' = len c ∧
    ejectable c' 1 = Ok false.
Proof.
  intros c.
  assert (wf c) as Hwf by by_evaluation.
  split; [exact Hwf|].
  exact (Add_cases c 2 7 Hwf).
Defined.

(** C8 on the filled cache: [Add(64, 164)] ejects an item and
    [Get(64)] finds 164. *)
Lemma Add_then_Get_witness :
  let c := the filled in
  wf c ∧
  ∃ c' r c'', Add c 64 164 = Ok (c', r) ∧ Get c' 64 = Ok (c'', (164, true)).
Proof.
  intros c.
  assert (wf c) as Hwf by by_evaluation.
  split; [exact Hwf|].
  exact (Add_then_Get c 64 164 Hwf).
Defined.

(** C10 on the filled cache. *)
Lemma Add_total_on_full_witness :
  let c := the filled in
  wf c ∧ full c ∧
  ∃ r, Add c 64 164 = Ok r ∧
       ∀ fuel, (length (bits c) - 1 ≤ fuel)%nat → Add_fuel fuel c 64 164 = Ok r.
Proof.
  intros c.
  assert (wf c) as Hwf by by_evaluation.
  assert (full c) as Hfull by (vm_compute; reflexivity).
  split; [exact Hwf|]. split; [exact Hfull|].
  exact (Add_total_on_full c 64 164 Hwf Hfull).
Defined.
(** C9 on the filled cache with position 5 alone ejectable: after
    [Has(5)], [Add(64, 164)] ejects key 5. *)
Lemma Has_frame_witness :
  let c := the filled_5 in
  wf c ∧ full c ∧ idx c !! 5 = Some 5 ∧ clock_victim c = Some 5 ∧
  idx c !! 64 = None ∧
  ∃ c' c'' r,
    Has c 5 = Ok (c', true) ∧ Add c' 64 164 = Ok (c'', r) ∧
    Has c'' 5 = Ok (c'', false).
Proof.
  intros c.
  assert (wf c) as Hwf by by_evaluation.
  assert (full c) as Hfull by (vm_compute; reflexivity).
  assert (idx c !! 5 = Some 5) as Hk by (vm_compute; reflexivity).
  assert (clock_victim c = Some 5) as Hv by (vm_compute; reflexivity).
  assert (idx c !! 64 = None) as Hk' by (vm_compute; reflexivity).
  do 5 (split; [assumption|]).
  exact (proj2 (Has_frame c 5) 5 64 164 Hwf Hfull Hk Hv Hk').
Defined.
End runs.

(** * More properties of the package *)

(** ** Single bits of a word *)

Module U64Bits.
Import U64 U64Facts.

Lemma testbit_shl_1 s j :
  0 ≤ s < 64 → 0 ≤ j → Z.testbit (shl 1 s) j = (s =? j).
Proof. intros Hs Hj. rewrite shl_1_pow2 by done. apply Z.pow2_bits_eqb. lia. Qed.

(** [w & bit == bit] tests the bit. *)
Lemma land_bit_testbit w s :
  0 ≤ s < 64 → bool_decide (Z.land w (shl 1 s) = shl 1 s) = Z.testbit w s.
Proof.
  intros Hs. destruct (Z.testbit w s) eqn:Hb.
  - apply bool_decide_eq_true. apply Z.bits_inj'. intros j Hj.
    rewrite Z.land_spec, testbit_shl_1 by done.
    destruct (Z.eqb_spec s j) as [<-|]; [by rewrite Hb|apply andb_false_r].
  - apply bool_decide_eq_false. intros Heq.
    assert (Z.testbit (Z.land w (shl 1 s)) s = true) as Hs'.
    { rewrite Heq, testbit_shl_1 by lia. apply Z.eqb_refl. }
    rewrite Z.land_spec, Hb in Hs'. done.
Qed.

Lemma testbit_clear w s j :
  0 ≤ s < 64 → 0 ≤ j < 64 →
  Z.testbit (Z.land w (not (shl 1 s))) j = Z.testbit w j && negb (j =? s).
Proof.
  intros Hs Hj. rewrite Z.land_spec, testbit_not_shl_1 by lia.
  by destruct (Z.ltb_spec j 64); [|lia].
Qed.

Lemma testbit_set w s j :
  0 ≤ s < 64 → 0 ≤ j →
  Z.testbit (Z.lor w (shl 1 s)) j = Z.testbit w j || (s =? j).
Proof. intros Hs Hj. by rewrite Z.lor_spec, testbit_shl_1. Qed.

(** A word with one set bit, under a mask and or-ed with a hand mask *)
Lemma tz_pow2 b : 0 ≤ b < 64 → TrailingZeros64 (2 ^ b) = b.
Proof.
  intros Hb. apply TrailingZeros64_unique.
  - unfold in_range, modulus. split; [lia|]. apply Z.pow_lt_mono_r; lia.
  - rewrite Z.pow2_bits_eqb by lia. apply Z.eqb_refl.
  - intros j Hj. rewrite Z.pow2_bits_eqb by lia. apply Z.eqb_neq. lia.
Qed.

Lemma pow2_in_range b : 0 ≤ b < 64 → in_range (2 ^ b).
Proof.
  intros Hb. unfold in_range, modulus. split; [lia|].
  apply Z.pow_lt_mono_r; lia.
Qed.

Lemma tz_land_bit b m :
  0 ≤ b < 64 → Z.land (2 ^ b) m ≠ 0 → TrailingZeros64 (Z.land (2 ^ b) m) = b.
Proof.
  intros Hb Hne.
  assert (∀ j, 0 ≤ j →
            Z.testbit (Z.land (2 ^ b) m) j = (b =? j) && Z.testbit m j) as Hbits.
  { intros j Hj. by rewrite Z.land_spec, Z.pow2_bits_eqb by lia. }
  apply TrailingZeros64_unique.
  - by apply land_in_range, pow2_in_range.
  - rewrite Hbits by lia. rewrite Z.eqb_refl. simpl.
    destruct (Z.testbit m b) eqn:Hm; [done|].
    exfalso. apply Hne, Z.bits_inj'. intros j Hj.
    rewrite Hbits, Z.bits_0 by done.
    destruct (Z.eqb_spec b j) as [<-|]; [by rewrite Hm|done].
  - intros j Hj. rewrite Hbits by lia.
    destruct (Z.eqb_spec b j); [lia|done].
Qed.

Lemma tz_lor_bit b s :
  0 ≤ b < 64 → 0 ≤ s < 64 → Z.land (2 ^ b) (shl ones s) = 0 →
  TrailingZeros64 (Z.lor (2 ^ b) (shl ones s)) = b.
Proof.
  intros Hb Hs Hz.
  assert (b < s) as Hlt.
  { destruct (Z.lt_ge_cases b s) as [|Hle]; [done|]. exfalso.
    assert (Z.testbit (Z.land (2 ^ b) (shl ones s)) b = true) as Hbit.
    { rewrite Z.land_spec, Z.pow2_bits_eqb, testbit_shl, testbit_ones by lia.
      rewrite Z.eqb_refl. simpl.
      apply andb_true_intro. split; apply Z.ltb_lt; lia. }
    by rewrite Hz, Z.bits_0 in Hbit. }
  apply TrailingZeros64_unique.
  - apply lor_in_range; [by apply pow2_in_range|apply shl_in_range].
  - rewrite Z.lor_spec, Z.pow2_bits_eqb by lia. by rewrite Z.eqb_refl.
  - intros j Hj.
    rewrite Z.lor_spec, Z.pow2_bits_eqb, testbit_shl by lia.
    rewrite (Z.testbit_neg_r ones (j - s)) by lia.
    destruct (Z.eqb_spec b j); [lia|]. by rewrite andb_false_r.
Qed.

(** A word of 64 bits is known by its bits. *)
Lemma word_eq w w' :
  in_range w → in_range w' →
  (∀ j, 0 ≤ j < 64 → Z.testbit w j = Z.testbit w' j) → w = w'.
Proof.
  intros Hw Hw' Hbits. apply Z.bits_inj'. intros j Hj.
  destruct (Z.lt_ge_cases j 64); [apply Hbits; lia|].
  by rewrite (testbit_high w j), (testbit_high w' j).
Qed.

(** [64 * j + b] is in word [j] at bit [b]. *)
Lemma quot_word j b : 0 ≤ j → 0 ≤ b < 64 → (j * 64 + b) ÷ 64 = j.
Proof.
  intros Hj Hb. rewrite Z.quot_div_nonneg by lia.
  rewrite Z.add_comm, Z.div_add by lia. rewrite Z.div_small; lia.
Qed.

Lemma rem_word j b : 0 ≤ j → 0 ≤ b < 64 → Z.rem (j * 64 + b) 64 = b.
Proof.
  intros Hj Hb. rewrite Z.rem_mod_nonneg by lia.
  rewrite Z.add_comm, Z.mod_add by lia. apply Z.mod_small. lia.
Qed.

Lemma word_bit i : 0 ≤ i → i = (i ÷ 64) * 64 + Z.rem i 64.
Proof.
  intros Hi. pose proof (Z.quot_rem' i 64). lia.
Qed.
End U64Bits.

(** ** Ejectable bits *)

Section ejectable_facts.
Context `{Countable K} `{ZeroValue K} `{ZeroValue V} {alloc : Allocator K V}.
Implicit Types (c : Cache (K := K) (V := V)) (k : K) (v : V) (i j : Z).

Lemma ejectable_testbit c i w :
  0 ≤ i → bits c !! Z.to_nat (i ÷ 64) = Some w →
  ejectable c i = Ok (Z.testbit w (Z.rem i 64)).
Proof.
  intros Hi Hw. pose proof (bit_of_slot i Hi) as Hs.
  unfold ejectable, shift_count. rewrite decide_False by lia. simpl.
  rewrite (index_lookup _ _ _ (proj1 (word_of_slot i (i + 1) ltac:(lia))) Hw).
  simpl. by rewrite U64Bits.land_bit_testbit.
Qed.

(** [ejectable] reads the bit map only. *)
Lemma ejectable_bits c c' i : bits c' = bits c → ejectable c' i = ejectable c i.
Proof. intros Hb. unfold ejectable. by rewrite Hb. Qed.

(** A write to one word leaves the bits of the other words. *)
Lemma ejectable_store_other c c' j0 x i :
  bits c' = store (bits c) j0 x → 0 ≤ j0 → 0 ≤ i → i ÷ 64 ≠ j0 →
  ejectable c' i = ejectable c i.
Proof.
  intros Hb Hj0 Hi Hne. unfold ejectable. rewrite Hb.
  destruct (shift_count (Z.rem i 64)) as [s| |]; simpl; try done.
  unfold index. pose proof (word_of_slot i (i + 1) ltac:(lia)).
  rewrite !decide_True by lia. by rewrite lookup_store_ne by lia.
Qed.

Lemma same_word_other_bit i j :
  0 ≤ i → 0 ≤ j → j ≠ i → j ÷ 64 = i ÷ 64 → Z.rem j 64 ≠ Z.rem i 64.
Proof.
  intros Hi Hj Hne Hw Hr.
  pose proof (U64Bits.word_bit i Hi). pose proof (U64Bits.word_bit j Hj). lia.
Qed.

(** Clearing the bit of [i] leaves the other bits. *)
Lemma ejectable_clear_other c c' i w j :
  0 ≤ i → 0 ≤ j → j ≠ i →
  bits c !! Z.to_nat (i ÷ 64) = Some w →
  bits c' = store (bits c) (i ÷ 64) (Z.land w (slot_mask i)) →
  ejectable c' j = ejectable c j.
Proof.
  intros Hi Hj Hne Hw Hb.
  pose proof (word_of_slot i (i + 1) ltac:(lia)) as Hwi.
  pose proof (lookup_in_range _ _ _ (proj1 Hwi) Hw) as Hr.
  destruct (decide (j ÷ 64 = i ÷ 64)) as [Heq|Hword].
  - pose proof (same_word_other_bit i j Hi Hj Hne Heq) as Hbit.
    pose proof (bit_of_slot i Hi). pose proof (bit_of_slot j Hj).
    rewrite (ejectable_testbit c j w) by (by rewrite ?Heq).
    rewrite (ejectable_testbit c' j (Z.land w (slot_mask i))).
    + unfold slot_mask. rewrite U64Bits.testbit_clear by done.
      destruct (Z.eqb_spec (Z.rem j 64) (Z.rem i 64)); [done|].
      by rewrite andb_true_r.
    + done.
    + rewrite Hb, Heq. by apply lookup_store_eq.
  - by apply (ejectable_store_other c c' (i ÷ 64) (Z.land w (slot_mask i))); try lia.
Qed.

(** X1: [Get] of a key that is present returns its value with [true] and
    clears the bit of its position, and nothing else: the index, the
    items, [len], the hand and the bit of every other position are as
    before.  [Get] of a key that is absent returns the zero value with
    [false] and the cache as it was.  [Has] reports the same presence. *)
Theorem Get_hit_and_miss c k :
  wf c →
  match idx c !! k with
  | Some i =>
      ∃ it c',
        items c !! Z.to_nat i = Some it ∧
        Get c k = Ok (c', (value it, true)) ∧ Has c k = Ok (c, true) ∧
        idx c' = idx c ∧ items c' = items c ∧ len c' = len c ∧
        handIdx c' = handIdx c ∧ handMask c' = handMask c ∧
        ejectable c' i = Ok false ∧
        ∀ j, 0 ≤ j < Cap c → j ≠ i → ejectable c' j = ejectable c j
  | None => Get c k = Ok (c, (zero_value, false)) ∧ Has c k = Ok (c, false)
  end.
Proof.
  intros Hwf. destruct (idx c !! k) as [i|] eqn:Hk.
  - destruct (Get_present c k i Hwf Hk) as (it & w & Hit & Hw & Hget).
    destruct (wf_idx c k i Hwf Hk) as (Hi & _).
    eexists it, _. split; [done|]. split; [exact Hget|].
    split; [unfold Has; by rewrite Hk|]. simpl.
    do 5 (split; [done|]). split.
    + apply (ejectable_cleared _ i w); [lia|]. simpl.
      apply lookup_store_eq.
      apply (lookup_in_range _ _ w); [|done].
      apply (word_of_slot i (i + 1)). lia.
    + intros j Hj Hne.
      by apply (ejectable_clear_other c _ i w j); try lia.
  - unfold Get, Has. by rewrite Hk.
Qed.

(** X2: after [Add(k, v)] on a well-formed cache the key is in the index
    and its position is not ejectable, whether the key was overridden,
    appended or took the place of an ejected item. *)
Theorem Add_entry_not_ejectable c k v :
  wf c →
  ∃ c' r i,
    Add c k v = Ok (c', r) ∧ idx c' !! k = Some i ∧ 0 ≤ i < Cap c' ∧
    ejectable c' i = Ok false.
Proof.
  intros Hwf. pose proof (wf_len c Hwf) as Hlen.
  pose proof (wf_cap c Hwf) as Hcap. unfold Add, Cap in *.
  destruct (idx c !! k) as [i|] eqn:Hk.
  - destruct (Add_fuel_present c (length (bits c)) k v i Hwf Hk)
      as (it & w & Hi & _ & _ & _ & Hw & _ & ->).
    eexists _, _, i. split; [done|]. simpl. rewrite length_store.
    split; [done|]. split; [lia|].
    apply (ejectable_cleared _ i w); [lia|]. simpl.
    apply lookup_store_eq, word_of_slot. lia.
  - destruct (decide (len c < Cap c)) as [Hlt|Hge]; unfold Cap in *.
    + destruct (Add_fuel_append c (length (bits c)) k v Hwf Hk Hlt)
        as (w & Hw & _ & ->).
      eexists _, _, (len c). split; [done|]. simpl. rewrite length_store.
      split; [apply lookup_insert_eq|]. split; [lia|].
      apply (ejectable_cleared _ (len c) w); [lia|]. simpl.
      apply lookup_store_eq, word_of_slot. lia.
    + assert (full c) as Hfull by (unfold full, Cap; lia).
      destruct (Add_fuel_eject c (length (bits c)) k v Hwf Hk Hfull)
        as (bs & h & m & mb & wh & old & Hej); [lia|]. simpl in Hej.
      destruct Hej as (_ & Hh & Hlbs & _ & Hwh & Hb & Hi & _ & _ & _ & ->).
      eexists _, _, _. split; [done|]. simpl. rewrite length_store.
      split; [apply lookup_insert_eq|]. split; [done|].
      apply (ejectable_cleared _ _ wh); [lia|]. simpl.
      rewrite U64Bits.quot_word by lia.
      apply lookup_store_eq. lia.
Qed.

(** X3: [setEjectable(i, v)] followed by [ejectable(i)] gives [v], for
    every position of the bit map; the bits of the other positions, the
    index, the items, the hand and [len] stay as they were. *)
Theorem setEjectable_then_ejectable c i (e : bool) :
  0 ≤ i < 64 * Z.of_nat (length (bits c)) →
  ∃ c',
    setEjectable c i e = Ok c' ∧ ejectable c' i = Ok e ∧
    (∀ j, 0 ≤ j → j ≠ i → ejectable c' j = ejectable c j) ∧
    idx c' = idx c ∧ items c' = items c ∧ len c' = len c ∧
    handIdx c' = handIdx c ∧ handMask c' = handMask c.
Proof.
  intros Hi. pose proof (word_of_slot i _ Hi) as Hword.
  pose proof (bit_of_slot i (proj1 Hi)) as Hbit.
  destruct (index_in_range (bits c) (i ÷ 64) Hword) as (w & Hw & Hiw).
  unfold setEjectable, shift_count. rewrite Hiw. simpl.
  rewrite decide_False by lia. simpl.
  eexists. split; [done|]. simpl. split; [|split; [|done]].
  - erewrite ejectable_testbit; [|lia|simpl; by apply lookup_store_eq].
    f_equal. destruct e.
    + rewrite U64Bits.testbit_set by lia. rewrite Z.eqb_refl. apply orb_true_r.
    + rewrite U64Bits.testbit_clear by lia. rewrite Z.eqb_refl.
      apply andb_false_r.
  - intros j Hj Hne. destruct (decide (j ÷ 64 = i ÷ 64)) as [Heq|Hdiff].
    + pose proof (same_word_other_bit i j (proj1 Hi) Hj Hne Heq) as Hb.
      pose proof (bit_of_slot j Hj).
      rewrite (ejectable_testbit c j w) by (by rewrite ?Heq).
      erewrite ejectable_testbit;
        [|done|simpl; rewrite Heq; by apply lookup_store_eq].
      f_equal. destruct e.
      * rewrite U64Bits.testbit_set by lia.
        destruct (Z.eqb_spec (Z.rem i 64) (Z.rem j 64)); [lia|].
        apply orb_false_r.
      * rewrite U64Bits.testbit_clear by lia.
        destruct (Z.eqb_spec (Z.rem j 64) (Z.rem i 64)); [lia|].
        apply andb_true_r.
    + eapply (ejectable_store_other c _ (i ÷ 64)); [done|lia|done|done].
Qed.
End ejectable_facts.

(** ** What the keys hold before and after a call *)

Section stored_facts.
Context `{Countable K} `{ZeroValue K} `{ZeroValue V} {alloc : Allocator K V}.
Implicit Types (c : Cache (K := K) (V := V)) (k : K) (v : V) (i j : Z).

(** On a well-formed cache [Get] answers with what is stored. *)
Lemma Get_answer c k :
  wf c →
  answer (Get c k) =
    Ok (from_option (λ v, (v, true)) (zero_value, false) (stored c k)).
Proof.
  intros Hwf. unfold stored. destruct (idx c !! k) as [i|] eqn:Hk; simpl.
  - destruct (Get_present c k i Hwf Hk) as (it & w & Hit & _ & ->).
    by rewrite Hit.
  - unfold Get. by rewrite Hk.
Qed.

Lemma stored_present c k i it :
  idx c !! k = Some i → items c !! Z.to_nat i = Some it →
  stored c k = Some (value it).
Proof. intros Hk Hit. unfold stored. rewrite Hk. simpl. by rewrite Hit. Qed.

Lemma stored_absent c k : idx c !! k = None → stored c k = None.
Proof. intros Hk. unfold stored. by rewrite Hk. Qed.

Lemma stored_wf c k :
  wf c →
  stored c k =
    match idx c !! k with
    | Some i => value <$> items c !! Z.to_nat i
    | None => None
    end.
Proof.
  intros Hwf. unfold stored. destruct (idx c !! k) as [i|] eqn:Hk; [|done].
  simpl. destruct (wf_idx c k i Hwf Hk) as (_ & it & -> & _). done.
Qed.

(** [Add] of a present key, or while the table is not full: the other keys
    hold what they held. *)
Lemma Add_present_stored c k v i bs h m k' :
  wf c → idx c !! k = Some i → k' ≠ k →
  stored (MkCache (idx c) (store (items c) i (Item k v (slot_mask i))) bs h m
            (len c)) k' = stored c k'.
Proof.
  intros Hwf Hk Hne. unfold stored. simpl.
  destruct (idx c !! k') as [i'|] eqn:Hk'; [|done]. simpl.
  destruct (wf_idx c k i Hwf Hk) as (Hi & it & Hit & Hkey & _).
  destruct (wf_idx c k' i' Hwf Hk') as (Hi' & it' & Hit' & Hkey' & _).
  assert (i' ≠ i) by (intros ->; congruence).
  by rewrite lookup_store_ne by lia.
Qed.

Lemma Add_append_stored c k v bs h m k' :
  wf c → idx c !! k = None → k' ≠ k →
  stored (MkCache (<[k := len c]> (idx c))
            (store (items c) (len c) (Item k v (slot_mask (len c)))) bs h m
            (len c + 1)) k' = stored c k'.
Proof.
  intros Hwf Hk Hne. unfold stored. simpl.
  rewrite lookup_insert_ne by done.
  destruct (idx c !! k') as [i'|] eqn:Hk'; [|done]. simpl.
  destruct (wf_idx c k' i' Hwf Hk') as (Hi' & _).
  by rewrite lookup_store_ne by lia.
Qed.

Lemma Add_eject_stored c k v i old bs h m k' :
  wf c → idx c !! k = None →
  items c !! Z.to_nat i = Some old → idx c !! key old = Some i →
  k' ≠ k → k' ≠ key old →
  stored (MkCache (<[k := i]> (delete (key old) (idx c)))
            (store (items c) i (Item k v (slot_mask i))) bs h m (len c)) k'
  = stored c k'.
Proof.
  intros Hwf Hk Hold Hkold Hne Hne'. unfold stored. simpl.
  rewrite lookup_insert_ne, lookup_delete_ne by done.
  destruct (idx c !! k') as [i'|] eqn:Hk'; [|done]. simpl.
  destruct (wf_idx c k' i' Hwf Hk') as (Hi' & it' & Hit' & Hkey' & _).
  destruct (wf_idx c _ i Hwf Hkold) as (Hi & _).
  assert (i' ≠ i) by (intros ->; congruence).
  by rewrite lookup_store_ne by lia.
Qed.

(** X4: [Add] that overrides or appends touches one key only: every other
    key answers [Get] as before, the capacity and the hand are unchanged,
    and [len] grows by one exactly when the key was new. *)
Theorem Add_without_ejection c k v :
  wf c → is_Some (idx c !! k) ∨ len c < Cap c →
  ∃ c' r,
    Add c k v = Ok (c', r) ∧
    (∀ k', k' ≠ k → answer (Get c' k') = answer (Get c k')) ∧
    answer (Get c' k) = Ok (v, true) ∧
    Cap c' = Cap c ∧ handIdx c' = handIdx c ∧ handMask c' = handMask c ∧
    len c' = (if idx c !! k is Some _ then len c else len c + 1).
Proof.
  intros Hwf Hcase. pose proof (wf_len c Hwf) as Hlen.
  assert (∃ c' r, Add c k v = Ok (c', r) ∧
            (∀ k', k' ≠ k → stored c' k' = stored c k') ∧
            stored c' k = Some v ∧
            Cap c' = Cap c ∧ handIdx c' = handIdx c ∧ handMask c' = handMask c ∧
            len c' = (if idx c !! k is Some _ then len c else len c + 1))
    as (c' & r & Hadd & Hothers & Hk' & Hrest).
  { unfold Add. destruct (idx c !! k) as [i|] eqn:Hk.
    - destruct (Add_fuel_present c (length (bits c)) k v i Hwf Hk)
        as (it & w & Hi & _ & _ & _ & _ & _ & ->).
      eexists _, _. split; [done|]. split.
      { intros k' Hne. by apply Add_present_stored. }
      split.
      { apply (stored_present _ _ i (Item k v (slot_mask i))); simpl; [done|].
        apply lookup_store_eq. unfold Cap in Hlen. lia. }
      unfold Cap. simpl. by rewrite length_store.
    - destruct Hcase as [[? ?]|Hlt]; [done|].
      destruct (Add_fuel_append c (length (bits c)) k v Hwf Hk Hlt)
        as (w & _ & _ & ->).
      eexists _, _. split; [done|]. split.
      { intros k' Hne. by apply Add_append_stored. }
      split.
      { apply (stored_present _ _ (len c) (Item k v (slot_mask (len c))));
          simpl; [apply lookup_insert_eq|].
        apply lookup_store_eq. unfold Cap in Hlt. lia. }
      unfold Cap. simpl. by rewrite length_store. }
  pose proof (Add_wf c k v c' r Hwf Hadd) as Hwf'.
  exists c', r. split; [done|]. split.
  - intros k'' Hne. by rewrite !Get_answer, Hothers.
  - split; [|done]. by rewrite Get_answer, Hk'.
Qed.

(** X5: [Add] of a new key to a full cache puts exactly one key out: the
    value of that key comes back with [true], [Get] no longer finds it,
    the new key holds its value, every other key answers [Get] as before,
    and [len] and the capacity are unchanged. *)
Theorem Add_ejects_exactly_one c k v :
  wf c → full c → idx c !! k = None →
  ∃ old i c',
    Add c k v = Ok (c', (value old, true)) ∧
    items c !! Z.to_nat i = Some old ∧ idx c !! key old = Some i ∧
    answer (Get c' (key old)) = Ok (zero_value, false) ∧
    answer (Get c' k) = Ok (v, true) ∧
    (∀ k', k' ≠ k → k' ≠ key old → answer (Get c' k') = answer (Get c k')) ∧
    len c' = len c ∧ Cap c' = Cap c.
Proof.
  intros Hwf Hfull Hk.
  destruct (Add_fuel_eject c (length (bits c)) k v Hwf Hk Hfull)
    as (bs & h & m & mb & wh & old & Hej); [lia|]. simpl in Hej.
  destruct Hej as (_ & _ & _ & _ & _ & _ & Hi & Hold & Hkold & _ & Hadd).
  fold (Add c k v) in Hadd.
  pose proof (Add_wf c k v _ _ Hwf Hadd) as Hwf'.
  assert (key old ≠ k) as Hne by (intros Heq; rewrite Heq in Hkold; congruence).
  eexists old, _, _. split; [exact Hadd|]. split; [done|]. split; [done|].
  rewrite !Get_answer by done. split.
  { rewrite stored_absent; [done|]. simpl.
    by rewrite lookup_insert_ne, lookup_delete_eq by done. }
  split.
  { erewrite (stored_present _ _ _ (Item k v _));
      [done|simpl; apply lookup_insert_eq|].
    simpl. by apply lookup_store_eq. }
  split.
  { intros k' Hk1 Hk2. rewrite !Get_answer by done.
    by rewrite (Add_eject_stored c k v _ old). }
  unfold Cap. simpl. by rewrite length_store.
Qed.
(** What [Delete] of a present key leaves. *)
Lemma Delete_present c k i :
  wf c → idx c !! k = Some i →
  ∃ it c',
    items c !! Z.to_nat i = Some it ∧
    Delete c k = Ok (c', (value it, true)) ∧ wf c' ∧
    len c' = len c - 1 ∧ Cap c' = Cap c ∧
    handIdx c' = handIdx c ∧ handMask c' = handMask c ∧
    idx c' !! k = None ∧
    items c' !! Z.to_nat (len c - 1) = Some zero_item ∧
    ∀ k', k' ≠ k → stored c' k' = stored c k'.
Proof.
  intros Hwf Hk.
  destruct (Delete_spec c k i Hwf Hk) as (it & Hi & Hit & Hkey & Hdel).
  pose proof (wf_len c Hwf) as Hlen. unfold Cap in Hlen.
  destruct (wf_idx c k i Hwf Hk) as (Hi' & _).
  remember (len c - 1) as n eqn:Hn. simpl in Hdel.
  destruct (decide (n ≠ i)) as [Hne|Heq].
  - destruct Hdel as (last & w & wi & Hlast & Hklast & Hw & Hwi & Hwir & Hdel).
    assert (key last ≠ k) as Hkne.
    { intros Heq. rewrite Heq in Hklast. congruence. }
    eexists it, _. split; [done|]. split; [exact Hdel|].
    split; [by eapply Delete_wf|]. simpl.
    split; [done|]. split; [unfold Cap; simpl; by rewrite !length_store|].
    split; [done|]. split; [done|].
    split; [by rewrite lookup_insert_ne, lookup_delete_eq by done|].
    split; [apply lookup_store_eq; rewrite length_store; lia|].
    intros k' Hk'. unfold stored. simpl.
    destruct (decide (k' = key last)) as [->|Hkl].
    + rewrite lookup_insert_eq, Hklast. simpl.
      rewrite lookup_store_ne, lookup_store_eq by lia. by rewrite Hlast.
    + rewrite lookup_insert_ne, lookup_delete_ne by done.
      destruct (idx c !! k') as [i'|] eqn:Hki; [|done]. simpl.
      destruct (wf_idx c k' i' Hwf Hki) as (Hr & it' & Hit' & Hkey' & _).
      assert (i' ≠ n) by (intros ->; congruence).
      assert (i' ≠ i) by (intros ->; congruence).
      by rewrite !lookup_store_ne by lia.
  - assert (n = i) as Hni by lia.
    eexists it, _. split; [done|]. split; [exact Hdel|].
    split; [by eapply Delete_wf|]. simpl.
    split; [done|]. split; [unfold Cap; simpl; by rewrite length_store|].
    split; [done|]. split; [done|].
    split; [apply lookup_delete_eq|].
    split; [apply lookup_store_eq; lia|].
    intros k' Hk'. unfold stored. simpl.
    rewrite lookup_delete_ne by done.
    destruct (idx c !! k') as [i'|] eqn:Hki; [|done]. simpl.
    destruct (wf_idx c k' i' Hwf Hki) as (Hr & it' & Hit' & Hkey' & _).
    assert (i' ≠ i) by (intros ->; congruence).
    by rewrite lookup_store_ne by lia.
Qed.

(** X6: [Delete] of a present key returns its value with [true] and takes
    that key out, and no other: [Has] no longer finds it, every other key
    answers [Get] as before although the last item may have moved, [len]
    drops by one, the position that was last holds the zero item, and the
    capacity and the hand are unchanged.  [Delete] of an absent key returns
    the zero value with [false] and the cache as it was. *)
Theorem Delete_removes_one_key c k :
  wf c →
  match idx c !! k with
  | Some i =>
      ∃ it c',
        items c !! Z.to_nat i = Some it ∧
        Delete c k = Ok (c', (value it, true)) ∧
        Has c' k = Ok (c', false) ∧
        answer (Get c' k) = Ok (zero_value, false) ∧
        (∀ k', k' ≠ k → answer (Get c' k') = answer (Get c k')) ∧
        len c' = len c - 1 ∧
        items c' !! Z.to_nat (len c - 1) = Some zero_item ∧
        Cap c' = Cap c ∧ handIdx c' = handIdx c ∧ handMask c' = handMask c
  | None => Delete c k = Ok (c, (zero_value, false))
  end.
Proof.
  intros Hwf. destruct (idx c !! k) as [i|] eqn:Hk.
  - destruct (Delete_present c k i Hwf Hk)
      as (it & c' & Hit & Hdel & Hwf' & Hlen & Hcap & Hh & Hm & Hk' & Hz & Hs).
    exists it, c'. split; [done|]. split; [done|].
    split; [unfold Has; by rewrite Hk'|].
    split; [by rewrite Get_answer, stored_absent|].
    split; [|done].
    intros k' Hne. by rewrite !Get_answer, Hs.
  - unfold Delete. by rewrite Hk.
Qed.

(** X7: [Delete(k)] of a present key followed by [Add(k, v)] appends: the
    [Add] returns the zero value with [false], the key is at the last used
    position with the new value, and [len] is what it was before the
    [Delete]. *)
Theorem Delete_then_Add c k v :
  wf c → is_Some (idx c !! k) →
  ∃ c1 r1 c2,
    Delete c k = Ok (c1, r1) ∧ Add c1 k v = Ok (c2, (zero_value, false)) ∧
    idx c2 !! k = Some (len c - 1) ∧
    answer (Get c2 k) = Ok (v, true) ∧
    len c2 = len c ∧ Cap c2 = Cap c.
Proof.
  intros Hwf [i Hk].
  destruct (Delete_present c k i Hwf Hk)
    as (it & c1 & Hit & Hdel & Hwf1 & Hlen1 & Hcap1 & _ & _ & Hk1 & _).
  destruct (wf_idx c k i Hwf Hk) as (Hi & _).
  pose proof (wf_len c Hwf) as Hlen.
  destruct (Add_fuel_append c1 (length (bits c1)) k v Hwf1 Hk1) as (w & _ & _ & Hadd);
    [lia|].
  fold (Add c1 k v) in Hadd.
  pose proof (Add_wf c1 k v _ _ Hwf1 Hadd) as Hwf2.
  eexists c1, _, _. split; [exact Hdel|]. split; [exact Hadd|]. simpl.
  rewrite <-Hlen1. split; [apply lookup_insert_eq|].
  split.
  - rewrite Get_answer by done.
    erewrite (stored_present _ _ _ (Item k v _));
      [done|simpl; apply lookup_insert_eq|].
    simpl. apply lookup_store_eq.
    unfold Cap in *. lia.
  - split; [lia|]. unfold Cap in *. simpl. by rewrite length_store.
Qed.
End stored_facts.

(** ** The capacity, and sequences of calls *)

Section calls_facts.
Context `{Countable K} `{ZeroValue K} `{ZeroValue V} {alloc : Allocator K V}.
Implicit Types (c : Cache (K := K) (V := V)) (k : K) (v : V) (i j : Z).

Lemma sweep_loop_length fuel bs p bs' h w :
  sweep_loop fuel bs p = Ok (bs', h, w) → length bs' = length bs.
Proof.
  revert bs p. induction fuel as [|fuel IH]; intros bs p;
    rewrite sweep_loop_unfold;
    destruct (index bs p) as [wp| |]; simpl; try done;
    destruct (decide (wp = 0)); try done; try by intros [= <- _ _].
  intros Hrun. rewrite (IH _ _ Hrun). apply length_store.
Qed.

Lemma sweep_length fuel c bs h m mb :
  sweep fuel c = Ok (bs, h, m, mb) → length bs = length (bits c).
Proof.
  unfold sweep. destruct (index (bits c) (handIdx c)) as [w| |]; simpl; try done.
  destruct (decide (Z.land w (handMask c) = 0)); [|by intros [= <- _ _ _]].
  destruct (sweep_loop _ _ _) as [[[bs' h'] mb']| |] eqn:Hrun; simpl; try done.
  intros [= <- _ _ _]. rewrite (sweep_loop_length _ _ _ _ _ _ Hrun).
  apply length_store.
Qed.

Lemma Get_sizes c k c' r :
  Get c k = Ok (c', r) →
  Cap c' = Cap c ∧ length (bits c') = length (bits c).
Proof.
  unfold Get. destruct (idx c !! k) as [i|]; [|by intros [= <- _]].
  destruct (index (items c) i) as [it| |]; simpl; try done.
  destruct (index (bits c) _) as [w| |]; simpl; try done.
  intros [= <- _]. simpl. by rewrite length_store.
Qed.

Lemma Add_sizes c k v c' r :
  Add c k v = Ok (c', r) →
  Cap c' = Cap c ∧ length (bits c') = length (bits c).
Proof.
  unfold Add, Add_fuel, Cap. destruct (idx c !! k) as [i|].
  - destruct (index (items c) i) as [it| |]; simpl; try done.
    destruct (index (bits c) _) as [w| |]; simpl; try done.
    intros [= <- _]. simpl. by rewrite !length_store.
  - case_decide.
    + destruct (index (items c) _) as [it| |]; simpl; try done.
      destruct (index (bits c) _) as [w| |]; simpl; try done.
      intros [= <- _]. simpl. by rewrite !length_store.
    + unfold eject.
      destruct (sweep _ c) as [[[[bs h] m] mb]| |] eqn:Hsweep; simpl; try done.
      destruct (index (items c) _) as [old| |]; simpl; try done.
      destruct (index bs h) as [w| |]; simpl; try done.
      destruct (hand_after _ _ _) as [m' h'].
      intros [= <- _]. simpl. rewrite !length_store.
      by rewrite (sweep_length _ _ _ _ _ _ Hsweep).
Qed.

Lemma Delete_sizes c k c' r :
  Delete c k = Ok (c', r) →
  Cap c' = Cap c ∧ length (bits c') = length (bits c).
Proof.
  unfold Delete, Cap. destruct (idx c !! k) as [i|]; [|by intros [= <- _]].
  destruct (index (items c) i) as [it| |]; simpl; try done.
  destruct (decide (len c - 1 ≠ i)); simpl;
    repeat (match goal with
            | |- context [index ?l ?j] => destruct (index l j) as [?| |]
            end; simpl; try done);
    try case_decide; simpl;
    repeat (match goal with
            | |- context [index ?l ?j] => destruct (index l j) as [?| |]
            end; simpl; try done);
    intros [= <- _]; simpl; by rewrite !length_store.
Qed.

(** X8: no method but [Init] changes the capacity or the size of the bit
    map, on any cache, well formed or not: the table is never
    reallocated. *)
Theorem capacity_is_fixed c op c' :
  ¬ is_Init op → run c op = Ok c' →
  Cap c' = Cap c ∧ length (bits c') = length (bits c).
Proof.
  intros Hop. destruct op as [n| |k|k|k v|k|]; simpl.
  - by destruct Hop.
  - intros [= <-]. unfold Cap. simpl. by rewrite length_fmap.
  - destruct (Get c k) as [[c1 r]| |] eqn:Hrun; simpl; try done.
    intros [= <-]. by eapply Get_sizes.
  - unfold Has. by destruct (idx c !! k); simpl; intros [= <-].
  - destruct (Add c k v) as [[c1 r]| |] eqn:Hrun; simpl; try done.
    intros [= <-]. by eapply Add_sizes.
  - destruct (Delete c k) as [[c1 r]| |] eqn:Hrun; simpl; try done.
    intros [= <-]. by eapply Delete_sizes.
  - unfold Items. destruct (mapM _ _) as [ps| |]; simpl; try done.
    by intros [= <-].
Qed.

(** [check] says what [structural_invariant] and [slot_ok] say. *)
Lemma check_entry_true c k i :
  check_entry c (k, i) = true ↔
  0 ≤ i < len c ∧ key <$> items c !! Z.to_nat i = Some k.
Proof.
  unfold check_entry. simpl. rewrite andb_true_iff, bool_decide_eq_true.
  destruct (items c !! Z.to_nat i) as [it|]; simpl.
  - rewrite bool_decide_eq_true. split; intros [? ?]; split; congruence.
  - split; intros [? ?]; done.
Qed.

Lemma check_slot_true c i : check_slot c i = true ↔ slot_ok c i.
Proof.
  unfold check_slot, slot_ok, slot_mask.
  destruct (items c !! Z.to_nat i) as [p|]; [|done].
  destruct (idx c !! key p) as [v|].
  - rewrite andb_true_iff, !bool_decide_eq_true.
    split; intros [? ?]; split; congruence.
  - split; [done|]. by intros [? _].
Qed.

(** X9: [check] of the tests returns [nil] exactly on the caches that
    satisfy the structural invariant, whose used positions hold items
    that the index sends back to them and that carry the mask of their
    position, whose hand index is at most the number of words and whose
    hand mask is all ones shifted left (zero included). *)
Theorem check_accepts c :
  check c = true ↔
  structural_invariant c ∧
  Forall (slot_ok c) (seqZ 0 (len c)) ∧
  0 ≤ handIdx c ≤ Z.of_nat (length (bits c)) ∧
  U64.shl U64.ones (U64.TrailingZeros64 (handMask c)) = handMask c.
Proof.
  unfold check, structural_invariant.
  rewrite !andb_true_iff, !bool_decide_eq_true, !forallb_forall.
  assert ((∀ x, In x (map_to_list (idx c)) → check_entry c x = true) ↔
          map_Forall (λ k i, 0 ≤ i < len c ∧
                             key <$> items c !! Z.to_nat i = Some k) (idx c))
    as ->.
  { split.
    - intros Hall k i Hk. apply check_entry_true, Hall.
      by apply list_elem_of_In, elem_of_map_to_list.
    - intros Hall [k i] Hin. apply check_entry_true, Hall.
      by apply elem_of_map_to_list, list_elem_of_In. }
  assert ((∀ x, In x (seqZ 0 (len c)) → check_slot c x = true) ↔
          Forall (slot_ok c) (seqZ 0 (len c))) as ->.
  { rewrite Forall_forall. split.
    - intros Hall i Hin. apply check_slot_true, Hall. by apply list_elem_of_In.
    - intros Hall i Hin. apply check_slot_true, Hall. by apply list_elem_of_In. }
  split.
  - intros (((((Hsize & Hlen) & Hhand) & Hmask) & Hidx) & Hslots).
    split; [split; [lia|done]|done].
  - intros ((Hsize & Hidx & Hlen) & Hslots & Hhand & Hmask).
    split; [|done]. split; [|done]. split; [|done]. split; [|done].
    split; [lia|done].
Qed.

Lemma wf_check c : wf c → check c = true.
Proof.
  intros (Hinv & Hslots & _ & _ & Hhand & _ & Hmask).
  apply check_accepts. split; [done|]. split; [done|]. split; [lia|done].
Qed.

Lemma not_is_Init (op : call (K := K) (V := V)) :
  ¬ is_Init op → ∀ n, op ≠ CallInit n.
Proof. intros Hop n ->. by apply Hop. Qed.

Lemma runs_wf c ops :
  wf c → Forall (λ op, ¬ is_Init op) ops →
  ∃ c', runs c ops = Ok c' ∧ wf c' ∧ Cap c' = Cap c.
Proof.
  revert c. induction ops as [|op ops IH]; intros c Hwf Hops.
  - by exists c.
  - apply Forall_cons in Hops as [Hop Hops].
    destruct (run_ok c op Hwf (not_is_Init op Hop)) as [c1 Hrun].
    assert (wf c1) as Hwf1.
    { apply (run_wf c op c1 Hwf); [|done].
      intros n ->. by destruct Hop. }
    destruct (capacity_is_fixed c op c1 Hop Hrun) as [Hcap _].
    destruct (IH c1 Hwf1 Hops) as (c' & Hruns & Hwf' & Hcap').
    exists c'. split; [|split; [done|congruence]].
    unfold runs in *. simpl. by rewrite Hrun.
Qed.

(** X10: after [New], every sequence of calls of [Reset], [Get], [Has],
    [Add], [Delete] and [Items] returns without a panic and leaves a cache
    that is well formed and that [check] of the tests accepts: [Len] is the
    number of keys of the index and at most the capacity, which is the one
    [New] gave. *)
Theorem calls_after_New n c0 ops :
  New n = Ok c0 → Forall (λ op, ¬ is_Init op) ops →
  ∃ c,
    runs c0 ops = Ok c ∧ wf c ∧ check c = true ∧
    Len c = Z.of_nat (size (idx c)) ∧ 0 ≤ Len c ≤ Cap c ∧ Cap c = Cap c0.
Proof.
  intros Hnew Hops.
  destruct (runs_wf c0 ops (New_wf n c0 Hnew) Hops) as (c & Hruns & Hwf & Hcap).
  exists c. split; [done|]. split; [done|]. split; [by apply wf_check|].
  split; [symmetry; by apply wf_size|]. split; [by apply wf_len|done].
Qed.
End calls_facts.

(** ** [Items], [Reset] and [New] *)

Section lifecycle_facts.
Context `{Countable K} `{ZeroValue K} `{ZeroValue V} {alloc : Allocator K V}.
Implicit Types (c : Cache (K := K) (V := V)) (k : K) (v : V) (i j : Z).

Lemma mapM_result_Forall2 {A B} (f : A → result B) (l : list A) ys :
  mapM f l = Ok ys → Forall2 (λ x y, f x = Ok y) l ys.
Proof.
  revert ys. induction l as [|x l IH]; intros ys; simpl.
  - intros [= <-]. constructor.
  - destruct (f x) as [y| |] eqn:Hy; simpl; try done.
    destruct (mapM f l) as [ys'| |]; simpl; try done.
    intros [= <-]. constructor; [done|]. by apply IH.
Qed.

Lemma stored_Get c k v :
  wf c → stored c k = Some v ↔ answer (Get c k) = Ok (v, true).
Proof.
  intros Hwf. rewrite Get_answer by done.
  destruct (stored c k) as [v'|]; simpl; split; congruence.
Qed.

(** X11: [Items] on a well-formed cache yields every pair of the cache
    once and nothing else: the keys of the pairs are distinct, there are
    [Len] pairs, a pair is yielded exactly when [Get] of its key returns
    its value, and the cache is as it was. *)
Theorem Items_lists_the_entries c :
  wf c →
  ∃ ps,
    Items c = Ok (c, ps) ∧ NoDup ps.*1 ∧ Z.of_nat (length ps) = Len c ∧
    ∀ k v, (k, v) ∈ ps ↔ answer (Get c k) = Ok (v, true).
Proof.
  intros Hwf. destruct (Items_ok c Hwf) as [ps Hitems].
  exists ps. split; [done|].
  unfold Items in Hitems.
  destruct (mapM _ _) as [ps'| |] eqn:Hmap; simpl in Hitems; try done.
  injection Hitems as ->.
  apply mapM_result_Forall2 in Hmap.
  assert (ps.*1 = (map_to_list (idx c)).*1) as Hkeys.
  { symmetry. apply list_eq_Forall2, Forall2_fmap.
    eapply Forall2_impl; [exact Hmap|]. intros [k i] [k' v'] Hf. simpl in *.
    destruct (index (items c) i) as [it| |]; simpl in Hf; try done.
    by injection Hf as -> _. }
  split; [rewrite Hkeys; apply NoDup_fst_map_to_list|].
  split.
  { rewrite <-(Forall2_length _ _ _ Hmap), length_map_to_list.
    by apply wf_size. }
  intros k v. rewrite <-stored_Get by done. split.
  - intros Hin. apply list_elem_of_lookup in Hin as [ix Hix].
    destruct (Forall2_lookup_r _ _ _ _ _ Hmap Hix) as ([k' i] & Hl & Hf).
    simpl in Hf.
    destruct (index (items c) i) as [it| |] eqn:Hit; simpl in Hf; try done.
    injection Hf as -> <-.
    apply list_elem_of_lookup_2, elem_of_map_to_list in Hl.
    apply index_Ok in Hit as [_ Hit]. by eapply stored_present.
  - intros Hs. unfold stored in Hs.
    destruct (idx c !! k) as [i|] eqn:Hk; simpl in Hs; [|done].
    destruct (items c !! Z.to_nat i) as [it|] eqn:Hit; simpl in Hs; [|done].
    injection Hs as <-.
    apply elem_of_map_to_list, list_elem_of_lookup in Hk as [ix Hix].
    destruct (Forall2_lookup_l _ _ _ _ _ Hmap Hix) as ([k' v'] & Hl & Hf).
    simpl in Hf. destruct (wf_idx c k i Hwf) as (Hi & _).
    { by apply elem_of_map_to_list, list_elem_of_lookup_2 with ix. }
    rewrite (index_lookup _ _ _ (proj1 Hi) Hit) in Hf. simpl in Hf.
    injection Hf as <- <-. by eapply list_elem_of_lookup_2.
Qed.

(** X12: [Reset] on any cache returns an empty cache of the same capacity:
    [Len] is 0, no key is found by [Has], [Get] or [Delete], [Items]
    yields nothing, every item is the zero item, and a second [Reset]
    changes nothing. *)
Theorem Reset_empties c :
  ∃ c',
    Reset c = Ok c' ∧ Len c' = 0 ∧ Cap c' = Cap c ∧
    (∀ k, Has c' k = Ok (c', false) ∧
          Get c' k = Ok (c', (zero_value, false)) ∧
          Delete c' k = Ok (c', (zero_value, false))) ∧
    Items c' = Ok (c', []) ∧
    Forall (λ it, it = zero_item) (items c') ∧
    Reset c' = Ok c'.
Proof.
  eexists. split; [reflexivity|]. split; [done|].
  split; [unfold Cap; simpl; by rewrite length_fmap|].
  split; [intros k; unfold Has, Get, Delete; simpl; by rewrite lookup_empty|].
  split; [unfold Items; simpl; by rewrite map_to_list_empty|].
  split; [apply Forall_fmap, Forall_true; done|].
  unfold Reset. simpl. by rewrite <-list_fmap_compose.
Qed.

(** X13: the cache that [New] returns is well formed and empty: no key is
    found, every item is the zero item, the hand is on word 0 with a full
    mask, word 0 of the bit map is all ones and the other words are zero,
    so that exactly the positions below 64 read as ejectable; the capacity
    is a multiple of 64 and at least 64. *)
Theorem New_is_empty n c :
  New n = Ok c →
  wf c ∧ Len c = 0 ∧ idx c = ∅ ∧
  (∀ k, Has c k = Ok (c, false)) ∧
  Forall (λ it, it = zero_item) (items c) ∧
  handIdx c = 0 ∧ handMask c = U64.ones ∧
  bits c = U64.ones :: replicate (length (bits c) - 1) 0 ∧
  (∀ j, 0 ≤ j < Cap c → ejectable c j = Ok (bool_decide (j < 64))) ∧
  Cap c `mod` 64 = 0 ∧ 64 ≤ Cap c.
Proof.
  intros Hnew. pose proof (New_wf n c Hnew) as Hwf.
  pose proof (wf_cap c Hwf) as Hcap. pose proof (wf_hand c Hwf) as Hhand.
  assert (idx c = ∅ ∧ len c = 0 ∧ handIdx c = 0 ∧ handMask c = U64.ones ∧
          Forall (λ it, it = zero_item) (items c) ∧
          bits c = U64.ones :: replicate (length (bits c) - 1) 0)
    as (Hidx & Hlen & Hh & Hm & Hitems & Hbits).
  { revert Hnew. unfold New, Init. rewrite !make_cases.
    set (size := Z.land (Int.wrap (n + 63)) (Z.lnot 63)).
    destruct (decide (0 ≤ size ≤ max_items)); simpl; [|done].
    destruct (decide (0 ≤ size ÷ 64 ≤ max_words)); simpl; [|done].
    destruct (index _ 0) as [w| |] eqn:Hw; simpl; try done.
    intros [= <-]. simpl. repeat split.
    - apply Forall_replicate. done.
    - apply index_Ok in Hw as [_ Hw]. unfold store.
      destruct (Z.to_nat (size ÷ 64)) as [|q]; [done|]. simpl.
      by rewrite length_replicate, Nat.sub_0_r. }
  split; [done|]. split; [done|]. split; [done|].
  split; [intros k; unfold Has; by rewrite Hidx, lookup_empty|].
  split; [done|]. split; [done|]. split; [done|]. split; [done|].
  split; [|rewrite Hcap; split; [by rewrite Z.mul_comm, Z.mod_mul|lia]].
  intros j Hj. rewrite Hcap in Hj.
  pose proof (word_of_slot j _ Hj) as Hword.
  pose proof (bit_of_slot j (proj1 Hj)) as Hbit.
  destruct (decide (j < 64)) as [Hlt|Hge].
  - rewrite bool_decide_eq_true_2 by done.
    assert (j ÷ 64 = 0) as Hq by (rewrite quot64 by lia; apply Z.div_small; lia).
    rewrite (ejectable_testbit c j U64.ones); [|lia|by rewrite Hq, Hbits].
    f_equal. rewrite U64Facts.testbit_ones by lia. apply Z.ltb_lt. lia.
  - rewrite bool_decide_eq_false_2 by done.
    assert (1 ≤ j ÷ 64) as Hq.
    { rewrite quot64 by lia. apply Z.div_le_lower_bound; lia. }
    rewrite (ejectable_testbit c j 0); [by rewrite Z.bits_0|lia|].
    rewrite Hbits. destruct (Z.to_nat (j ÷ 64)) as [|q] eqn:Hjq; [lia|].
    simpl. apply lookup_replicate_2. lia.
Qed.
End lifecycle_facts.

(** ** The ejection and the ejectable bits *)

Section second_chance.
Context `{Countable K} `{ZeroValue K} `{ZeroValue V} {alloc : Allocator K V}.
Implicit Types (c : Cache (K := K) (V := V)) (k : K) (v : V) (i j : Z).

(** Every word of the ring but the hand's is some steps ahead of it. *)
Lemma ring_ahead n h j :
  0 ≤ h < n → 0 ≤ j < n → j ≠ h → ∃ s, 1 ≤ s < n ∧ (h + s) `mod` n = j.
Proof.
  intros Hh Hj Hne. destruct (decide (h < j)).
  - exists (j - h). split; [lia|]. rewrite ring_add by lia. case_decide; lia.
  - exists (j - h + n). split; [lia|]. rewrite ring_add by lia. case_decide; lia.
Qed.

(** A position of the table reads as ejectable when its bit is set. *)
Lemma ejectable_word c j :
  wf c → 0 ≤ j < Cap c →
  ∃ w, bits c !! Z.to_nat (j ÷ 64) = Some w ∧ U64.in_range w ∧
       ejectable c j = Ok (Z.testbit w (Z.rem j 64)).
Proof.
  intros Hwf Hj. destruct (wf_word_of_slot c j Hwf Hj) as (w & Hw & _ & Hr).
  exists w. split; [done|]. split; [done|]. apply ejectable_testbit; [lia|done].
Qed.

Lemma ejectable_word_bit c j0 w0 r :
  0 ≤ j0 → bits c !! Z.to_nat j0 = Some w0 → 0 ≤ r < 64 →
  Z.testbit w0 r = true → ejectable c (j0 * 64 + r) = Ok true.
Proof.
  intros Hj0 Hw0 Hr Hbit.
  rewrite (ejectable_testbit c (j0 * 64 + r) w0).
  - by rewrite U64Bits.rem_word, Hbit by lia.
  - lia.
  - by rewrite U64Bits.quot_word by lia.
Qed.


(** Where the sweep ends: on a set bit of the bit map when there is one,
    and where the hand is when there is none. *)
Lemma sweep_victim c fuel bs h m mb :
  wf c → (length (bits c) - 1 ≤ fuel)%nat →
  sweep fuel c = Ok (bs, h, m, mb) →
  ((∃ j, 0 ≤ j < Cap c ∧ ejectable c j = Ok true) →
     ejectable c (h * 64 + U64.TrailingZeros64 mb) = Ok true) ∧
  ((∀ j, 0 ≤ j < Cap c → ejectable c j = Ok false) →
     h = handIdx c ∧
     U64.TrailingZeros64 mb = U64.TrailingZeros64 (handMask c)).
Proof.
  intros Hwf Hfuel Hsweep.
  pose proof (wf_hand c Hwf) as Hh. pose proof (wf_cap c Hwf) as Hcap.
  destruct (index_in_range (bits c) (handIdx c) Hh) as (w & Hw & _).
  pose proof (wf_word c _ w Hwf Hw) as Hwr.
  destruct (wf_mask c Hwf) as (Hm0 & Hmr & s0 & Hs0 & Hmask).
  pose proof (sweep_spec c fuel w Hwf Hfuel Hw) as Hspec. simpl in Hspec.
  set (n := Z.of_nat (length (bits c))) in *.
  destruct (decide (Z.land w (handMask c) = 0)) as [Hz|Hnz].
  - destruct Hspec
      as (t & bs' & w' & Ht & Hrun & Hw' & Hw'r & _ & _ & Hath & Hat & Hlt & Hs & _).
    rewrite Hrun in Hsweep. injection Hsweep as <- <- <- <-.
    destruct (U64Facts.TrailingZeros64_spec w' Hw'r Hw') as (Hb & Hbit & Hlow).
    set (b := U64.TrailingZeros64 w') in *.
    destruct (decide (Z.of_nat t < n)) as [Hltn|Hgen].
    + specialize (Hlt Hltn).
      pose proof (ring_bound n (handIdx c) (Z.of_nat t) Hh) as Hh'.
      set (h' := (handIdx c + Z.of_nat t) `mod` n) in *.
      assert (ejectable c (h' * 64 + b) = Ok true) as Hej.
      { apply (ejectable_word_bit c h' w'); [lia|done|done|done]. }
      split; [done|]. intros Hnone. rewrite Hnone in Hej by lia. done.
    + assert (Z.of_nat t = n) as Htn by lia.
      rewrite Htn, ring_full in * by done.
      assert (w' = Z.lor w (handMask c)) as Hw'eq by congruence.
      split.
      * intros (j & Hj & Hej).
        destruct (ejectable_word c j Hwf Hj) as (wj & Hwj & Hwjr & Heq).
        rewrite Heq in Hej. injection Hej as Hej.
        pose proof (bit_of_slot j (proj1 Hj)) as Hr.
        assert (j ÷ 64 = handIdx c) as Hjh.
        { destruct (decide (j ÷ 64 = handIdx c)) as [|Hne]; [done|]. exfalso.
          destruct (ring_ahead n (handIdx c) (j ÷ 64)) as (s & Hsn & Hsj);
            [done|apply word_of_slot; lia|done|].
          destruct (Hs s) as [Hzero _]; [lia|]. rewrite Hsj in Hzero.
          assert (wj = 0) as -> by congruence. by rewrite Z.bits_0 in Hej. }
        rewrite Hjh in Hwj. assert (wj = w) as -> by congruence.
        assert (Z.testbit (handMask c) (Z.rem j 64) = false) as Hmj.
        { assert (Z.testbit (Z.land w (handMask c)) (Z.rem j 64) = false) as Hl
            by (by rewrite Hz, Z.bits_0).
          by rewrite Z.land_spec, Hej in Hl. }
        apply (ejectable_word_bit c (handIdx c) w); [lia|done|done|].
        rewrite Hw'eq, Z.lor_spec in Hbit.
        destruct (Z.testbit w b) eqn:Hwb; [done|]. simpl in Hbit. exfalso.
        rewrite Hmask in Hmj, Hbit.
        rewrite U64Facts.testbit_shl in Hmj, Hbit by lia.
        apply andb_true_iff in Hbit as [_ Hbit].
        assert (s0 ≤ b) as Hsb.
        { destruct (Z.le_gt_cases s0 b); [done|].
          by rewrite Z.testbit_neg_r in Hbit by lia. }
        assert (Z.rem j 64 < s0) as Hjs.
        { destruct (Z.lt_ge_cases (Z.rem j 64) s0); [done|].
          rewrite U64Facts.testbit_ones in Hmj by lia.
          apply andb_false_iff in Hmj as [Hmj|Hmj];
            apply Z.ltb_ge in Hmj; lia. }
        specialize (Hlow (Z.rem j 64) ltac:(lia)).
        by rewrite Hw'eq, Z.lor_spec, Hej in Hlow.
      * intros Hnone. split; [done|].
        assert (w = 0) as ->.
        { apply U64Bits.word_eq; [done|done|]. intros r Hr.
          rewrite Z.bits_0. destruct (Z.testbit w r) eqn:Hwr'; [|done].
          pose proof (ejectable_word_bit c (handIdx c) w r ltac:(lia) Hw Hr Hwr')
            as Hej.
          rewrite Hnone in Hej by lia. done. }
        unfold b. by rewrite Hw'eq, Z.lor_0_l.
  - rewrite Hspec in Hsweep. injection Hsweep as <- <- <- <-.
    assert (U64.in_range (Z.land w (handMask c))) as Hlr
      by by apply U64Facts.land_in_range.
    destruct (U64Facts.TrailingZeros64_spec _ Hlr Hnz) as (Hb & Hbit & _).
    set (b := U64.TrailingZeros64 _) in *.
    rewrite Z.land_spec in Hbit. apply andb_true_iff in Hbit as [Hbit _].
    pose proof (ejectable_word_bit c (handIdx c) w b ltac:(lia) Hw Hb Hbit) as Hej.
    split; [done|]. intros Hnone. rewrite Hnone in Hej by lia. done.
Qed.

(** X14: [Add] of a new key to a full cache ejects an item that was
    ejectable whenever the cache holds one.  When no item is ejectable it
    ejects the item under the hand, at position
    [handIdx * 64 + TrailingZeros64(handMask)]. *)
Theorem Add_ejects_an_ejectable_item c k v :
  wf c → full c → idx c !! k = None →
  ∃ i,
    0 ≤ i < Cap c ∧ Add_ejects c k v i ∧
    ((∃ j, 0 ≤ j < Cap c ∧ ejectable c j = Ok true) →
       ejectable c i = Ok true) ∧
    ((∀ j, 0 ≤ j < Cap c → ejectable c j = Ok false) →
       i = handIdx c * 64 + U64.TrailingZeros64 (handMask c)).
Proof.
  intros Hwf Hfull Hk.
  destruct (Add_fuel_eject c (length (bits c)) k v Hwf Hk Hfull)
    as (bs & h & m & mb & wh & old & Hej); [lia|]. simpl in Hej.
  destruct Hej as (Hsweep & _ & _ & _ & _ & _ & Hi & _).
  destruct (sweep_victim c (length (bits c)) bs h m mb Hwf ltac:(lia) Hsweep)
    as [Hsome Hnone].
  exists (h * 64 + U64.TrailingZeros64 mb). split; [done|].
  split; [by eapply Add_ejects_at|]. split; [done|].
  intros Hall. destruct (Hnone Hall) as [-> ->]. done.
Qed.

(** The hand after an ejection at bit [b] of word [h] is on the next
    position, around the table. *)
Lemma hand_after_next bs h b :
  0 ≤ h < Z.of_nat (length bs) → 0 ≤ b < 64 →
  (hand_after bs h b).2 * 64 + U64.TrailingZeros64 (hand_after bs h b).1 =
    (h * 64 + b + 1) `mod` (64 * Z.of_nat (length bs)).
Proof.
  intros Hh Hb. unfold hand_after.
  destruct (decide (b = 63)) as [->|Hne].
  - assert (U64.shl U64.ones (63 + 1) = 0) as -> by (vm_compute; reflexivity).
    assert (U64.TrailingZeros64 U64.ones = 0) as Htz by (vm_compute; reflexivity).
    rewrite decide_True by done. simpl. rewrite Htz.
    unfold advance. case_decide.
    + replace (h * 64 + 63 + 1) with (64 * Z.of_nat (length bs)) by lia.
      rewrite Z.mod_same by lia. lia.
    + rewrite Z.mod_small by lia. lia.
  - rewrite decide_False by (apply U64Facts.shl_ones_ne_0; lia). simpl.
    rewrite U64Facts.tz_shl_ones by lia. rewrite Z.mod_small by lia. lia.
Qed.

(** X15: after [Add] has ejected the item at position [i], the hand is on
    the position that follows [i], the first one after the last: the next
    search starts there. *)
Theorem Add_leaves_hand_after_victim c k v :
  wf c → full c → idx c !! k = None →
  ∃ c' r i,
    Add c k v = Ok (c', r) ∧ idx c' !! k = Some i ∧
    handIdx c' * 64 + U64.TrailingZeros64 (handMask c') = (i + 1) `mod` Cap c.
Proof.
  intros Hwf Hfull Hk. pose proof (wf_cap c Hwf) as Hcap.
  destruct (Add_fuel_eject c (length (bits c)) k v Hwf Hk Hfull)
    as (bs & h & m & mb & wh & old & Hej); [lia|]. simpl in Hej.
  destruct Hej as (_ & Hh & Hlbs & _ & _ & Hb & _ & _ & _ & _ & Hadd).
  eexists _, _, _. split; [exact Hadd|]. simpl.
  split; [apply lookup_insert_eq|].
  rewrite hand_after_next; rewrite ?length_store, ?Hlbs; [|lia|done].
  by rewrite Hcap.
Qed.


(** X17: a cache whose table and bit map are empty, as the zero value of
    [Cache] before [Init], panics on every [Add], while [Get], [Has] and
    [Delete] of a key that the index does not hold return without a
    panic. *)
Theorem Add_without_table_panics c k v :
  items c = [] → bits c = [] →
  Add c k v = Panic ∧
  (idx c !! k = None →
     Get c k = Ok (c, (zero_value, false)) ∧ Has c k = Ok (c, false) ∧
     Delete c k = Ok (c, (zero_value, false))).
Proof.
  intros Hitems Hbits. split.
  - assert (∀ A i, index ([] : list A) i = Panic) as Hnil.
    { intros A i. apply index_out_of_range. simpl. lia. }
    unfold Add, Add_fuel, eject, sweep. rewrite Hitems, Hbits.
    destruct (idx c !! k) as [i|]; [|case_decide]; by rewrite ?Hnil.
  - intros Hk. unfold Get, Has, Delete. by rewrite Hk.
Qed.

(** X18: [Get] gives a second chance.  On a full cache, a key that [Get]
    has just returned survives the [Add] of a new key whenever some other
    position is ejectable: it is still found, with its value. *)
Theorem Get_protects_from_next_Add c k i k' v' :
  wf c → full c → idx c !! k = Some i → idx c !! k' = None →
  (∃ j, 0 ≤ j < Cap c ∧ j ≠ i ∧ ejectable c j = Ok true) →
  ∃ x c1 c2 r,
    Get c k = Ok (c1, (x, true)) ∧ Add c1 k' v' = Ok (c2, r) ∧
    Has c2 k = Ok (c2, true) ∧ answer (Get c2 k) = Ok (x, true).
Proof.
  intros Hwf Hfull Hk Hk' (j & Hj & Hne & Hej).
  destruct (Get_present c k i Hwf Hk) as (it & w & Hit & Hw & Hget).
  destruct (wf_idx c k i Hwf Hk) as (Hi & _).
  pose proof (wf_len c Hwf) as Hlen.
  pose proof (Get_wf c k _ _ Hwf Hget) as Hwf1.
  set (c1 := MkCache (idx c) (items c)
               (store (bits c) (i ÷ 64) (Z.land w (slot_mask i)))
               (handIdx c) (handMask c) (len c)) in *.
  assert (full c1) as Hfull1 by exact Hfull.
  assert (ejectable c1 i = Ok false) as Hi1.
  { apply (ejectable_cleared _ i w); [lia|]. simpl.
    apply lookup_store_eq, (lookup_in_range _ _ w); [|done].
    apply (word_of_slot i (i + 1)). lia. }
  assert (ejectable c1 j = Ok true) as Hj1.
  { rewrite <-Hej. by apply (ejectable_clear_other c c1 i w j); try lia. }
  destruct (Add_fuel_eject c1 (length (bits c1)) k' v' Hwf1 Hk' Hfull1)
    as (bs & h & m & mb & wh & old & Hadd); [lia|]. simpl in Hadd.
  destruct Hadd as (Hsweep & _ & _ & _ & _ & _ & Hi' & Hold & Hkold & _ & Hadd).
  fold c1 in Hadd. fold (Add c1 k' v') in Hadd.
  destruct (sweep_victim c1 (length (bits c1)) bs h m mb Hwf1 ltac:(lia) Hsweep)
    as [Hsome _].
  set (i' := h * 64 + U64.TrailingZeros64 mb) in *.
  assert (ejectable c1 i' = Ok true) as Hi'1.
  { apply Hsome. exists j. split; [|done]. exact Hj. }
  assert (i' ≠ i) as Hii by (intros Heq; rewrite Heq in Hi'1; congruence).
  assert (key old ≠ k) as Hko.
  { intros Heq. rewrite Heq in Hkold. simpl in Hkold. congruence. }
  assert (k ≠ k') as Hkk by (intros Heq; rewrite Heq in Hk; congruence).
  pose proof (Add_wf c1 k' v' _ _ Hwf1 Hadd) as Hwf2.
  eexists (value it), c1, _, _. split; [exact Hget|]. split; [exact Hadd|].
  split.
  - unfold Has. simpl.
    by rewrite lookup_insert_ne, lookup_delete_ne, Hk by done.
  - rewrite Get_answer by done.
    rewrite (Add_eject_stored c1 k' v' i' old) by done.
    by rewrite (stored_present c1 k i it).
Qed.

End second_chance.

(** ** First in, first out *)

Section turn.
Variable n : Z.

Lemma mod_cases x :
  - n ≤ x < n → x `mod` n = if decide (0 ≤ x) then x else x + n.
Proof.
  intros Hx. case_decide.
  - apply Z.mod_small. lia.
  - rewrite <-(Z.mod_add x 1 n) by lia. rewrite Z.mul_1_l.
    apply Z.mod_small. lia.
Qed.

Lemma dist_cases j p :
  0 ≤ j < n → 0 ≤ p < n →
  (j - p) `mod` n = if decide (p ≤ j) then j - p else j - p + n.
Proof.
  intros Hj Hp. rewrite mod_cases by lia. repeat case_decide; lia.
Qed.

Lemma dist_next j p :
  0 ≤ j < n → 0 ≤ p < n → j ≠ p →
  (j - (p + 1) `mod` n) `mod` n = (j - p) `mod` n - 1.
Proof.
  intros Hj Hp Hne. rewrite Zminus_mod_idemp_r.
  rewrite (dist_cases j p) by done. rewrite (mod_cases (j - (p + 1))) by lia.
  repeat case_decide; lia.
Qed.

Lemma dist_behind p : 0 ≤ p < n → (p - (p + 1) `mod` n) `mod` n = n - 1.
Proof.
  intros Hp. rewrite Zminus_mod_idemp_r. rewrite mod_cases by lia.
  case_decide; lia.
Qed.

Lemma dist_add p t :
  0 ≤ p < n → 0 ≤ t < n → ((p + t) `mod` n - p) `mod` n = t.
Proof.
  intros Hp Ht. rewrite Zminus_mod_idemp_l.
  replace (p + t - p) with t by lia. apply Z.mod_small. lia.
Qed.
End turn.

Section in_turn.
Context `{Countable K} `{ZeroValue K} `{ZeroValue V} {alloc : Allocator K V}.
Implicit Types (c : Cache (K := K) (V := V)) (k : K) (v : V) (i j l : Z).

(** The hand of a well-formed cache is on a position of the table. *)
Lemma hand_position_ok c :
  wf c →
  let s := U64.TrailingZeros64 (handMask c) in
  0 ≤ s < 64 ∧ handMask c = U64.shl U64.ones s ∧
  0 ≤ hand_position c < Cap c ∧
  hand_position c ÷ 64 = handIdx c ∧ Z.rem (hand_position c) 64 = s.
Proof.
  intros Hwf s. pose proof (wf_hand c Hwf) as Hh.
  pose proof (wf_cap c Hwf) as Hcap.
  destruct (wf_mask c Hwf) as (Hm0 & Hmr & _).
  destruct (U64Facts.TrailingZeros64_spec _ Hmr Hm0) as (Hs & _).
  fold s in Hs. destruct Hwf as (_ & _ & _ & _ & _ & _ & Hshape).
  unfold hand_position. fold s.
  split; [done|]. split; [done|]. split; [lia|].
  split; [apply U64Bits.quot_word; lia|apply U64Bits.rem_word; lia].
Qed.

Lemma testbit_hand_mask s r :
  0 ≤ s < 64 → 0 ≤ r < 64 →
  Z.testbit (U64.shl U64.ones s) r = bool_decide (s ≤ r).
Proof.
  intros Hs Hr. rewrite U64Facts.testbit_shl by lia.
  destruct (decide (s ≤ r)) as [Hle|Hgt].
  - rewrite bool_decide_eq_true_2 by done.
    rewrite U64Facts.testbit_ones by lia.
    apply andb_true_intro. split; apply Z.ltb_lt; lia.
  - rewrite bool_decide_eq_false_2 by done.
    rewrite Z.testbit_neg_r by lia. apply andb_false_r.
Qed.

(** The sweep of a bit map without a set bit: a whole turn, which leaves
    the hand mask in the hand's word and all ones in the others. *)
Lemma sweep_all_clear c fuel :
  wf c → (length (bits c) - 1 ≤ fuel)%nat →
  (∀ j, 0 ≤ j < Cap c → ejectable c j = Ok false) →
  ∃ bs,
    sweep fuel c = Ok (bs, handIdx c, U64.ones, handMask c) ∧
    bs !! Z.to_nat (handIdx c) = Some (handMask c) ∧
    ∀ j0, 0 ≤ j0 < Z.of_nat (length (bits c)) → j0 ≠ handIdx c →
          bs !! Z.to_nat j0 = Some U64.ones.
Proof.
  intros Hwf Hfuel Hnone.
  pose proof (wf_hand c Hwf) as Hh. pose proof (wf_cap c Hwf) as Hcap.
  assert (∀ j0 w0, 0 ≤ j0 → bits c !! Z.to_nat j0 = Some w0 → w0 = 0) as Hzero.
  { intros j0 w0 Hj0 Hw0.
    pose proof (lookup_in_range _ _ _ Hj0 Hw0) as Hj0n.
    apply U64Bits.word_eq; [by eapply wf_word|done|]. intros r Hr.
    rewrite Z.bits_0. destruct (Z.testbit w0 r) eqn:Hbit; [|done].
    pose proof (ejectable_word_bit c j0 w0 r Hj0 Hw0 Hr Hbit) as Hej.
    rewrite Hnone in Hej by lia. done. }
  destruct (index_in_range (bits c) (handIdx c) Hh) as (w & Hw & _).
  pose proof (Hzero _ _ (proj1 Hh) Hw) as ->.
  pose proof (sweep_spec c fuel 0 Hwf Hfuel Hw) as Hspec. cbv zeta in Hspec.
  set (n := Z.of_nat (length (bits c))) in *.
  rewrite decide_True in Hspec by apply Z.land_0_l.
  destruct Hspec
    as (t & bs' & w' & Ht & Hrun & Hw' & _ & _ & _ & Hath & Hat & Hlt & Hs & _).
  assert (Z.of_nat t = n) as Htn.
  { destruct (decide (Z.of_nat t < n)) as [Hltn|]; [|lia]. exfalso.
    apply Hw', (Hzero ((handIdx c + Z.of_nat t) `mod` n)); [|by apply Hlt].
    by apply ring_bound. }
  rewrite Htn, ring_full in * by done. rewrite Z.lor_0_l in Hath.
  assert (w' = handMask c) as -> by congruence.
  exists bs'. split; [done|]. split; [done|].
  intros j0 Hj0 Hne.
  destruct (ring_ahead n (handIdx c) j0 Hh Hj0 Hne) as (s & Hsn & <-).
  by apply Hs.
Qed.

(** One [Add] when the ejectable positions are the [l] positions from the
    hand on: the item under the hand goes, the hand moves on by one, and
    the ejectable positions are again those from the hand on; all but the
    one just written when none was ejectable. *)
Lemma Add_in_turn c l k v :
  wf c → full c → 0 ≤ l ≤ Cap c → ejectable_from_hand c l →
  idx c !! k = None →
  let p := hand_position c in
  ∃ old c',
    items c !! Z.to_nat p = Some old ∧ idx c !! key old = Some p ∧
    Add c k v = Ok (c', (value old, true)) ∧
    idx c' = <[k := p]> (delete (key old) (idx c)) ∧
    items c' = store (items c) p (Item k v (slot_mask p)) ∧
    wf c' ∧ full c' ∧ Cap c' = Cap c ∧
    hand_position c' = (p + 1) `mod` Cap c ∧
    ejectable_from_hand c'
      (if decide (l = 0) then Cap c - Z.rem p 64 - 1 else l - 1).
Proof.
  intros Hwf Hfull Hl Hrun Hk p.
  destruct (hand_position_ok c Hwf) as (Hs & Hmask & Hp & Hpq & Hpr).
  fold p in Hp, Hpq, Hpr.
  set (s := U64.TrailingZeros64 (handMask c)) in *.
  pose proof (wf_hand c Hwf) as Hh. pose proof (wf_cap c Hwf) as Hcap.
  unfold ejectable_from_hand in Hrun. rewrite Forall_seqZ in Hrun.
  fold p in Hrun.
  assert (p = handIdx c * 64 + s) as Hpeq by done.
  destruct (index_in_range (bits c) (handIdx c) Hh) as (w & Hw & _).
  pose proof (wf_word c _ w Hwf Hw) as Hwr.
  (* what the sweep returns *)
  assert (∃ bs wh,
            sweep (length (bits c)) c =
              Ok (bs, handIdx c, (if decide (l = 0) then U64.ones else handMask c),
                  Z.land wh (handMask c)) ∧
            bs !! Z.to_nat (handIdx c) = Some wh ∧
            U64.TrailingZeros64 (Z.land wh (handMask c)) = s ∧
            ∀ j, 0 ≤ j < Cap c → j ≠ p →
              ejectable (MkCache (idx c) (items c) bs (handIdx c) (handMask c)
                           (len c)) j =
              Ok (bool_decide
                    ((j - p) `mod` Cap c <
                     (if decide (l = 0) then Cap c - Z.rem p 64 else l))))
    as (bs & wh & Hsweep & Hwh & Htz & Hbs).
  { destruct (decide (l = 0)) as [->|Hl0].
    - assert (∀ j, 0 ≤ j < Cap c → ejectable c j = Ok false) as Hnone.
      { intros j Hj. rewrite Hrun by lia. rewrite bool_decide_eq_false_2; [done|].
        pose proof (Z.mod_pos_bound (j - p) (Cap c)). lia. }
      destruct (sweep_all_clear c (length (bits c)) Hwf ltac:(lia) Hnone)
        as (bs & Hsweep & Hbh & Hbo).
      assert (Z.land (handMask c) (handMask c) = handMask c) as Hmm
        by apply Z.land_diag.
      exists bs, (handMask c). rewrite Hmm. split; [done|]. split; [done|].
      split; [done|]. intros j Hj Hne.
      pose proof (word_of_slot j _ ltac:(rewrite <-Hcap; exact Hj)) as Hjw.
      pose proof (bit_of_slot j (proj1 Hj)) as Hjr.
      pose proof (U64Bits.word_bit j (proj1 Hj)) as Hjeq.
      rewrite Hpr in *.
      rewrite dist_cases by lia.
      destruct (decide (j ÷ 64 = handIdx c)) as [Hjh|Hjh].
      + rewrite (ejectable_testbit _ j (handMask c)); [|lia|by rewrite Hjh].
        rewrite Hmask at 1. rewrite testbit_hand_mask by lia.
        f_equal. apply bool_decide_ext. case_decide; lia.
      + rewrite (ejectable_testbit _ j U64.ones); [|lia|by apply Hbo].
        rewrite U64Facts.testbit_ones by lia. f_equal.
        symmetry. rewrite bool_decide_eq_true_2; [symmetry; apply Z.ltb_lt; lia|].
        case_decide; lia.
    - assert (ejectable c p = Ok true) as Hpe.
      { rewrite Hrun by lia. rewrite Z.sub_diag, Z.mod_0_l by lia.
        rewrite bool_decide_eq_true_2; [done|lia]. }
      rewrite (ejectable_testbit c p w) in Hpe; [|lia|by rewrite Hpq].
      injection Hpe as Hpe. rewrite Hpr in Hpe.
      assert (Z.testbit (Z.land w (handMask c)) s = true) as Hbit.
      { rewrite Z.land_spec, Hpe. rewrite Hmask at 1.
        rewrite testbit_hand_mask by lia. by rewrite bool_decide_eq_true_2. }
      assert (Z.land w (handMask c) ≠ 0) as Hnz.
      { intros Hz. by rewrite Hz, Z.bits_0 in Hbit. }
      pose proof (sweep_spec c (length (bits c)) w Hwf ltac:(lia) Hw) as Hspec.
      simpl in Hspec. rewrite decide_False in Hspec by done.
      exists (bits c), w. split; [done|]. split; [done|]. split.
      + apply U64Facts.TrailingZeros64_unique;
          [by apply U64Facts.land_in_range|done|].
        intros r Hr. rewrite Z.land_spec. rewrite Hmask at 1.
        rewrite testbit_hand_mask by lia.
        rewrite bool_decide_eq_false_2 by lia. apply andb_false_r.
      + intros j Hj Hne. rewrite <-Hrun by lia. by apply ejectable_bits. }
  destruct (Add_fuel_eject c (length (bits c)) k v Hwf Hk Hfull)
    as (bs' & h' & m' & mb' & wh' & old & Hej); [lia|]. simpl in Hej.
  rewrite Hsweep in Hej.
  destruct Hej as (Heq & _ & Hlbs & Hbr & Hwh' & _ & _ & Hold & Hkold & _ & Hadd).
  injection Heq as <- <- <- <-. rewrite Htz in Hold, Hkold, Hadd.
  fold (hand_position c) in Hold, Hkold, Hadd. fold p in Hold, Hkold, Hadd.
  fold (Add c k v) in Hadd.
  assert (wh' = wh) as -> by congruence.
  pose proof (Add_wf c k v _ _ Hwf Hadd) as Hwf'.
  match type of Hadd with _ = Ok (?x, _) => set (c' := x) in * end.
  assert (Cap c' = Cap c) as HCap.
  { unfold Cap. simpl. by rewrite length_store. }
  assert (hand_position c' = (p + 1) `mod` Cap c) as Hhand.
  { unfold hand_position. simpl.
    rewrite hand_after_next; rewrite ?length_store, ?Hlbs; [|lia|done].
    fold s. rewrite <-Hpeq. by rewrite Hcap. }
  exists old, c'. split; [done|]. split; [done|]. split; [exact Hadd|].
  split; [done|]. split; [done|]. split; [done|].
  split; [unfold full; by rewrite HCap|]. split; [done|]. split; [done|].
  unfold ejectable_from_hand. rewrite HCap, Hhand. apply Forall_seqZ.
  intros j Hj.
  destruct (decide (j = p)) as [->|Hne].
  - rewrite (ejectable_cleared c' p wh); [|lia|].
    + rewrite dist_behind by lia. rewrite bool_decide_eq_false_2; [done|].
      case_decide; lia.
    + simpl. rewrite Hpq. apply lookup_store_eq. rewrite Hlbs. done.
  - rewrite dist_next by lia.
    rewrite (ejectable_clear_other
               (MkCache (idx c) (items c) bs (handIdx c) (handMask c) (len c))
               c' p wh j); simpl; rewrite ?Hpq; try done; try lia.
    rewrite Hbs by lia. f_equal. apply bool_decide_ext.
    case_decide; lia.
Qed.

Lemma runs_cons c op ops c1 :
  run c op = Ok c1 → runs c (op :: ops) = runs c1 ops.
Proof. intros Hrun. unfold runs. simpl. by rewrite Hrun. Qed.

(** The keys after a sequence of [Add] of new keys, by induction on the
    sequence. *)
Lemma Adds_in_turn kvs c l :
  wf c → full c → 0 ≤ l ≤ Cap c → ejectable_from_hand c l →
  NoDup kvs.*1 → Forall (λ kv, idx c !! kv.1 = None) kvs →
  Z.of_nat (length kvs) ≤ Cap c →
  let p := hand_position c in
  let m := Z.of_nat (length kvs) in
  ∃ c',
    runs c (add_calls kvs) = Ok c' ∧ wf c' ∧ Cap c' = Cap c ∧
    hand_position c' = (p + m) `mod` Cap c ∧
    (∀ (t : nat) k v, kvs !! t = Some (k, v) →
       idx c' !! k = Some ((p + Z.of_nat t) `mod` Cap c) ∧
       stored c' k = Some v) ∧
    (∀ k i, idx c !! k = Some i → m ≤ (i - p) `mod` Cap c →
       idx c' !! k = Some i ∧ stored c' k = stored c k) ∧
    (∀ k i, idx c !! k = Some i → (i - p) `mod` Cap c < m →
       idx c' !! k = None) ∧
    (∀ k, idx c !! k = None → k ∉ kvs.*1 → idx c' !! k = None).
Proof.
  revert c l. induction kvs as [|[k v] kvs IH];
    intros c l Hwf Hfull Hl Hrun Hnd Hnew Hlen p m.
  - destruct (hand_position_ok c Hwf) as (_ & _ & Hp & _).
    exists c. split; [done|]. split; [done|]. split; [done|].
    split; [unfold m; simpl; rewrite Z.add_0_r, Z.mod_small; done|].
    split; [done|]. split; [done|]. split; [|done].
    intros k i _ Hlt. unfold m in Hlt. simpl in Hlt.
    pose proof (Z.mod_pos_bound (i - p) (Cap c)). lia.
  - simpl in Hnd. apply NoDup_cons in Hnd as [Hk Hnd].
    apply Forall_cons in Hnew as [Hkc Hnew]. simpl in Hkc.
    destruct (hand_position_ok c Hwf) as (_ & _ & Hp & _ & Hpr).
    fold p in Hp, Hpr.
    pose proof (bit_of_slot p (proj1 Hp)) as Hr.
    pose proof (wf_cap c Hwf) as Hcap. pose proof (wf_hand c Hwf) as Hh.
    destruct (Add_in_turn c l k v Hwf Hfull Hl Hrun Hkc)
      as (old & c1 & Hold & Hkold & Hadd & Hidx1 & Hitems1 & Hwf1 & Hfull1 &
          Hcap1 & Hp1 & Hrun1).
    fold p in Hold, Hkold, Hidx1, Hitems1, Hp1, Hrun1.
    assert (key old ≠ k) as Hko.
    { intros Heq. rewrite Heq in Hkold. congruence. }
    assert (∀ k0, idx c !! k0 = None → k0 ≠ k → idx c1 !! k0 = None) as Habs.
    { intros k0 Hk0 Hne. rewrite Hidx1, lookup_insert_ne by done.
      apply lookup_delete_None. by right. }
    assert (∀ k0 i, idx c !! k0 = Some i → i ≠ p →
              idx c1 !! k0 = Some i ∧ stored c1 k0 = stored c k0) as Hkeep.
    { intros k0 i Hk0 Hip.
      assert (k0 ≠ k) by (intros ->; congruence).
      assert (k0 ≠ key old) by (intros ->; congruence).
      destruct (wf_idx c k0 i Hwf Hk0) as (Hi & _).
      unfold stored. rewrite Hidx1, Hitems1.
      rewrite lookup_insert_ne, lookup_delete_ne, Hk0 by done.
      split; [done|]. simpl. by rewrite lookup_store_ne by lia. }
    set (l1 := if decide (l = 0) then Cap c - Z.rem p 64 - 1 else l - 1) in *.
    destruct (IH c1 l1 Hwf1 Hfull1)
      as (c' & Hruns & Hwf' & Hcap' & Hp' & HA & HB & HC & HD).
    { rewrite Hcap1. unfold l1. case_decide; lia. }
    { done. }
    { done. }
    { apply Forall_forall. intros [k0 v0] Hin. simpl.
      apply Habs.
      - by apply (proj1 (Forall_forall _ _) Hnew (k0, v0)).
      - intros ->. apply Hk. apply list_elem_of_fmap. by exists (k, v0). }
    { rewrite Hcap1. simpl in Hlen. lia. }
    rewrite Hcap1, Hp1 in *.
    set (m1 := Z.of_nat (length kvs)) in *.
    assert (m = m1 + 1) as Hm by (unfold m, m1; simpl; lia).
    assert (m1 < Cap c) as Hm1 by (simpl in Hlen; lia).
    exists c'. split.
    { unfold add_calls. simpl. erewrite runs_cons; [exact Hruns|].
      simpl. by rewrite Hadd. }
    split; [done|]. split; [done|]. split.
    { rewrite Hp', Zplus_mod_idemp_l. f_equal. lia. }
    split.
    { intros [|t] k0 v0 Hkv.
      - injection Hkv as <- <-. rewrite Z.add_0_r, Z.mod_small by done.
        destruct (HB k p) as [Hi' Hs'].
        + rewrite Hidx1. apply lookup_insert_eq.
        + rewrite dist_behind by done. lia.
        + split; [done|]. rewrite Hs'.
          apply (stored_present c1 k p (Item k v (slot_mask p))).
          * rewrite Hidx1. apply lookup_insert_eq.
          * rewrite Hitems1. apply lookup_store_eq.
            unfold Cap in Hp. lia.
      - destruct (HA t k0 v0 Hkv) as [Hi' Hs']. split; [|done].
        rewrite Hi', Zplus_mod_idemp_l. do 2 f_equal. lia. }
    split.
    { intros k0 i Hk0 Hd.
      destruct (wf_idx c k0 i Hwf Hk0) as (Hi & _).
      pose proof (wf_len c Hwf) as Hlenc.
      assert (i ≠ p) as Hip.
      { intros ->. rewrite Z.sub_diag, Z.mod_0_l in Hd by lia. lia. }
      destruct (Hkeep k0 i Hk0 Hip) as [Hi1 Hs1].
      destruct (HB k0 i Hi1) as [Hi' Hs'].
      - rewrite dist_next by lia. lia.
      - split; [done|]. by rewrite Hs'. }
    split.
    { intros k0 i Hk0 Hd.
      destruct (wf_idx c k0 i Hwf Hk0) as (Hi & it & Hit & Hkey & _).
      pose proof (wf_len c Hwf) as Hlenc.
      destruct (decide (i = p)) as [->|Hip].
      - assert (it = old) as -> by congruence. subst k0.
        apply HD.
        + rewrite Hidx1, lookup_insert_ne by done. apply lookup_delete_eq.
        + intros Hin. apply list_elem_of_fmap in Hin as ([k0 v0] & Heq & Hin).
          simpl in Heq. pose proof (proj1 (Forall_forall _ _) Hnew _ Hin) as Hn.
          simpl in Hn. rewrite <-Heq in Hn. congruence.
      - destruct (Hkeep k0 i Hk0 Hip) as [Hi1 _].
        apply (HC k0 i Hi1). rewrite dist_next by lia. lia. }
    intros k0 Hk0 Hnin. apply HD.
    + apply Habs; [done|]. intros ->. apply Hnin. simpl. left.
    + intros Hin. apply Hnin. simpl. by right.
Qed.

(** X19: first in, first out.  On a full cache whose ejectable positions
    are the [l] positions from the hand on, around the table (none when
    [l] is 0, as after a new cache was filled), successive calls of [Add]
    with new keys take the positions in turn from the hand on: the [t]-th
    new key is at the [t]-th position after the hand and holds its value,
    the keys that were at these positions are gone, and every other key
    holds its value. *)
Theorem Adds_eject_in_turn c l kvs :
  wf c → full c → 0 ≤ l ≤ Cap c → ejectable_from_hand c l →
  NoDup kvs.*1 → Forall (λ kv, idx c !! kv.1 = None) kvs →
  Z.of_nat (length kvs) ≤ Cap c →
  ∃ c',
    runs c (add_calls kvs) = Ok c' ∧
    hand_position c' =
      (hand_position c + Z.of_nat (length kvs)) `mod` Cap c ∧
    (∀ (t : nat) k v, kvs !! t = Some (k, v) →
       idx c' !! k = Some ((hand_position c + Z.of_nat t) `mod` Cap c) ∧
       answer (Get c' k) = Ok (v, true)) ∧
    (∀ k i, idx c !! k = Some i →
       if decide ((i - hand_position c) `mod` Cap c < Z.of_nat (length kvs))
       then Has c' k = Ok (c', false)
       else answer (Get c' k) = answer (Get c k)).
Proof.
  intros Hwf Hfull Hl Hrun Hnd Hnew Hlen.
  destruct (Adds_in_turn kvs c l Hwf Hfull Hl Hrun Hnd Hnew Hlen)
    as (c' & Hruns & Hwf' & _ & Hp' & HA & HB & HC & _).
  exists c'. split; [done|]. split; [done|]. split.
  - intros t k v Hkv. destruct (HA t k v Hkv) as [Hi Hs]. split; [done|].
    by rewrite Get_answer, Hs.
  - intros k i Hk. case_decide as Hd.
    + unfold Has. by rewrite (HC k i Hk Hd).
    + destruct (HB k i Hk ltac:(lia)) as [_ Hs].
      by rewrite !Get_answer, Hs.
Qed.
End in_turn.

(** ** [Delete] and the bit map *)

Section delete_bits.
Context `{Countable K} `{ZeroValue K} `{ZeroValue V} {alloc : Allocator K V}.
Implicit Types (c : Cache (K := K) (V := V)) (k : K) (v : V) (i j : Z).

(** Setting the bit of [i] leaves the other bits. *)
Lemma ejectable_set_other c c' i w j :
  0 ≤ i → 0 ≤ j → j ≠ i →
  bits c !! Z.to_nat (i ÷ 64) = Some w →
  bits c' = store (bits c) (i ÷ 64) (Z.lor w (U64.not (slot_mask i))) →
  ejectable c' j = ejectable c j.
Proof.
  intros Hi Hj Hne Hw Hb.
  pose proof (word_of_slot i (i + 1) ltac:(lia)) as Hwi.
  pose proof (lookup_in_range _ _ _ (proj1 Hwi) Hw) as Hr.
  destruct (decide (j ÷ 64 = i ÷ 64)) as [Heq|Hword].
  - pose proof (same_word_other_bit i j Hi Hj Hne Heq) as Hbit.
    pose proof (bit_of_slot i Hi). pose proof (bit_of_slot j Hj).
    rewrite (ejectable_testbit c j w) by (by rewrite ?Heq).
    rewrite (ejectable_testbit c' j (Z.lor w (U64.not (slot_mask i)))).
    + unfold slot_mask. rewrite U64Facts.not_not by apply U64Facts.shl_in_range.
      rewrite U64Bits.testbit_set by lia.
      destruct (Z.eqb_spec (Z.rem i 64) (Z.rem j 64)); [lia|].
      by rewrite orb_false_r.
    + done.
    + rewrite Hb, Heq. by apply lookup_store_eq.
  - by apply (ejectable_store_other c c' (i ÷ 64)
                (Z.lor w (U64.not (slot_mask i)))); try lia.
Qed.

(** X20: [Delete] of a present key writes to one bit of the bit map at
    most, the bit of the position of the key.  When the key was at the
    last used position no bit changes.  Otherwise the last item moves to
    the position of the key, whose bit is then set exactly when the word
    of the last used position is not zero; the bit of the position that
    was last stays as it was. *)
Theorem Delete_bits c k i :
  wf c → idx c !! k = Some i →
  ∃ c' r,
    Delete c k = Ok (c', r) ∧
    (∀ j, 0 ≤ j < Cap c → j ≠ i → ejectable c' j = ejectable c j) ∧
    (len c - 1 = i → ejectable c' i = ejectable c i) ∧
    (len c - 1 ≠ i →
       ∃ w, bits c !! Z.to_nat ((len c - 1) ÷ 64) = Some w ∧
            ejectable c' i = Ok (bool_decide (w ≠ 0))).
Proof.
  intros Hwf Hk.
  destruct (Delete_spec c k i Hwf Hk) as (it & Hi & _ & _ & Hdel).
  pose proof (wf_len c Hwf) as Hlen. pose proof (wf_cap c Hwf) as Hcap.
  simpl in Hdel. destruct (decide (len c - 1 ≠ i)) as [Hne|Heq].
  - destruct Hdel as (last & w & wi & _ & _ & Hw & Hwi & _ & Hdel).
    assert (0 ≤ i ÷ 64 < Z.of_nat (length (bits c))) as Hword.
    { apply word_of_slot. lia. }
    eexists _, _. split; [exact Hdel|]. split; [|split; [done|]].
    + intros j Hj Hji. destruct (decide (w = 0)).
      * by apply (ejectable_clear_other c _ i wi j); try lia.
      * by apply (ejectable_set_other c _ i wi j); try lia.
    + intros _. exists w. split; [done|].
      destruct (decide (w = 0)) as [->|Hnz].
      * rewrite bool_decide_eq_false_2 by (intros ?; done).
        apply (ejectable_cleared _ i wi); [lia|]. simpl.
        by apply lookup_store_eq.
      * rewrite bool_decide_eq_true_2 by done.
        apply (ejectable_set _ i wi); [lia|]. simpl.
        by apply lookup_store_eq.
  - eexists _, _. split; [exact Hdel|].
    split; [intros; by apply ejectable_bits|].
    split; [intros; by apply ejectable_bits|]. intros Hne. by destruct Heq.
Qed.
End delete_bits.

(** * The further properties on the example caches *)

Section more_runs.
Import Examples.

Local Ltac evaluated := apply (bool_decide_unpack _); vm_compute; exact I.

(** X1 on the cache with the keys 1, 2 and 3: [Get(2)]. *)
Lemma Get_hit_and_miss_witness :
  let c := the three in
  wf c ∧
  match idx c !! 2 with
  | Some i =>
      ∃ it c',
        items c !! Z.to_nat i = Some it ∧
        Get c 2 = Ok (c', (value it, true)) ∧ Has c 2 = Ok (c, true) ∧
        idx c' = idx c ∧ items c' = items c ∧ len c' = len c ∧
        handIdx c' = handIdx c ∧ handMask c' = handMask c ∧
        ejectable c' i = Ok false ∧
        ∀ j, 0 ≤ j < Cap c → j ≠ i → ejectable c' j = ejectable c j
  | None => Get c 2 = Ok (c, (zero_value, false)) ∧ Has c 2 = Ok (c, false)
  end.
Proof.
  intros c.
  assert (wf c) as Hwf by evaluated.
  split; [exact Hwf|].
  exact (Get_hit_and_miss c 2 Hwf).
Defined.

(** X2 on the filled cache: [Add(64, 164)] ejects an item. *)
Lemma Add_entry_not_ejectable_witness :
  let c := the filled in
  wf c ∧
  ∃ c' r i,
    Add c 64 164 = Ok (c', r) ∧ idx c' !! 64 = Some i ∧ 0 ≤ i < Cap c' ∧
    ejectable c' i = Ok false.
Proof.
  intros c.
  assert (wf c) as Hwf by evaluated.
  split; [exact Hwf|].
  exact (Add_entry_not_ejectable c 64 164 Hwf).
Defined.

(** X3 on the cache with the keys 1, 2 and 3: [setEjectable(1, true)]. *)
Lemma setEjectable_then_ejectable_witness :
  let c := the three in
  0 ≤ 1 < 64 * Z.of_nat (length (bits c)) ∧
  ∃ c',
    setEjectable c 1 true = Ok c' ∧ ejectable c' 1 = Ok true ∧
    (∀ j, 0 ≤ j → j ≠ 1 → ejectable c' j = ejectable c j) ∧
    idx c' = idx c ∧ items c' = items c ∧ len c' = len c ∧
    handIdx c' = handIdx c ∧ handMask c' = handMask c.
Proof.
  intros c.
  assert (0 ≤ 1 < 64 * Z.of_nat (length (bits c))) as Hi by evaluated.
  split; [exact Hi|].
  exact (setEjectable_then_ejectable c 1 true Hi).
Defined.

(** X4 on the cache with the keys 1, 2 and 3: [Add(4, 104)] appends. *)
Lemma Add_without_ejection_witness :
  let c := the three in
  wf c ∧ (is_Some (idx c !! 4) ∨ len c < Cap c) ∧
  ∃ c' r,
    Add c 4 104 = Ok (c', r) ∧
    (∀ k', k' ≠ 4 → answer (Get c' k') = answer (Get c k')) ∧
    answer (Get c' 4) = Ok (104, true) ∧
    Cap c' = Cap c ∧ handIdx c' = handIdx c ∧ handMask c' = handMask c ∧
    len c' = (if idx c !! 4 is Some _ then len c else len c + 1).
Proof.
  intros c.
  assert (wf c) as Hwf by evaluated.
  assert (is_Some (idx c !! 4) ∨ len c < Cap c) as Hcase
    by (right; vm_compute; reflexivity).
  split; [exact Hwf|]. split; [exact Hcase|].
  exact (Add_without_ejection c 4 104 Hwf Hcase).
Defined.

(** X5 on the filled cache: [Add(64, 164)]. *)
Lemma Add_ejects_exactly_one_witness :
  let c := the filled in
  wf c ∧ full c ∧ idx c !! 64 = None ∧
  ∃ old i c',
    Add c 64 164 = Ok (c', (value old, true)) ∧
    items c !! Z.to_nat i = Some old ∧ idx c !! key old = Some i ∧
    answer (Get c' (key old)) = Ok (zero_value, false) ∧
    answer (Get c' 64) = Ok (164, true) ∧
    (∀ k', k' ≠ 64 → k' ≠ key old → answer (Get c' k') = answer (Get c k')) ∧
    len c' = len c ∧ Cap c' = Cap c.
Proof.
  intros c.
  assert (wf c) as Hwf by evaluated.
  assert (full c) as Hfull by (vm_compute; reflexivity).
  assert (idx c !! 64 = None) as Hk by (vm_compute; reflexivity).
  split; [exact Hwf|]. split; [exact Hfull|]. split; [exact Hk|].
  exact (Add_ejects_exactly_one c 64 164 Hwf Hfull Hk).
Defined.

(** X6 on the cache with the keys 1, 2 and 3: [Delete(1)] moves key 3. *)
Lemma Delete_removes_one_key_witness :
  let c := the three in
  wf c ∧
  match idx c !! 1 with
  | Some i =>
      ∃ it c',
        items c !! Z.to_nat i = Some it ∧
        Delete c 1 = Ok (c', (value it, true)) ∧
        Has c' 1 = Ok (c', false) ∧
        answer (Get c' 1) = Ok (zero_value, false) ∧
        (∀ k', k' ≠ 1 → answer (Get c' k') = answer (Get c k')) ∧
        len c' = len c - 1 ∧
        items c' !! Z.to_nat (len c - 1) = Some zero_item ∧
        Cap c' = Cap c ∧ handIdx c' = handIdx c ∧ handMask c' = handMask c
  | None => Delete c 1 = Ok (c, (zero_value, false))
  end.
Proof.
  intros c.
  assert (wf c) as Hwf by evaluated.
  split; [exact Hwf|].
  exact (Delete_removes_one_key c 1 Hwf).
Defined.

(** X7 on the cache with the keys 1, 2 and 3: [Delete(2)], [Add(2, 7)]. *)
Lemma Delete_then_Add_witness :
  let c := the three in
  wf c ∧ is_Some (idx c !! 2) ∧
  ∃ c1 r1 c2,
    Delete c 2 = Ok (c1, r1) ∧ Add c1 2 7 = Ok (c2, (zero_value, false)) ∧
    idx c2 !! 2 = Some (len c - 1) ∧
    answer (Get c2 2) = Ok (7, true) ∧
    len c2 = len c ∧ Cap c2 = Cap c.
Proof.
  intros c.
  assert (wf c) as Hwf by evaluated.
  assert (is_Some (idx c !! 2)) as Hk by evaluated.
  split; [exact Hwf|]. split; [exact Hk|].
  exact (Delete_then_Add c 2 7 Hwf Hk).
Defined.

(** X8 on the filled cache: [Add(64, 164)], which ejects an item. *)
Lemma capacity_is_fixed_witness :
  let c := the filled in
  let c' := the (adds filled [64]) in
  ¬ is_Init (CallAdd 64 164) ∧ run c (CallAdd 64 164) = Ok c' ∧
  Cap c' = Cap c ∧ length (bits c') = length (bits c).
Proof.
  intros c c'.
  assert (¬ is_Init (CallAdd (K := Z) (V := Z) 64 164)) as Hop
    by (simpl; exact (λ x, x)).
  assert (run c (CallAdd 64 164) = Ok c') as Hrun by (vm_compute; reflexivity).
  split; [exact Hop|]. split; [exact Hrun|].
  exact (capacity_is_fixed c (CallAdd 64 164) c' Hop Hrun).
Defined.

(** X10 on [New(100)] and a sequence of calls of every method. *)
Lemma calls_after_New_witness :
  let c0 := the (New 100) in
  let ops := [CallAdd 1 101; CallGet 1; CallAdd 2 102; CallHas 3;
              CallDelete 1; CallItems; CallReset; CallAdd 3 103] in
  New 100 = Ok c0 ∧ Forall (λ op, ¬ is_Init op) ops ∧
  ∃ c,
    runs c0 ops = Ok c ∧ wf c ∧ check c = true ∧
    Len c = Z.of_nat (size (idx c)) ∧ 0 ≤ Len c ≤ Cap c ∧ Cap c = Cap c0.
Proof.
  intros c0 ops.
  assert (New 100 = Ok c0) as Hnew by (vm_compute; reflexivity).
  assert (Forall (λ op, ¬ is_Init op) ops) as Hops
    by (repeat constructor; simpl; exact (λ x, x)).
  split; [exact Hnew|]. split; [exact Hops|].
  exact (calls_after_New 100 c0 ops Hnew Hops).
Defined.

(** X11 on the cache with the keys 1, 2 and 3. *)
Lemma Items_lists_the_entries_witness :
  let c := the three in
  wf c ∧
  ∃ ps,
    Items c = Ok (c, ps) ∧ NoDup ps.*1 ∧ Z.of_nat (length ps) = Len c ∧
    ∀ k v, (k, v) ∈ ps ↔ answer (Get c k) = Ok (v, true).
Proof.
  intros c.
  assert (wf c) as Hwf by evaluated.
  split; [exact Hwf|].
  exact (Items_lists_the_entries c Hwf).
Defined.

(** X13 on [New(100)]. *)
Lemma New_is_empty_witness :
  let c := the (New 100) in
  New 100 = Ok c ∧
  wf c ∧ Len c = 0 ∧ idx c = ∅ ∧
  (∀ k, Has c k = Ok (c, false)) ∧
  Forall (λ it, it = zero_item) (items c) ∧
  handIdx c = 0 ∧ handMask c = U64.ones ∧
  bits c = U64.ones :: replicate (length (bits c) - 1) 0 ∧
  (∀ j, 0 ≤ j < Cap c → ejectable c j = Ok (bool_decide (j < 64))) ∧
  Cap c `mod` 64 = 0 ∧ 64 ≤ Cap c.
Proof.
  intros c.
  assert (New 100 = Ok c) as Hnew by (vm_compute; reflexivity).
  split; [exact Hnew|].
  exact (New_is_empty 100 c Hnew).
Defined.

(** X14 on the filled cache with position 5 alone ejectable. *)
Lemma Add_ejects_an_ejectable_item_witness :
  let c := the filled_5 in
  wf c ∧ full c ∧ idx c !! 64 = None ∧
  ∃ i,
    0 ≤ i < Cap c ∧ Add_ejects c 64 164 i ∧
    ((∃ j, 0 ≤ j < Cap c ∧ ejectable c j = Ok true) →
       ejectable c i = Ok true) ∧
    ((∀ j, 0 ≤ j < Cap c → ejectable c j = Ok false) →
       i = handIdx c * 64 + U64.TrailingZeros64 (handMask c)).
Proof.
  intros c.
  assert (wf c) as Hwf by evaluated.
  assert (full c) as Hfull by (vm_compute; reflexivity).
  assert (idx c !! 64 = None) as Hk by (vm_compute; reflexivity).
  split; [exact Hwf|]. split; [exact Hfull|]. split; [exact Hk|].
  exact (Add_ejects_an_ejectable_item c 64 164 Hwf Hfull Hk).
Defined.

(** X15 on the filled cache of 128 with the hand on bit 3 of word 1. *)
Lemma Add_leaves_hand_after_victim_witness :
  let c := the MoreExamples.filled_128_hand in
  wf c ∧ full c ∧ idx c !! 200 = None ∧
  ∃ c' r i,
    Add c 200 300 = Ok (c', r) ∧ idx c' !! 200 = Some i ∧
    handIdx c' * 64 + U64.TrailingZeros64 (handMask c') = (i + 1) `mod` Cap c.
Proof.
  intros c.
  assert (wf c) as Hwf by evaluated.
  assert (full c) as Hfull by (vm_compute; reflexivity).
  assert (idx c !! 200 = None) as Hk by (vm_compute; reflexivity).
  split; [exact Hwf|]. split; [exact Hfull|]. split; [exact Hk|].
  exact (Add_leaves_hand_after_victim c 200 300 Hwf Hfull Hk).
Defined.


(** X17 on the zero value of [Cache]. *)
Lemma Add_without_table_panics_witness :
  let c : cache := zero_cache in
  items c = [] ∧ bits c = [] ∧
  Add c 1 101 = Panic ∧
  (idx c !! 1 = None →
     Get c 1 = Ok (c, (zero_value, false)) ∧ Has c 1 = Ok (c, false) ∧
     Delete c 1 = Ok (c, (zero_value, false))).
Proof.
  intros c.
  assert (items c = []) as Hitems by reflexivity.
  assert (bits c = []) as Hbits by reflexivity.
  split; [exact Hitems|]. split; [exact Hbits|].
  exact (Add_without_table_panics c 1 101 Hitems Hbits).
Defined.

(** X18 on the filled cache with position 5 alone ejectable: [Get(7)],
    then [Add(64, 164)]. *)
Lemma Get_protects_from_next_Add_witness :
  let c := the filled_5 in
  wf c ∧ full c ∧ idx c !! 7 = Some 7 ∧ idx c !! 64 = None ∧
  (∃ j, 0 ≤ j < Cap c ∧ j ≠ 7 ∧ ejectable c j = Ok true) ∧
  ∃ x c1 c2 r,
    Get c 7 = Ok (c1, (x, true)) ∧ Add c1 64 164 = Ok (c2, r) ∧
    Has c2 7 = Ok (c2, true) ∧ answer (Get c2 7) = Ok (x, true).
Proof.
  intros c.
  assert (wf c) as Hwf by evaluated.
  assert (full c) as Hfull by (vm_compute; reflexivity).
  assert (idx c !! 7 = Some 7) as Hk by (vm_compute; reflexivity).
  assert (idx c !! 64 = None) as Hk' by (vm_compute; reflexivity).
  assert (∃ j, 0 ≤ j < Cap c ∧ j ≠ 7 ∧ ejectable c j = Ok true) as Hj.
  { exists 5. split; [evaluated|]. split; [evaluated|vm_compute; reflexivity]. }
  split; [exact Hwf|]. split; [exact Hfull|]. split; [exact Hk|].
  split; [exact Hk'|]. split; [exact Hj|].
  exact (Get_protects_from_next_Add c 7 7 64 164 Hwf Hfull Hk Hk' Hj).
Defined.

(** X19 on the filled cache of 128 with the hand on bit 3 of word 1 and no
    ejectable item: three new keys take the positions 67, 68 and 69. *)
Lemma Adds_eject_in_turn_witness :
  let c := the MoreExamples.filled_128_hand in
  let kvs := [(200, 300); (201, 301); (202, 302)] in
  wf c ∧ full c ∧ 0 ≤ 0 ≤ Cap c ∧ ejectable_from_hand c 0 ∧
  NoDup kvs.*1 ∧ Forall (λ kv, idx c !! kv.1 = None) kvs ∧
  Z.of_nat (length kvs) ≤ Cap c ∧
  ∃ c',
    runs c (add_calls kvs) = Ok c' ∧
    hand_position c' =
      (hand_position c + Z.of_nat (length kvs)) `mod` Cap c ∧
    (∀ (t : nat) k v, kvs !! t = Some (k, v) →
       idx c' !! k = Some ((hand_position c + Z.of_nat t) `mod` Cap c) ∧
       answer (Get c' k) = Ok (v, true)) ∧
    (∀ k i, idx c !! k = Some i →
       if decide ((i - hand_position c) `mod` Cap c < Z.of_nat (length kvs))
       then Has c' k = Ok (c', false)
       else answer (Get c' k) = answer (Get c k)).
Proof.
  intros c kvs.
  assert (wf c) as Hwf by evaluated.
  assert (full c) as Hfull by (vm_compute; reflexivity).
  assert (0 ≤ 0 ≤ Cap c) as Hl by evaluated.
  assert (ejectable_from_hand c 0) as Hrun by evaluated.
  assert (NoDup kvs.*1) as Hnd by evaluated.
  assert (Forall (λ kv, idx c !! kv.1 = None) kvs) as Hnew by evaluated.
  assert (Z.of_nat (length kvs) ≤ Cap c) as Hlen by evaluated.
  split; [exact Hwf|]. split; [exact Hfull|]. split; [exact Hl|].
  split; [exact Hrun|]. split; [exact Hnd|]. split; [exact Hnew|].
  split; [exact Hlen|].
  exact (Adds_eject_in_turn c 0 kvs Hwf Hfull Hl Hrun Hnd Hnew Hlen).
Defined.

(** X20 on the cache with the keys 1, 2 and 3: [Delete(1)] moves key 3 to
    position 0. *)
Lemma Delete_bits_witness :
  let c := the three in
  wf c ∧ idx c !! 1 = Some 0 ∧
  ∃ c' r,
    Delete c 1 = Ok (c', r) ∧
    (∀ j, 0 ≤ j < Cap c → j ≠ 0 → ejectable c' j = ejectable c j) ∧
    (len c - 1 = 0 → ejectable c' 0 = ejectable c 0) ∧
    (len c - 1 ≠ 0 →
       ∃ w, bits c !! Z.to_nat ((len c - 1) ÷ 64) = Some w ∧
            ejectable c' 0 = Ok (bool_decide (w ≠ 0))).
Proof.
  intros c.
  assert (wf c) as Hwf by evaluated.
  assert (idx c !! 1 = Some 0) as Hk by (vm_compute; reflexivity).
  split; [exact Hwf|]. split; [exact Hk|].
  exact (Delete_bits c 1 0 Hwf Hk).
Defined.
End more_runs.
